(** * UPSC front-end: the client bootstrap script [js/main.js]

  A shallow embedding of the script's functions and the properties its
  specification states about them.

  Modelling conventions.
  - A JavaScript string is a [string] whose characters stand for the
    code units 0..255 (so U+00A0 is the character 160).
  - The numbers of a JSON text are the integers ([Z]). The numbers the
    script computes with are whole numbers, the two infinities and NaN;
    a sum or product is computed where IEEE arithmetic gives it without
    rounding and is outside the model elsewhere. Clock readings are
    milliseconds since the epoch and are arguments of the functions that
    read the clock.
  - A value that crosses [JSON.stringify] or [JSON.parse] is a [json];
    the member list of an object is in the order JavaScript enumerates
    it.
  - [localStorage] is a finite map from keys to strings, with no quota;
    the document is a finite map from the selectors the script queries
    to the markup of the first element each one matches (no entry: no
    such element).
  - Effects are threaded through a small monad over the page state, with
    JavaScript exceptions as an explicit outcome, and a third outcome for
    the few coercions and JSON texts the model has no value for.
  - Listeners of the events the script dispatches are other scripts:
    a dispatch is recorded in the trace and changes nothing else.
  - The module [Full] has the calls that write once more, for a storage
    area that can refuse a write, an [innerHTML] assignment that changes
    what other selectors match, and a [login] argument that
    [JSON.stringify] refuses, with every write recorded in the trace. *)

From Stdlib Require Import ZArith String Ascii List Bool Lia.
From Stdlib Require Import DecimalString DecimalN DecimalFacts.
From stdpp Require Import base option strings gmap.

Import ListNotations.
Local Open Scope Z_scope.
Set Warnings "-register-all".

(** ** Characters *)

Module Chars.

Definition code (c : ascii) : N := N_of_ascii c.
Definition chr (n : N) : ascii := ascii_of_N n.
Definition str1 (c : ascii) : string := String c EmptyString.

Definition dquote : ascii := chr 34.   (* the double quote *)
Definition squote : ascii := chr 39.   (* the apostrophe *)
Definition bslash : ascii := chr 92.
Definition nbsp : ascii := chr 160.    (* U+00A0 *)
Definition lf : ascii := chr 10.

Definition dq : string := str1 dquote.
Definition nl : string := str1 lf.

Definition eqc (a b : ascii) : bool := Ascii.eqb a b.

(** [\s] of ECMAScript regular expressions, on the code units 0..255:
    TAB, LF, VT, FF, CR, SPACE and NBSP. *)
Definition is_js_whitespace (c : ascii) : bool :=
  let n := code c in
  ((9 <=? n) && (n <=? 13) || (n =? 32) || (n =? 160))%N.

End Chars.
Import Chars.

(** ** Regular expressions

  The fragment the script uses: a pattern anchored by [^] and [$] that
  is a sequence of atoms, each a literal or a character class, taken
  once or with the [+] quantifier. *)

Module RegExp.

Inductive class_item :=
| Whitespace                 (* \s *)
| Single (c : ascii).

Inductive atom :=
| Lit (c : ascii)
| Class (negated : bool) (items : list class_item).

Inductive quantifier := Once | OneOrMore.

Definition pattern := list (atom * quantifier).

Definition item_has (i : class_item) (c : ascii) : bool :=
  match i with
  | Whitespace => is_js_whitespace c
  | Single d => eqc c d
  end.

Definition accepts (a : atom) (c : ascii) : bool :=
  match a with
  | Lit d => eqc c d
  | Class negated items =>
      xorb negated (existsb (fun i => item_has i c) items)
  end.

(** Matching of [^ p $] against the whole input. With [+] the matcher
    tries every split; the order in which an engine tries them does not
    change the answer of [test]. *)
Fixpoint match_here (p : pattern) : string -> bool :=
  match p with
  | [] => fun s => match s with EmptyString => true | _ => false end
  | (a, Once) :: p' =>
      fun s =>
        match s with
        | String c s' => accepts a c && match_here p' s'
        | EmptyString => false
        end
  | (a, OneOrMore) :: p' =>
      fix more (s : string) : bool :=
        match s with
        | String c s' => accepts a c && (match_here p' s' || more s')
        | EmptyString => false
        end
  end.

Definition test (p : pattern) (s : string) : bool := match_here p s.

End RegExp.

(** ** The DOM fragment behind [escapeHTML]

  An element that holds text nodes, the [textContent] setter and the
  [innerHTML] getter (the HTML fragment serialisation algorithm: a text
  node is written with [&], U+00A0, [<] and [>] replaced by entities,
  unless its parent is a raw-text element). *)

Module DOM.

Inductive node := Text (data : string).

Record element := { localName : string; childNodes : list node }.

Definition createElement (tag : string) : element :=
  {| localName := tag; childNodes := [] |}.

(** [el.textContent = text]: all children are replaced by a single text
    node, or by nothing when [text] is empty. *)
Definition set_textContent (el : element) (text : string) : element :=
  {| localName := localName el;
     childNodes := match text with
                   | EmptyString => []
                   | _ => [Text text]
                   end |}.

Definition escape_char (c : ascii) : string :=
  if eqc c "&" then "&amp;"
  else if eqc c nbsp then "&nbsp;"
  else if eqc c "<" then "&lt;"
  else if eqc c ">" then "&gt;"
  else str1 c.

Fixpoint escape_text (s : string) : string :=
  match s with
  | EmptyString => EmptyString
  | String c r => escape_char c +:+ escape_text r
  end.

Definition raw_text_elements : list string :=
  ["style"; "script"; "xmp"; "iframe"; "noembed"; "noframes"; "plaintext"].

Definition is_raw_text (tag : string) : bool :=
  existsb (String.eqb tag) raw_text_elements.

Definition serialize (parent : string) (n : node) : string :=
  match n with
  | Text data => if is_raw_text parent then data else escape_text data
  end.

Definition innerHTML (el : element) : string :=
  String.concat "" (map (serialize (localName el)) (childNodes el)).

End DOM.

(** ** JSON

  The values, [JSON.stringify] and [JSON.parse].

  The parser follows the JSON grammar (insignificant whitespace, the
  literals, strings with their escapes, arrays, objects). Two constructs
  denote values this model does not have: a number with a fraction or an
  exponent, and a [\u] escape above U+00FF. On meeting one the parser
  answers [Unsupported] rather than inventing a value, so that [Malformed]
  always means a syntax error of the text. The recursion of the parser is
  on a fuel; [parse] hands over more than the text can use up
  ([JSONFacts.parse_never_out_of_fuel]). *)

Module JSON.

Inductive json :=
| JNull
| JBool (b : bool)
| JNum (n : Z)
| JStr (s : string)
| JArr (items : list json)
| JObj (members : list (string * json)).

(** *** Writing *)

(** Every writer puts its text in front of the continuation [k]. *)
Fixpoint emit_digits (u : Decimal.uint) (k : string) : string :=
  match u with
  | Decimal.Nil => k
  | Decimal.D0 u => String "0" (emit_digits u k)
  | Decimal.D1 u => String "1" (emit_digits u k)
  | Decimal.D2 u => String "2" (emit_digits u k)
  | Decimal.D3 u => String "3" (emit_digits u k)
  | Decimal.D4 u => String "4" (emit_digits u k)
  | Decimal.D5 u => String "5" (emit_digits u k)
  | Decimal.D6 u => String "6" (emit_digits u k)
  | Decimal.D7 u => String "7" (emit_digits u k)
  | Decimal.D8 u => String "8" (emit_digits u k)
  | Decimal.D9 u => String "9" (emit_digits u k)
  end.

Definition emit_int (z : Z) (k : string) : string :=
  if z <? 0 then String "-" (emit_digits (N.to_uint (Z.to_N (- z))) k)
  else emit_digits (N.to_uint (Z.to_N z)) k.

Definition hex_digit (n : N) : ascii :=
  if (n <? 10)%N then chr (48 + n) else chr (87 + n).

Definition emit_char (c : ascii) (k : string) : string :=
  if eqc c dquote then String bslash (String dquote k)
  else if eqc c bslash then String bslash (String bslash k)
  else if eqc c (chr 8) then String bslash (String "b" k)
  else if eqc c (chr 12) then String bslash (String "f" k)
  else if eqc c (chr 10) then String bslash (String "n" k)
  else if eqc c (chr 13) then String bslash (String "r" k)
  else if eqc c (chr 9) then String bslash (String "t" k)
  else if (code c <? 32)%N then
    String bslash (String "u" (String "0" (String "0"
      (String (hex_digit (code c / 16)) (String (hex_digit (code c mod 16)) k)))))
  else String c k.

Fixpoint emit_chars (s : string) (k : string) : string :=
  match s with
  | EmptyString => k
  | String c r => emit_char c (emit_chars r k)
  end.

Definition emit_quoted (s : string) (k : string) : string :=
  String dquote (emit_chars s (String dquote k)).

Fixpoint emit (v : json) (k : string) : string :=
  match v with
  | JNull => "null" +:+ k
  | JBool true => "true" +:+ k
  | JBool false => "false" +:+ k
  | JNum n => emit_int n k
  | JStr s => emit_quoted s k
  | JArr items =>
      match items with
      | [] => "[]" +:+ k
      | x :: rest =>
          String "[" (emit x
            ((fix more (l : list json) : string :=
                match l with
                | [] => String "]" k
                | y :: l' => String "," (emit y (more l'))
                end) rest))
      end
  | JObj members =>
      match members with
      | [] => "{}" +:+ k
      | (key, x) :: rest =>
          String "{" (emit_quoted key (String ":" (emit x
            ((fix more (l : list (string * json)) : string :=
                match l with
                | [] => String "}" k
                | (key', y) :: l' =>
                    String "," (emit_quoted key' (String ":" (emit y (more l'))))
                end) rest))))
      end
  end.

Definition stringify (v : json) : string := emit v EmptyString.

(** *** Reading *)

Inductive result (A : Type) :=
| Parsed (a : A) (rest : string)
| Malformed
| Unsupported
| OutOfFuel.
Arguments Parsed {A} a rest.
Arguments Malformed {A}.
Arguments Unsupported {A}.
Arguments OutOfFuel {A}.

Definition bind {A B} (r : result A) (f : A -> string -> result B) : result B :=
  match r with
  | Parsed a rest => f a rest
  | Malformed => Malformed
  | Unsupported => Unsupported
  | OutOfFuel => OutOfFuel
  end.

Definition is_ws (c : ascii) : bool :=
  eqc c " " || eqc c (chr 9) || eqc c (chr 10) || eqc c (chr 13).

Fixpoint skip_ws (s : string) : string :=
  match s with
  | String c r => if is_ws c then skip_ws r else s
  | EmptyString => EmptyString
  end.

Fixpoint expect {A} (lit : string) (a : A) (s : string) : result A :=
  match lit with
  | EmptyString => Parsed a s
  | String c lit' =>
      match s with
      | String d r => if eqc c d then expect lit' a r else Malformed
      | EmptyString => Malformed
      end
  end.

Definition digit (c : ascii) : option (Decimal.uint -> Decimal.uint) :=
  if eqc c "0" then Some Decimal.D0
  else if eqc c "1" then Some Decimal.D1
  else if eqc c "2" then Some Decimal.D2
  else if eqc c "3" then Some Decimal.D3
  else if eqc c "4" then Some Decimal.D4
  else if eqc c "5" then Some Decimal.D5
  else if eqc c "6" then Some Decimal.D6
  else if eqc c "7" then Some Decimal.D7
  else if eqc c "8" then Some Decimal.D8
  else if eqc c "9" then Some Decimal.D9
  else None.

(** The longest run of digits at the head of [s]. *)
Fixpoint read_digits (s : string) : Decimal.uint * string :=
  match s with
  | String c r =>
      match digit c with
      | Some d => let '(u, rest) := read_digits r in (d u, rest)
      | None => (Decimal.Nil, s)
      end
  | EmptyString => (Decimal.Nil, EmptyString)
  end.

(** [0], or digits that do not start with [0]. *)
Definition canonical (u : Decimal.uint) : bool :=
  match u with
  | Decimal.Nil => false
  | Decimal.D0 Decimal.Nil => true
  | Decimal.D0 _ => false
  | _ => true
  end.

Definition starts_fraction_or_exponent (s : string) : bool :=
  match s with
  | String c _ => eqc c "." || eqc c "e" || eqc c "E"
  | EmptyString => false
  end.

Definition parse_nat (s : string) : result N :=
  let '(u, rest) := read_digits s in
  if canonical u then
    if starts_fraction_or_exponent rest then Unsupported
    else Parsed (N.of_uint u) rest
  else Malformed.

Definition parse_number (s : string) : result Z :=
  match s with
  | String c r =>
      if eqc c "-" then bind (parse_nat r) (fun n rest => Parsed (- Z.of_N n) rest)
      else bind (parse_nat s) (fun n rest => Parsed (Z.of_N n) rest)
  | EmptyString => Malformed
  end.

Definition hex_value (c : ascii) : option N :=
  let n := code c in
  if ((48 <=? n) && (n <=? 57))%N then Some (n - 48)%N
  else if ((97 <=? n) && (n <=? 102))%N then Some (n - 87)%N
  else if ((65 <=? n) && (n <=? 70))%N then Some (n - 55)%N
  else None.

Definition simple_escape (e : ascii) : option ascii :=
  if eqc e dquote then Some dquote
  else if eqc e bslash then Some bslash
  else if eqc e "/" then Some "/"%char
  else if eqc e "b" then Some (chr 8)
  else if eqc e "f" then Some (chr 12)
  else if eqc e "n" then Some (chr 10)
  else if eqc e "r" then Some (chr 13)
  else if eqc e "t" then Some (chr 9)
  else None.

Definition push (c : ascii) (r : result string) : result string :=
  bind r (fun s rest => Parsed (String c s) rest).

(** The characters of a string literal, after its opening quote and up
    to the closing one. *)
Fixpoint parse_chars (s : string) : result string :=
  match s with
  | EmptyString => Malformed
  | String c r =>
      if eqc c dquote then Parsed EmptyString r
      else if eqc c bslash then
        match r with
        | EmptyString => Malformed
        | String e r' =>
            if eqc e "u" then
              match r' with
              | String h1 (String h2 (String h3 (String h4 r'')) ) =>
                  match hex_value h1, hex_value h2, hex_value h3, hex_value h4 with
                  | Some a, Some b, Some c', Some d =>
                      let n := (((a * 16 + b) * 16 + c') * 16 + d)%N in
                      if (n <? 256)%N then push (chr n) (parse_chars r'')
                      else Unsupported
                  | _, _, _, _ => Malformed
                  end
              | _ => Malformed
              end
            else
              match simple_escape e with
              | Some c' => push c' (parse_chars r')
              | None => Malformed
              end
        end
      else if (code c <? 32)%N then Malformed
      else push c (parse_chars r)
  end.

(** One [key : value] member; [pv] reads the value. *)
Definition parse_member (pv : string -> result json) (s : string)
  : result (string * json) :=
  match skip_ws s with
  | String c r =>
      if eqc c dquote then
        bind (parse_chars r) (fun key r1 =>
          match skip_ws r1 with
          | String c1 r2 =>
              if eqc c1 ":" then bind (pv r2) (fun v r3 => Parsed (key, v) r3)
              else Malformed
          | EmptyString => Malformed
          end)
      else Malformed
  | EmptyString => Malformed
  end.

(** After whitespace, the character [c]: the text behind it. *)
Definition accept (c : ascii) (s : string) : option string :=
  match skip_ws s with
  | String d r => if eqc d c then Some r else None
  | EmptyString => None
  end.

Definition is_number_start (c : ascii) : bool :=
  eqc c "-" || match digit c with Some _ => true | None => false end.

(** Recursive descent. Every call passes on less fuel and a shorter
    text. *)
Fixpoint parse_value (fuel : nat) (s : string) : result json :=
  match fuel with
  | O => OutOfFuel
  | S fuel =>
      match skip_ws s with
      | EmptyString => Malformed
      | String c r =>
          if eqc c "n" then expect "ull" JNull r
          else if eqc c "t" then expect "rue" (JBool true) r
          else if eqc c "f" then expect "alse" (JBool false) r
          else if eqc c dquote then
            bind (parse_chars r) (fun str rest => Parsed (JStr str) rest)
          else if eqc c "[" then
            match accept "]" r with
            | Some r' => Parsed (JArr []) r'
            | None => bind (parse_value fuel r)
                        (fun v r' => parse_elements fuel [v] r')
            end
          else if eqc c "{" then
            match accept "}" r with
            | Some r' => Parsed (JObj []) r'
            | None => bind (parse_member (parse_value fuel) r)
                        (fun m r' => parse_members fuel [m] r')
            end
          else if is_number_start c then
            bind (parse_number (String c r)) (fun n rest => Parsed (JNum n) rest)
          else Malformed
      end
  end

with parse_elements (fuel : nat) (acc : list json) (s : string) : result json :=
  match fuel with
  | O => OutOfFuel
  | S fuel =>
      match skip_ws s with
      | EmptyString => Malformed
      | String c r =>
          if eqc c "," then
            bind (parse_value fuel r)
              (fun v r' => parse_elements fuel (v :: acc) r')
          else if eqc c "]" then Parsed (JArr (rev acc)) r
          else Malformed
      end
  end

with parse_members (fuel : nat) (acc : list (string * json)) (s : string)
  : result json :=
  match fuel with
  | O => OutOfFuel
  | S fuel =>
      match skip_ws s with
      | EmptyString => Malformed
      | String c r =>
          if eqc c "," then
            bind (parse_member (parse_value fuel) r)
              (fun m r' => parse_members fuel (m :: acc) r')
          else if eqc c "}" then Parsed (JObj (rev acc)) r
          else Malformed
      end
  end.

Inductive outcome :=
| Value (v : json)
| NotJSON
| OutsideModel.

Definition parse (text : string) : outcome :=
  match parse_value (S (String.length text)) text with
  | Parsed v rest =>
      match skip_ws rest with
      | EmptyString => Value v
      | _ => NotJSON
      end
  | Malformed => NotJSON
  | Unsupported => OutsideModel
  | OutOfFuel => OutsideModel
  end.

(** *** Measures and printers the proofs refer to *)

(** The measure that bounds the fuel [parse_value] needs on the text of
    a value; it is at most the length of that text. *)
Fixpoint size (v : json) : nat :=
  match v with
  | JArr items =>
      match items with
      | [] => 2%nat
      | x :: rest =>
          S (size x +
             (fix more (l : list json) : nat :=
                match l with
                | [] => 1%nat
                | y :: l' => S (size y + more l')
                end) rest)
      end
  | JObj members =>
      match members with
      | [] => 2%nat
      | (_, x) :: rest =>
          S (size x +
             (fix more (l : list (string * json)) : nat :=
                match l with
                | [] => 1%nat
                | (_, y) :: l' => S (size y + more l')
                end) rest)
      end
  | _ => 1%nat
  end.

Fixpoint elements_size (l : list json) : nat :=
  match l with
  | [] => 1%nat
  | y :: l' => S (size y + elements_size l')
  end.

Fixpoint members_size (l : list (string * json)) : nat :=
  match l with
  | [] => 1%nat
  | (_, y) :: l' => S (size y + members_size l')
  end.

Fixpoint emit_elements (l : list json) (k : string) : string :=
  match l with
  | [] => String "]" k
  | y :: l' => String "," (emit y (emit_elements l' k))
  end.

Fixpoint emit_members (l : list (string * json)) (k : string) : string :=
  match l with
  | [] => String "}" k
  | (key, y) :: l' =>
      String "," (emit_quoted key (String ":" (emit y (emit_members l' k))))
  end.

(** A text that may follow a number: it starts with no digit and with
    none of [.], [e], [E]. *)
Definition ends_number (k : string) : Prop :=
  match k with
  | EmptyString => True
  | String c _ =>
      digit c = None /\ (eqc c "." || eqc c "e" || eqc c "E") = false
  end.

(** The statement proved of every value by induction. *)
Definition reads_back (v : json) : Prop :=
  forall fuel k, (size v <= fuel)%nat -> ends_number k ->
                 parse_value fuel (emit v k) = Parsed v k.

(** A reading of [s] that ended: not by lack of fuel and, if it gave a
    value, with less text left than [s] ([shrinks]) or no more
    ([keeps]). *)
Definition shrinks {A} (s : string) (res : result A) : Prop :=
  match res with
  | Parsed _ rest => (String.length rest < String.length s)%nat
  | OutOfFuel => False
  | _ => True
  end.

Definition keeps {A} (s : string) (res : result A) : Prop :=
  match res with
  | Parsed _ rest => (String.length rest <= String.length s)%nat
  | OutOfFuel => False
  | _ => True
  end.

(** The text of a value is at least as long as its measure. *)
Definition fits (v : json) : Prop :=
  forall k, (size v + String.length k <= String.length (emit v k))%nat.

End JSON.
Import JSON.


(** ** JavaScript values: property reads, coercions, object literals

  A value is a [json]; [None] stands for [undefined]. *)

Module JS.

Definition has_member (name : string) (ms : list (string * json)) : bool :=
  existsb (fun m => String.eqb name (fst m)) ms.

(** The value a text with a repeated key gives the key is its last one. *)
Fixpoint lookup_member (name : string) (ms : list (string * json)) : option json :=
  match ms with
  | [] => None
  | (k, v) :: rest =>
      match lookup_member name rest with
      | Some w => Some w
      | None => if String.eqb name k then Some v else None
      end
  end.

(** [v.name] for a [v] that is not [null], and for the names the script
    reads ([email], [username], [expiry], [value]): only an object has
    them. *)
Definition get (v : json) (name : string) : option json :=
  match v with
  | JObj ms => lookup_member name ms
  | _ => None
  end.

(** [v?.name] *)
Definition get_optional (v : json) (name : string) : option json :=
  match v with
  | JNull => None
  | _ => get v name
  end.

Definition truthy (v : option json) : bool :=
  match v with
  | None => false
  | Some JNull => false
  | Some (JBool b) => b
  | Some (JNum n) => negb (n =? 0)
  | Some (JStr s) => negb (String.eqb s EmptyString)
  | Some (JArr _) => true
  | Some (JObj _) => true
  end.

(** [a || b] *)
Definition or_else (a b : option json) : option json :=
  if truthy a then a else b.

(** [a || d] for a [d] that is a value. *)
Definition or_default (a : option json) (d : json) : json :=
  match a with
  | Some v => if truthy a then v else d
  | None => d
  end.

(** [ToString]; [None] is the [TypeError] of an object whose own
    [toString] member hides the inherited method (no member of parsed
    JSON is callable). An array joins its elements with commas, [null]
    elements as the empty string. A number is written in decimal, as
    JavaScript writes the integers below 10^21. *)
Fixpoint ToString (v : json) : option string :=
  match v with
  | JNull => Some "null"
  | JBool b => Some (if b then "true" else "false")
  | JNum n => Some (emit_int n EmptyString)
  | JStr s => Some s
  | JArr items =>
      (fix join (l : list json) : option string :=
         match l with
         | [] => Some EmptyString
         | x :: l' =>
             match (match x with JNull => Some EmptyString | _ => ToString x end) with
             | None => None
             | Some sx =>
                 match l' with
                 | [] => Some sx
                 | _ => match join l' with
                        | Some sr => Some (sx +:+ "," +:+ sr)
                        | None => None
                        end
                 end
             end
         end) items
  | JObj members =>
      if has_member "toString" members then None else Some "[object Object]"
  end.

(** [now > x] for the number [now]; [None] where the conversion of [x]
    to a number is outside the model (strings, arrays, objects).
    [undefined] converts to NaN, which compares false. *)
Definition number_gt (now : Z) (x : option json) : option bool :=
  match x with
  | None => Some false
  | Some JNull => Some (0 <? now)
  | Some (JBool b) => Some ((if b then 1 else 0) <? now)
  | Some (JNum n) => Some (n <? now)
  | Some (JStr _) => None
  | Some (JArr _) => None
  | Some (JObj _) => None
  end.

Definition remove_member (name : string) (ms : list (string * json))
  : list (string * json) :=
  filter (fun m => negb (String.eqb name (fst m))) ms.

(** [obj[name] = v] on the member list: an existing member keeps its
    place, a new one goes last. *)
Fixpoint define_member (name : string) (v : json) (ms : list (string * json))
  : list (string * json) :=
  match ms with
  | [] => [(name, v)]
  | (k, w) :: rest =>
      if String.eqb name k then (name, v) :: remove_member name rest
      else (k, w) :: define_member name v rest
  end.

Definition index_key (i : N) : string := emit_digits (N.to_uint i) EmptyString.

Fixpoint indexed {A} (f : A -> json) (i : N) (l : list A) : list (string * json) :=
  match l with
  | [] => []
  | x :: l' => (index_key i, f x) :: indexed f (N.succ i) l'
  end.

(** [{...v}]: the own enumerable properties of [v]. *)
Definition spread (v : json) : list (string * json) :=
  match v with
  | JObj ms => fold_left (fun acc m => define_member (fst m) (snd m) acc) ms []
  | JArr items => indexed (fun x => x) 0%N items
  | JStr s => indexed (fun c => JStr (str1 c)) 0%N (list_ascii_of_string s)
  | _ => []
  end.

(** *** Arithmetic

  A number of the script is an IEEE double. The model has the whole
  numbers, the infinities and NaN; [Whole 0] stands for both zeros,
  which the script cannot tell apart (it adds the result to a clock
  reading and serialises it). Every integer of magnitude up to 2^53 is a
  double, and a sum or product of two doubles that is such an integer is
  computed without rounding; any other finite result is [None], outside
  the model. *)

Inductive number :=
| Whole (z : Z)
| PosInfinity
| NegInfinity
| NaN.

Definition exact (z : Z) : bool := Z.abs z <=? 2 ^ 53.

Definition infinity (negative : bool) : number :=
  if negative then NegInfinity else PosInfinity.

(** [a * b] *)
Definition times (a b : number) : option number :=
  match a, b with
  | NaN, _ | _, NaN => Some NaN
  | Whole x, Whole y =>
      if exact x && exact y && exact (x * y) then Some (Whole (x * y)) else None
  | Whole x, PosInfinity | PosInfinity, Whole x =>
      if negb (exact x) then None
      else if x =? 0 then Some NaN else Some (infinity (x <? 0))
  | Whole x, NegInfinity | NegInfinity, Whole x =>
      if negb (exact x) then None
      else if x =? 0 then Some NaN else Some (infinity (0 <? x))
  | PosInfinity, PosInfinity | NegInfinity, NegInfinity => Some PosInfinity
  | PosInfinity, NegInfinity | NegInfinity, PosInfinity => Some NegInfinity
  end.

(** [a + b] *)
Definition plus (a b : number) : option number :=
  match a, b with
  | NaN, _ | _, NaN => Some NaN
  | Whole x, Whole y =>
      if exact x && exact y && exact (x + y) then Some (Whole (x + y)) else None
  | Whole x, PosInfinity | PosInfinity, Whole x =>
      if exact x then Some PosInfinity else None
  | Whole x, NegInfinity | NegInfinity, Whole x =>
      if exact x then Some NegInfinity else None
  | PosInfinity, PosInfinity => Some PosInfinity
  | NegInfinity, NegInfinity => Some NegInfinity
  | PosInfinity, NegInfinity | NegInfinity, PosInfinity => Some NaN
  end.

(** What [JSON.stringify] writes for a number: NaN and the infinities
    are written as [null]. *)
Definition number_to_json (n : number) : json :=
  match n with
  | Whole z => JNum z
  | _ => JNull
  end.

End JS.

(** ** The page: storage, document, and what the script does to the
    outside

  [document] maps a selector to the markup of the first element it
  matches; the elements behind the selectors of the script are taken to
  be distinct and not nested in one another, and an assignment to
  [innerHTML] is recorded as the markup handed to the setter. [trace]
  lists, oldest first, what the script does beyond storage and markup;
  the last four kinds of event are recorded by the calls of the module
  [Full] only, which keep a journal of their writes. *)

Inductive exn :=
| SyntaxError          (* JSON.parse on a text that is not JSON *)
| TypeError            (* a property of null, a failed ToString or stringify *)
| FetchError           (* a rejected fetch() or text() promise *)
| QuotaExceededError.  (* a write the storage area refuses *)

Inductive logged :=
| Status (code : Z)
| Caught (e : exn).

Inductive event :=
| FetchStarted (url : string)
| FetchSettled (url : string)
| ConsoleError (message : string) (detail : logged)
| HeaderListenersAttached
| Dispatched (type : string) (detail : json)
| Navigated (href : string)
| StorageSet (key value : string)
| StorageRemoved (key : string)
| MarkupSet (selector markup : string)
| ListenerAdded (selector : string).

Record page := {
  localStorage : gmap string string;
  document : gmap string string;
  trace : list event
}.

Definition with_storage (f : gmap string string -> gmap string string) (p : page) : page :=
  {| localStorage := f (localStorage p); document := document p; trace := trace p |}.

Definition with_document (f : gmap string string -> gmap string string) (p : page) : page :=
  {| localStorage := localStorage p; document := f (document p); trace := trace p |}.

Definition with_event (e : event) (p : page) : page :=
  {| localStorage := localStorage p; document := document p;
     trace := trace p ++ [e] |}.

(** How a call ends: it returns, it throws, or it reaches a coercion or
    a JSON text the model has no value for. *)
Inductive completion (A : Type) :=
| Return (a : A)
| Throw (e : exn)
| NotModelled.
Arguments Return {A} a.
Arguments Throw {A} e.
Arguments NotModelled {A}.

Definition M (A : Type) : Type := page -> completion A * page.

Definition ret {A} (a : A) : M A := fun p => (Return a, p).

Definition throw {A} (e : exn) : M A := fun p => (Throw e, p).

Definition not_modelled {A} : M A := fun p => (NotModelled, p).

Definition bind {A B} (m : M A) (k : A -> M B) : M B :=
  fun p =>
    match m p with
    | (Return a, p') => k a p'
    | (Throw e, p') => (Throw e, p')
    | (NotModelled, p') => (NotModelled, p')
    end.

Notation "'let*' x ':=' m 'in' k" := (bind m (fun x => k))
  (at level 10, x name, m at level 100, k at level 200).
Notation "m ';;' k" := (bind m (fun _ => k))
  (at level 100, k at level 200, right associativity).

(** [try { body } catch (error) { handler }] *)
Definition try_catch {A} (body : M A) (handler : exn -> M A) : M A :=
  fun p =>
    match body p with
    | (Throw e, p') => handler e p'
    | other => other
    end.

Definition of_option {A} (e : exn) (o : option A) : M A :=
  match o with
  | Some a => ret a
  | None => throw e
  end.

(** *** Browser interfaces *)

Definition getItem (key : string) : M (option string) :=
  fun p => (Return (localStorage p !! key), p).

Definition setItem (key value : string) : M unit :=
  fun p => (Return tt, with_storage (insert key value) p).

Definition removeItem (key : string) : M unit :=
  fun p => (Return tt, with_storage (delete key) p).

Definition querySelector (selector : string) : M (option string) :=
  fun p => (Return (document p !! selector), p).

(** [document.querySelector(selector).innerHTML = markup] with no check
    of the query's result: a [TypeError] when nothing matches. *)
Definition set_innerHTML (selector markup : string) : M unit :=
  fun p =>
    match document p !! selector with
    | Some _ => (Return tt, with_document (insert selector markup) p)
    | None => (Throw TypeError, p)
    end.

Definition emit_event (e : event) : M unit :=
  fun p => (Return tt, with_event e p).

Definition console_error (message : string) (detail : logged) : M unit :=
  emit_event (ConsoleError message detail).

Definition dispatchEvent (type : string) (detail : json) : M unit :=
  emit_event (Dispatched type detail).

Definition set_location_href (href : string) : M unit :=
  emit_event (Navigated href).

Definition JSON_parse (text : string) : M json :=
  match JSON.parse text with
  | Value v => ret v
  | NotJSON => throw SyntaxError
  | OutsideModel => not_modelled
  end.

(** What the network answers to a request. *)
Inductive body :=
| BodyText (text : string)
| BodyFails.

Inductive answer :=
| Rejects
| Responds (status : Z) (content : body).

Record response := { status : Z; content : body }.

(** [Response.ok] *)
Definition ok (r : response) : bool := (200 <=? status r) && (status r <=? 299).

(** [await fetch(url)]: the request is started, the caller is suspended
    until the promise settles. *)
Definition fetch (network : string -> answer) (url : string) : M response :=
  emit_event (FetchStarted url);;
  emit_event (FetchSettled url);;
  match network url with
  | Rejects => throw FetchError
  | Responds st c => ret {| status := st; content := c |}
  end.

(** [await response.text()] *)
Definition text (r : response) : M string :=
  match content r with
  | BodyText t => ret t
  | BodyFails => throw FetchError
  end.

(** ** The script *)

Record config := {
  templatePath : string;
  headerFile : string;
  footerFile : string;
  storageKey : string;
  userDataKey : string;
  headerSelector : string;
  footerSelector : string;
  mainContentSelector : string
}.

Definition CONFIG : config := {|
  templatePath := "templates/";
  headerFile := "header.html";
  footerFile := "footer.html";
  storageKey := "user_logged_in";
  userDataKey := "user_data";
  headerSelector := "#app-header";
  footerSelector := "#app-footer";
  mainContentSelector := "#main-content"
|}.

(** [attachHeaderEventListeners]: three guarded queries inside the
    injected header, each followed by [addEventListener] when the element
    exists. Nothing in it throws or touches storage or markup. *)
Definition attachHeaderEventListeners : M unit :=
  emit_event HeaderListenersAttached.

Definition loadTemplates (network : string -> answer) : M unit :=
  try_catch
    (let* headerResponse := fetch network (templatePath CONFIG +:+ headerFile CONFIG) in
     (if ok headerResponse then
        let* headerHTML := text headerResponse in
        set_innerHTML (headerSelector CONFIG) headerHTML;;
        attachHeaderEventListeners
      else
        console_error "Failed to load header template:" (Status (status headerResponse)));;
     let* footerResponse := fetch network (templatePath CONFIG +:+ footerFile CONFIG) in
     if ok footerResponse then
       let* footerHTML := text footerResponse in
       set_innerHTML (footerSelector CONFIG) footerHTML
     else
       console_error "Failed to load footer template:" (Status (status footerResponse)))
    (fun error => console_error "Error loading templates:" (Caught error)).

Definition isLoggedIn : M bool :=
  let* flag := getItem (storageKey CONFIG) in
  ret match flag with
      | Some v => String.eqb v "true"
      | None => false
      end.

(** [data ? JSON.parse(data) : null]: a missing record and the empty
    string are both falsy. *)
Definition getUserData : M json :=
  let* data := getItem (userDataKey CONFIG) in
  match data with
  | Some (String _ _ as stored) => JSON_parse stored
  | _ => ret JNull
  end.

Definition escapeHTML (text : string) : string :=
  let div := DOM.createElement "div" in
  let div := DOM.set_textContent div text in
  DOM.innerHTML div.

Definition authSelector : string := ".auth-container".

Definition welcomeMarkup (name : string) : string :=
  nl +:+ "      <div class=" +:+ dq +:+ "user-welcome" +:+ dq +:+ ">" +:+
  nl +:+ "        <p>Welcome, <strong>" +:+ name +:+ "</strong></p>" +:+
  nl +:+ "        <button class=" +:+ dq +:+ "logout-btn" +:+ dq +:+
         " onclick=" +:+ dq +:+ "logout()" +:+ dq +:+ ">Logout</button>" +:+
  nl +:+ "      </div>" +:+
  nl +:+ "    ".

Definition loginMarkup : string :=
  nl +:+ "      <a href=" +:+ dq +:+ "login.html" +:+ dq +:+
         " class=" +:+ dq +:+ "login-btn" +:+ dq +:+ ">Login</a>" +:+
  nl +:+ "    ".

(** [username] is the first truthy of [userData?.email],
    [userData?.username] and ['User']; the [textContent] setter inside
    [escapeHTML] converts it to a string. *)
Definition updateAuthUI : M unit :=
  let* authContainer := querySelector authSelector in
  match authContainer with
  | None => ret tt
  | Some _ =>
      let* loggedIn := isLoggedIn in
      if loggedIn then
        let* userData := getUserData in
        let username :=
          JS.or_default (JS.or_else (JS.get_optional userData "email")
                                    (JS.get_optional userData "username"))
                        (JStr "User") in
        let* shown := of_option TypeError (JS.ToString username) in
        set_innerHTML authSelector (welcomeMarkup (escapeHTML shown))
      else
        set_innerHTML authSelector loginMarkup
  end.

(** [login(userData = {})]; [loginTime] is what
    [new Date().toISOString()] gives at the call. *)
Definition login (userData : option json) (loginTime : string) : M unit :=
  let userData := default (JObj []) userData in
  setItem (storageKey CONFIG) "true";;
  setItem (userDataKey CONFIG)
    (JSON.stringify
       (JObj (JS.define_member "loginTime" (JStr loginTime) (JS.spread userData))));;
  dispatchEvent "user:login" userData;;
  updateAuthUI.

Definition logout : M unit :=
  removeItem (storageKey CONFIG);;
  removeItem (userDataKey CONFIG);;
  dispatchEvent "user:logout" JNull;;
  updateAuthUI;;
  set_location_href "/".

(** [new Date().getTime() + expiryMinutes * 60 * 1000], evaluated left
    to right as JavaScript does: the two products, then the sum. *)
Definition expiry_time (expiryMinutes : JS.number) (now : Z) : option JS.number :=
  match JS.times expiryMinutes (JS.Whole 60) with
  | Some minutes =>
      match JS.times minutes (JS.Whole 1000) with
      | Some milliseconds => JS.plus (JS.Whole now) milliseconds
      | None => None
      end
  | None => None
  end.

(** [setStorageWithExpiry(key, value, expiryMinutes = 60)]; [now] is
    what [new Date().getTime()] gives at the call. A [value] that is
    [undefined] leaves no member in the stored object; an expiry time
    that is not finite is stored as [null]. *)
Definition setStorageWithExpiry (key : string) (value : option json)
    (expiryMinutes : option JS.number) (now : Z) : M unit :=
  let expiryMinutes := default (JS.Whole 60) expiryMinutes in
  match expiry_time expiryMinutes now with
  | Some expiryTime =>
      setItem key
        (JSON.stringify
           (JObj (match value with
                  | Some v => [("value", v)]
                  | None => []
                  end ++ [("expiry", JS.number_to_json expiryTime)])))
  | None => not_modelled
  end.

(** [data.name] with no guard: a [TypeError] on [null]. *)
Definition property (data : json) (name : string) : M (option json) :=
  match data with
  | JNull => throw TypeError
  | _ => ret (JS.get data name)
  end.

Definition greater_than (now : Z) (x : option json) : M bool :=
  match JS.number_gt now x with
  | Some b => ret b
  | None => not_modelled
  end.

(** [getStorageWithExpiry(key)]; the result is [Some JNull] for [null]
    and [None] for [undefined]. *)
Definition getStorageWithExpiry (key : string) (now : Z) : M (option json) :=
  let* item := getItem key in
  match item with
  | Some (String _ _ as stored) =>
      let* data := JSON_parse stored in
      let* expiry := property data "expiry" in
      let* expired := greater_than now expiry in
      if expired then
        removeItem key;;
        ret (Some JNull)
      else property data "value"
  | _ => ret (Some JNull)
  end.

(** ** Email validation *)

(** [/^[^\s@]+@[^\s@]+\.[^\s@]+$/] *)
Definition emailRegex : RegExp.pattern :=
  let part := RegExp.Class true [RegExp.Whitespace; RegExp.Single "@"%char] in
  [ (part, RegExp.OneOrMore); (RegExp.Lit "@"%char, RegExp.Once);
    (part, RegExp.OneOrMore); (RegExp.Lit "."%char, RegExp.Once);
    (part, RegExp.OneOrMore) ].

Definition isValidEmail (email : string) : bool :=
  RegExp.test emailRegex email.



(** ** Vocabulary of the statements *)

(** [m] leaves the component [f] of the page as it found it, however it
    ends. *)
Definition preserves {A B} (f : page -> B) (m : M A) : Prop :=
  forall p, f (snd (m p)) = f p.

(** What [updateAuthUI] renders, as a function of storage alone. *)
Definition stored_user (storage : gmap string string) : completion json :=
  match storage !! userDataKey CONFIG with
  | Some (String _ _ as stored) =>
      match JSON.parse stored with
      | Value v => Return v
      | NotJSON => Throw SyntaxError
      | OutsideModel => NotModelled
      end
  | _ => Return JNull
  end.

Definition display_name (userData : json) : option string :=
  JS.ToString
    (JS.or_default (JS.or_else (JS.get_optional userData "email")
                               (JS.get_optional userData "username"))
                   (JStr "User")).

Definition flag_is_true (storage : gmap string string) : bool :=
  match storage !! storageKey CONFIG with
  | Some v => String.eqb v "true"
  | None => false
  end.

Definition auth_markup (storage : gmap string string) : completion string :=
  if flag_is_true storage then
    match stored_user storage with
    | Return userData =>
        match display_name userData with
        | Some name => Return (welcomeMarkup (escapeHTML name))
        | None => Throw TypeError
        end
    | Throw e => Throw e
    | NotModelled => NotModelled
    end
  else Return loginMarkup.

(** The two auth keys are both present or both absent. *)
Definition synchronised (storage : gmap string string) : Prop :=
  is_Some (storage !! storageKey CONFIG) <-> is_Some (storage !! userDataKey CONFIG).

(** The record [login] stores. *)
Definition stored_record (userData : option json) (loginTime : string) : string :=
  JSON.stringify
    (JObj (JS.define_member "loginTime" (JStr loginTime)
             (JS.spread (default (JObj []) userData)))).

(** The object [setStorageWithExpiry] stores. *)
Definition expiring_entry (value : option json) (expiryTime : JS.number) : json :=
  JObj (match value with
        | Some v => [("value", v)]
        | None => []
        end ++ [("expiry", JS.number_to_json expiryTime)]).

(** [now > expiry] for a stored expiry time: one that was not finite
    was stored as [null], which compares as 0. *)
Definition expired (expiryTime : JS.number) (now : Z) : bool :=
  match expiryTime with
  | JS.Whole z => z <? now
  | _ => 0 <? now
  end.


Definition negative (minutes : JS.number) : bool :=
  match minutes with
  | JS.Whole z => z <? 0
  | JS.NegInfinity => true
  | _ => false
  end.

(** A character entity: [&], a name, [;]. *)
Definition is_entity (e : string) : Prop :=
  exists name, e = String "&" (name +:+ ";").

(** Every occurrence of [c] in the input is written as an entity. *)
Definition escapes (c : ascii) : Prop :=
  forall before after, exists e,
    is_entity e /\
    escapeHTML (before +:+ String c after) =
    escapeHTML before +:+ e +:+ escapeHTML after.

(** Every occurrence of [c] in the input is written as [written]. *)
Definition written_as (c : ascii) (written : string) : Prop :=
  forall before after,
    escapeHTML (before +:+ String c after) =
    escapeHTML before +:+ written +:+ escapeHTML after.

(** Every occurrence of [c] in the input is copied as it is. *)
Definition copies (c : ascii) : Prop := written_as c (str1 c).

(** Every character of [x] is accepted by the atom [a]. *)
Definition all_accepted (a : RegExp.atom) (x : string) : Prop :=
  forall ch, In ch (list_ascii_of_string x) -> RegExp.accepts a ch = true.

(** A non-empty string with no whitespace and no [@] in it. *)
Definition plain (x : string) : Prop :=
  x <> EmptyString /\
  forall ch, In ch (list_ascii_of_string x) ->
             is_js_whitespace ch = false /\ ch <> "@"%char.

(** The two templates of [loadTemplates]. *)
Inductive template := Header | Footer.

Definition template_url (t : template) : string :=
  templatePath CONFIG +:+
  match t with
  | Header => headerFile CONFIG
  | Footer => footerFile CONFIG
  end.

Definition template_selector (t : template) : string :=
  match t with
  | Header => headerSelector CONFIG
  | Footer => footerSelector CONFIG
  end.

(** A fetch fails: the promise rejects, the status is not a success, or
    the body cannot be read. *)
Definition fetch_failed (a : answer) : Prop :=
  match a with
  | Rejects => True
  | Responds st c => ok {| status := st; content := c |} = false \/ c = BodyFails
  end.


(** What a call added to the trace. *)
Definition new_events (before after : page) : list event :=
  drop (length (trace before)) (trace after).

(** The page once the request for [url] has been started and has
    settled. *)
Definition settled (url : string) (p : page) : page :=
  with_event (FetchSettled url) (with_event (FetchStarted url) p).

(** The two parts of the [try] block of [loadTemplates]. *)
Definition header_block (network : string -> answer) : M unit :=
  let* headerResponse := fetch network (templatePath CONFIG +:+ headerFile CONFIG) in
  if ok headerResponse then
    let* headerHTML := text headerResponse in
    set_innerHTML (headerSelector CONFIG) headerHTML;;
    attachHeaderEventListeners
  else
    console_error "Failed to load header template:" (Status (status headerResponse)).

Definition footer_block (network : string -> answer) : M unit :=
  let* footerResponse := fetch network (templatePath CONFIG +:+ footerFile CONFIG) in
  if ok footerResponse then
    let* footerHTML := text footerResponse in
    set_innerHTML (footerSelector CONFIG) footerHTML
  else
    console_error "Failed to load footer template:" (Status (status footerResponse)).


(** ** Scenarios *)

Definition page_of (storage markup : list (string * string)) : page :=
  {| localStorage := list_to_map storage;
     document := list_to_map markup;
     trace := [] |}.

(** A stored record that is not JSON, on a page with no auth container. *)
Definition page_without_container : page :=
  page_of [("user_logged_in", "true"); ("user_data", "{oops")]
          [("#app-header", "")].

(** The same storage on a page that has the container. *)
Definition page_with_broken_record : page :=
  page_of [("user_logged_in", "true"); ("user_data", "{oops")]
          [(".auth-container", "")].

(** The record is present and empty. *)
Definition page_with_empty_record : page :=
  page_of [("user_logged_in", "true"); ("user_data", "")]
          [(".auth-container", "")].

(** Logged out, with every container of the script in place. *)
Definition fresh_page : page :=
  page_of [("theme", "dark")]
          [("#app-header", "old header"); ("#app-footer", "old footer");
           (".auth-container", "")].

(** Networks for the template scenarios. *)
Definition network_header_missing (url : string) : answer :=
  if String.eqb url "templates/header.html" then Responds 404 (BodyText "Not Found")
  else Responds 200 (BodyText "new footer").


Definition network_up (url : string) : answer :=
  if String.eqb url "templates/header.html" then Responds 200 (BodyText "new header")
  else Responds 200 (BodyText "new footer").

(** ** More vocabulary *)


(** The characters the serialisation of a text node replaces. *)
Definition needs_escape (c : ascii) : bool :=
  eqc c "&" || eqc c nbsp || eqc c "<" || eqc c ">".

(** How often the character occurs in the string. *)
Fixpoint occurrences (c : ascii) (s : string) : nat :=
  match s with
  | EmptyString => 0%nat
  | String d s' => ((if eqc d c then 1 else 0) + occurrences c s')%nat
  end.

(** ** More scenarios *)

(** Storage entries that were not written by [setStorageWithExpiry]. *)
Definition page_with_plain_entries : page :=
  page_of [("visits", "5"); ("nothing", "null"); ("broken", "{oops");
           ("user_logged_in", "TRUE"); ("user_data", "{oops")]
          [(".auth-container", "")].

(** ** The script, continued: button loading state *)

(** A button as the script sees it: [button.disabled],
    [button.textContent] and [button.dataset.originalText] ([None]: the
    attribute is not set). *)
Record button_element := {
  disabled : bool;
  textContent : string;
  dataset_originalText : option string
}.

(** [setButtonLoading(button, isLoading = true)] *)
Definition setButtonLoading (button : button_element) (isLoading : option bool) : button_element :=
  if default true isLoading then
    {| disabled := true;
       dataset_originalText := Some (textContent button);
       textContent := "Loading..." |}
  else
    {| disabled := false;
       textContent := match dataset_originalText button with
                      | Some (String _ _ as saved) => saved
                      | _ => "Submit"
                      end;
       dataset_originalText := dataset_originalText button |}.

Definition resetButtonLoading (button : button_element) : button_element :=
  setButtonLoading button (Some false).

(** ** The script, continued: lazy loading of images *)

(** An image by its two attributes; [None]: the attribute is absent.
    [img.dataset.src] reads [data-src]. *)
Record image := {
  src : option string;
  data_src : option string
}.

(** The images of the document, in document order, and the targets of
    every [IntersectionObserver] the script has created, oldest first. *)
Record gallery := {
  images : list image;
  observers : list (gset nat)
}.

(** [img] matches [img[data-src]]. *)
Definition is_deferred (img : image) : bool :=
  match data_src img with
  | Some _ => true
  | None => false
  end.

(** [img.src = img.dataset.src; img.removeAttribute('data-src')] on an
    image that has the attribute. *)
Definition resolve (img : image) : image :=
  match data_src img with
  | Some source => {| src := Some source; data_src := None |}
  | None => img
  end.

(** The indices of the images matched by [img[data-src]]. *)
Fixpoint deferred_from (i : nat) (l : list image) : list nat :=
  match l with
  | [] => []
  | img :: l' =>
      if is_deferred img then i :: deferred_from (S i) l'
      else deferred_from (S i) l'
  end.

Definition deferred_images (g : gallery) : list nat := deferred_from 0 (images g).

(** The callback handed to [new IntersectionObserver], for the observer
    number [o]: for every intersecting entry, an image with a truthy
    [dataset.src] gets it as its source and loses the attribute, and the
    target is unobserved in any case. *)
Definition handle_entry (o : nat) (g : gallery) (entry : nat * bool) : gallery :=
  let '(target, isIntersecting) := entry in
  if isIntersecting then
    let loaded :=
      match images g !! target with
      | Some img =>
          match data_src img with
          | Some (String _ _) => <[target := resolve img]> (images g)
          | _ => images g
          end
      | None => images g
      end in
    {| images := loaded;
       observers := alter (fun targets => targets ∖ {[target]}) o (observers g) |}
  else g.

Definition on_intersection (o : nat) (entries : list (nat * bool)) (g : gallery)
  : gallery :=
  fold_left (handle_entry o) entries g.

(** [setupLazyLoading()]; [supported] is
    ['IntersectionObserver' in window]. *)
Definition setupLazyLoading (supported : bool) (g : gallery) : gallery :=
  if supported then
    {| images := images g;
       observers := observers g ++ [list_to_set (deferred_images g)] |}
  else
    {| images := map (fun img => if is_deferred img then resolve img else img)
                     (images g);
       observers := observers g |}.

(** [img.dataset.src] is truthy: the attribute is there and not empty. *)
Definition has_source (img : image) : bool :=
  match data_src img with
  | Some (String _ _) => true
  | _ => false
  end.

(** The callback has nothing left to load at the image number [j]. *)
Definition no_source_at (g : gallery) (j : nat) : Prop :=
  forall img, images g !! j = Some img -> has_source img = false.


(** ** The script, continued: start-up *)

(** What the [DOMContentLoaded] handler works on: the page, the [img]
    elements of the document as [setupLazyLoading] finds them, and the
    number of [MutationObserver]s the script has started on
    [document.body]. The images are tracked apart from the markup of the
    containers. *)
Record application := {
  app_page : page;
  app_gallery : gallery;
  mutation_observers : nat
}.

Definition Startup (A : Type) : Type := application -> completion A * application.

(** A call that works on the page. *)
Definition on_page {A} (m : M A) : Startup A :=
  fun a =>
    let (r, p) := m (app_page a) in
    (r, {| app_page := p;
           app_gallery := app_gallery a;
           mutation_observers := mutation_observers a |}).

(** A call that works on the images and cannot throw. *)
Definition on_gallery (f : gallery -> gallery) : Startup unit :=
  fun a =>
    (Return tt, {| app_page := app_page a;
                   app_gallery := f (app_gallery a);
                   mutation_observers := mutation_observers a |}).

(** [new MutationObserver(...)] followed by
    [observer.observe(document.body, ...)]. *)
Definition observe_mutations : Startup unit :=
  fun a =>
    (Return tt, {| app_page := app_page a;
                   app_gallery := app_gallery a;
                   mutation_observers := S (mutation_observers a) |}).

Definition and_then {A B} (m : Startup A) (k : Startup B) : Startup B :=
  fun a =>
    match m a with
    | (Return _, a') => k a'
    | (Throw e, a') => (Throw e, a')
    | (NotModelled, a') => (NotModelled, a')
    end.

Definition catching {A} (body : Startup A) (handler : exn -> Startup A) : Startup A :=
  fun a =>
    match body a with
    | (Throw e, a') => handler e a'
    | other => other
    end.

(** The listener of [DOMContentLoaded]. *)
Definition onDOMContentLoaded (network : string -> answer) (supported : bool)
  : Startup unit :=
  catching
    (and_then (on_page (loadTemplates network))
    (and_then (on_gallery (setupLazyLoading supported))
    (and_then (on_page updateAuthUI)
    (and_then observe_mutations
              (on_page (dispatchEvent "app:ready" JNull))))))
    (fun error => on_page (console_error "Error initializing app:" (Caught error))).

(** The callback of that [MutationObserver]: [setupLazyLoading] again. *)
Definition on_mutation (supported : bool) (g : gallery) : gallery :=
  setupLazyLoading supported g.

(** An event dispatched on [window]. *)
Definition is_dispatch (e : event) : bool :=
  match e with
  | Dispatched _ _ => true
  | _ => false
  end.

(** A call adds events to the trace, and only events of the kind
    [allowed]. *)
Definition adds_only {A} (allowed : event -> bool) (m : M A) : Prop :=
  forall p, exists added,
    trace (snd (m p)) = trace p ++ added /\ forallb allowed added = true.

(** A call ends within the model: it returns or it throws. *)
Definition completes {A} (m : M A) : Prop :=
  forall p, fst (m p) <> NotModelled.

(** ** The script once more, for a browser that can refuse and re-parse

  The calls of this module are the script's again, with what the
  conventions of the page leave out:
  - a write to storage can be refused: [accepts storage key value] says
    whether the storage area, holding [storage], takes the write; the
    quota is the browser's;
  - an assignment to [innerHTML] replaces the subtree of the element,
    so that elements matched by other selectors can appear, disappear or
    change with it: [reparse selector markup document] is what the
    other selectors match after the assignment. It stands for the
    browser's parser and for the place of the element in the tree;
  - the argument of [login] can be a value [JSON.stringify] refuses;
  - every write is recorded in the trace, in the order it happens.
  Reading calls are those of the page. *)

Module Full.

(** What [login] is handed: a value [JSON.stringify] writes, or an
    object it refuses once [loginTime] is added, because a member other
    than [loginTime] holds a BigInt or leads back to the object. *)
Inductive submitted :=
| Data (v : json)
| Unserialisable.

Section Browser.

Variable accepts : gmap string string -> string -> string -> bool.
Variable reparse : string -> string -> gmap string string -> gmap string string.

Definition setItem (key value : string) : M unit :=
  fun p =>
    if accepts (localStorage p) key value
    then (Return tt,
          with_event (StorageSet key value) (with_storage (insert key value) p))
    else (Throw QuotaExceededError, p).

Definition removeItem (key : string) : M unit :=
  fun p =>
    (Return tt, with_event (StorageRemoved key) (with_storage (delete key) p)).

(** [document.querySelector(selector).innerHTML = markup] *)
Definition set_innerHTML (selector markup : string) : M unit :=
  fun p =>
    match document p !! selector with
    | Some _ =>
        (Return tt,
         with_event (MarkupSet selector markup)
           (with_document
              (fun d => <[selector := markup]> (reparse selector markup d)) p))
    | None => (Throw TypeError, p)
    end.

(** [const el = document.querySelector(selector);
     if (el) { el.addEventListener('click', ...) }] *)
Definition listen (selector : string) : M unit :=
  let* element := querySelector selector in
  match element with
  | Some _ => emit_event (ListenerAdded selector)
  | None => ret tt
  end.

Definition attachHeaderEventListeners : M unit :=
  listen ".login-btn";;
  listen ".logout-btn";;
  listen ".menu-toggle";;
  emit_event HeaderListenersAttached.

Definition loadTemplates (network : string -> answer) : M unit :=
  try_catch
    (let* headerResponse := fetch network (templatePath CONFIG +:+ headerFile CONFIG) in
     (if ok headerResponse then
        let* headerHTML := text headerResponse in
        set_innerHTML (headerSelector CONFIG) headerHTML;;
        attachHeaderEventListeners
      else
        console_error "Failed to load header template:" (Status (status headerResponse)));;
     let* footerResponse := fetch network (templatePath CONFIG +:+ footerFile CONFIG) in
     if ok footerResponse then
       let* footerHTML := text footerResponse in
       set_innerHTML (footerSelector CONFIG) footerHTML
     else
       console_error "Failed to load footer template:" (Status (status footerResponse)))
    (fun error => console_error "Error loading templates:" (Caught error)).

Definition updateAuthUI : M unit :=
  let* authContainer := querySelector authSelector in
  match authContainer with
  | None => ret tt
  | Some _ =>
      let* loggedIn := isLoggedIn in
      if loggedIn then
        let* userData := getUserData in
        let username :=
          JS.or_default (JS.or_else (JS.get_optional userData "email")
                                    (JS.get_optional userData "username"))
                        (JStr "User") in
        let* shown := of_option TypeError (JS.ToString username) in
        set_innerHTML authSelector (welcomeMarkup (escapeHTML shown))
      else
        set_innerHTML authSelector loginMarkup
  end.

(** [JSON.stringify({ ...userData, loginTime: ... })] *)
Definition stringify_record (userData : submitted) (loginTime : string) : M string :=
  match userData with
  | Data v =>
      ret (JSON.stringify
             (JObj (JS.define_member "loginTime" (JStr loginTime) (JS.spread v))))
  | Unserialisable => throw TypeError
  end.

(** [new CustomEvent('user:login', { detail: userData })], dispatched. *)
Definition announce_login (userData : submitted) : M unit :=
  match userData with
  | Data v => dispatchEvent "user:login" v
  | Unserialisable => not_modelled
  end.

(** [login(userData = {})]: the flag is written before the record is
    serialised, since the arguments of the second [setItem] are
    evaluated after the first one has returned. *)
Definition login (userData : option submitted) (loginTime : string) : M unit :=
  let userData := default (Data (JObj [])) userData in
  setItem (storageKey CONFIG) "true";;
  let* record := stringify_record userData loginTime in
  setItem (userDataKey CONFIG) record;;
  announce_login userData;;
  updateAuthUI.

Definition logout : M unit :=
  removeItem (storageKey CONFIG);;
  removeItem (userDataKey CONFIG);;
  dispatchEvent "user:logout" JNull;;
  updateAuthUI;;
  set_location_href "/".

(** The listener of [DOMContentLoaded]. *)
Definition onDOMContentLoaded (network : string -> answer) (supported : bool)
  : Startup unit :=
  catching
    (and_then (on_page (loadTemplates network))
    (and_then (on_gallery (setupLazyLoading supported))
    (and_then (on_page updateAuthUI)
    (and_then observe_mutations
              (on_page (dispatchEvent "app:ready" JNull))))))
    (fun error => on_page (console_error "Error initializing app:" (Caught error))).

End Browser.

(** The [click] listeners [attachHeaderEventListeners] adds on a
    document: one for each of the three elements that is there. *)
Definition listeners (d : gmap string string) : list event :=
  flat_map (fun selector =>
              match d !! selector with
              | Some _ => [ListenerAdded selector]
              | None => []
              end)
           [".login-btn"; ".logout-btn"; ".menu-toggle"].

(** What a call of the template loader may add to the trace: requests,
    console output, listeners, and assignments of markup to the header
    and footer containers. *)
Definition template_effect (e : event) : bool :=
  match e with
  | FetchStarted _ | FetchSettled _ | ConsoleError _ _
  | HeaderListenersAttached | ListenerAdded _ => true
  | MarkupSet selector _ =>
      String.eqb selector (headerSelector CONFIG)
      || String.eqb selector (footerSelector CONFIG)
  | _ => false
  end.

(** *** Browsers for the scenarios *)

(** A storage area with no quota. *)
Definition unlimited : gmap string string -> string -> string -> bool :=
  fun _ _ _ => true.

(** The code units a storage area holds. *)
Definition storage_size (storage : gmap string string) : nat :=
  map_fold (fun key value n => (String.length key + String.length value + n)%nat)
           0%nat storage.

(** A storage area that takes a write when what it then holds is within
    the quota. *)
Definition within (quota : nat) : gmap string string -> string -> string -> bool :=
  fun storage key value => Nat.leb (storage_size (<[key := value]> storage)) quota.

(** Elements that are nested in none of the containers. *)
Definition untouched : string -> string -> gmap string string -> gmap string string :=
  fun _ _ d => d.

(** A header template that holds the auth container, empty, with the
    page having none outside the header. *)
Definition header_brings_auth
  : string -> string -> gmap string string -> gmap string string :=
  fun selector _ d =>
    if String.eqb selector (headerSelector CONFIG)
    then <[authSelector := EmptyString]> d
    else d.

(** A page whose auth container sits inside the header container, and a
    header template without one. *)
Definition header_drops_auth
  : string -> string -> gmap string string -> gmap string string :=
  fun selector _ d =>
    if String.eqb selector (headerSelector CONFIG)
    then delete authSelector d
    else d.

End Full.

(** A corrupt record on a page whose header container holds the auth
    container. *)
Definition page_with_auth_in_header : page :=
  page_of [("user_logged_in", "true"); ("user_data", "{oops")]
          [("#app-header", "<div class=auth-container></div>");
           ("#app-footer", ""); (".auth-container", "")].

(** ** The script, continued: toasts *)

Module Toast.

(** A [style] element: [style.dataset.toast] ([None]: no [data-toast]
    attribute) and its text. *)
Record style_element := {
  data_toast : option string;
  css : string
}.

(** A toast: its class, the attributes set on it in the order they were
    set, its text, and [toast.style.animation]. *)
Record toast_element := {
  className : string;
  attributes : list (string * string);
  textContent : string;
  style_animation : option string
}.

(** The two functions [showToast] hands to [setTimeout], each closed over
    the toast it was created for. *)
Inductive callback :=
| FadeOut (toast : nat)
| Detach (toast : nat).

(** The part of the document [showToast] works on: the [style] elements
    of [document.head] and those anywhere else in the document, the
    toasts among the children of [document.body] in document order, each
    with the number of the [createElement] call that made it, the timers
    that have not fired yet in the order they were set, each with its
    delay in milliseconds, and the number of toasts created so far. *)
Record screen := {
  document_head : list style_element;
  styles_elsewhere : list style_element;
  document_body : list (nat * toast_element);
  timers : list (Z * callback);
  created : nat
}.

Definition toast_css : string := "
      .toast {
        position: fixed;
        bottom: 20px;
        right: 20px;
        padding: 16px 20px;
        border-radius: 4px;
        background-color: #333;
        color: white;
        z-index: 10000;
        animation: slideIn 0.3s ease-in-out;
      }
      .toast-info { background-color: #2196F3; }
      .toast-success { background-color: #4CAF50; }
      .toast-warning { background-color: #ff9800; }
      .toast-error { background-color: #f44336; }
      @keyframes slideIn {
        from {
          transform: translateX(400px);
          opacity: 0;
        }
        to {
          transform: translateX(0);
          opacity: 1;
        }
      }
    ".

Definition toast_style : style_element :=
  {| data_toast := Some "true"; css := toast_css |}.

(** The element matches [style[data-toast]]. *)
Definition is_toast_style (st : style_element) : bool :=
  match data_toast st with
  | Some _ => true
  | None => false
  end.

Definition new_toast (message : string) (type : string) : toast_element :=
  {| className := "toast toast-" +:+ type;
     attributes := [("role", "status"); ("aria-live", "polite")];
     textContent := message;
     style_animation := None |}.

(** [document.querySelector('style[data-toast]')] finds an element: the
    query runs over the whole document. *)
Definition has_toast_style (s : screen) : bool :=
  existsb is_toast_style (document_head s ++ styles_elsewhere s).

(** [showToast(message, type = 'info', duration = 3000)] *)
Definition showToast (message : string) (type : option string) (duration : option Z)
    (s : screen) : screen :=
  let toast := created s in
  {| document_head :=
       if has_toast_style s then document_head s
       else document_head s ++ [toast_style];
     styles_elsewhere := styles_elsewhere s;
     document_body := document_body s ++ [(toast, new_toast message (default "info" type))];
     timers := timers s ++ [(default 3000 duration, FadeOut toast)];
     created := S toast |}.

Definition fading (el : toast_element) : toast_element :=
  {| className := className el;
     attributes := attributes el;
     textContent := textContent el;
     style_animation := Some "slideIn 0.3s ease-in-out reverse" |}.

(** The body of a timer callback. The outer one reverses the animation
    of its toast and sets the inner one to run 300 ms later; the inner
    one is [toast.remove()], which does nothing to a toast that is no
    longer in the document. *)
Definition run_callback (cb : callback) (s : screen) : screen :=
  match cb with
  | FadeOut toast =>
      {| document_head := document_head s;
         styles_elsewhere := styles_elsewhere s;
         document_body :=
           map (fun child => if Nat.eqb (fst child) toast
                             then (fst child, fading (snd child)) else child)
               (document_body s);
         timers := timers s ++ [(300, Detach toast)];
         created := created s |}
  | Detach toast =>
      {| document_head := document_head s;
         styles_elsewhere := styles_elsewhere s;
         document_body :=
           List.filter (fun child => negb (Nat.eqb (fst child) toast)) (document_body s);
         timers := timers s;
         created := created s |}
  end.

(** The browser runs the timer at position [k] of the pending ones. *)
Definition fire (k : nat) (s : screen) : screen :=
  match timers s !! k with
  | Some (_, cb) =>
      run_callback cb
        {| document_head := document_head s;
           styles_elsewhere := styles_elsewhere s;
           document_body := document_body s;
           timers := delete k (timers s);
           created := created s |}
  | None => s
  end.

(** What happens to the screen: a call of [showToast], or a timer
    running. *)
Inductive action :=
| Show (message : string) (type : option string) (duration : option Z)
| Fire (k : nat).

Definition step (s : screen) (a : action) : screen :=
  match a with
  | Show message type duration => showToast message type duration s
  | Fire k => fire k s
  end.

Definition run (actions : list action) (s : screen) : screen :=
  fold_left step actions s.

Definition is_show (a : action) : bool :=
  match a with
  | Show _ _ _ => true
  | Fire _ => false
  end.

(** The toast a callback was created for. *)
Definition target (cb : callback) : nat :=
  match cb with
  | FadeOut toast | Detach toast => toast
  end.

(** The timer was set for the toast. *)
Definition waits_for (toast : nat) (timer : Z * callback) : bool :=
  Nat.eqb (target (snd timer)) toast.

(** Every toast on the screen has a timer pending for it. *)
Definition all_timed (s : screen) : bool :=
  forallb (fun child => existsb (waits_for (fst child)) (timers s)) (document_body s).

(** The numbers of the toasts on the screen have been handed out. *)
Definition numbered (s : screen) : bool :=
  forallb (fun child => Nat.ltb (fst child) (created s)) (document_body s).

(** A screen with two toasts, the older one fading already. *)
Definition busy_screen : screen :=
  {| document_head := [{| data_toast := None; css := "body { margin: 0 }" |}; toast_style];
     styles_elsewhere := [];
     document_body := [(3%nat, fading (new_toast "Saved" "success"));
                       (4%nat, new_toast "Offline" "warning")];
     timers := [(5000, FadeOut 4); (300, Detach 3)];
     created := 5 |}.

(** A page that ships its own toast style inside the body and has shown
    no toast yet. *)
Definition themed_screen : screen :=
  {| document_head := [{| data_toast := None; css := "body { margin: 0 }" |}];
     styles_elsewhere := [{| data_toast := Some "custom"; css := ".toast { color: red }" |}];
     document_body := [];
     timers := [];
     created := 0 |}.

End Toast.

(** * Properties *)

(** ** JSON: what is written is read back *)

Module JSONFacts.

Lemma size_array x rest :
  size (JArr (x :: rest)) = S (size x + elements_size rest).
Proof. reflexivity. Qed.

Lemma size_object key x rest :
  size (JObj ((key, x) :: rest)) = S (size x + members_size rest).
Proof. reflexivity. Qed.

Lemma emit_array x rest k :
  emit (JArr (x :: rest)) k = String "[" (emit x (emit_elements rest k)).
Proof.
  cbn [emit]. f_equal. f_equal. induction rest as [|y l IH]; cbn; congruence.
Qed.

Lemma emit_object key x rest k :
  emit (JObj ((key, x) :: rest)) k =
  String "{" (emit_quoted key (String ":" (emit x (emit_members rest k)))).
Proof.
  cbn [emit]. do 4 f_equal.
  induction rest as [|[k' y] l IH]; cbn; congruence.
Qed.

(** Induction on values, with the hypothesis for every item of an array
    and every member of an object. *)
Lemma json_induction (P : json -> Prop) :
  P JNull -> (forall b, P (JBool b)) -> (forall n, P (JNum n)) ->
  (forall s, P (JStr s)) ->
  (forall items, Forall P items -> P (JArr items)) ->
  (forall members, Forall (fun m => P (snd m)) members -> P (JObj members)) ->
  forall v, P v.
Proof.
  intros Hnull Hbool Hnum Hstr Harr Hobj.
  fix IH 1. intros [ | b | n | s | items | members ].
  - exact Hnull.
  - apply Hbool.
  - apply Hnum.
  - apply Hstr.
  - apply Harr. induction items as [|x l IHl]; constructor; [apply IH | exact IHl].
  - apply Hobj. induction members as [|[k x] l IHl]; constructor;
      [apply IH | exact IHl].
Qed.


(** *** Numbers *)

Lemma digit_emit_head u k :
  u <> Decimal.Nil ->
  exists c r, emit_digits u k = String c r /\
              (exists d, digit c = Some d) /\ eqc c "-" = false.
Proof.
  destruct u; intros Hu; try congruence; cbn [emit_digits];
    eexists _, _; (split; [reflexivity|]); split; eauto.
Qed.

Lemma read_digits_emit u k :
  match k with EmptyString => True | String c _ => digit c = None end ->
  read_digits (emit_digits u k) = (u, k).
Proof.
  intros Hk. induction u; cbn [emit_digits read_digits];
    try (cbn; rewrite IHu; reflexivity).
  destruct k as [|c r]; [reflexivity|]. cbn [read_digits]. now rewrite Hk.
Qed.

Lemma nzhead_not_zero u v : Decimal.nzhead u <> Decimal.D0 v.
Proof. induction u; cbn; congruence. Qed.

Lemma unorm_zero_head u v : Decimal.unorm u = Decimal.D0 v -> v = Decimal.Nil.
Proof.
  unfold Decimal.unorm. destruct (Decimal.nzhead u) eqn:E; intros H;
    try discriminate.
  - now injection H as <-.
  - exfalso. exact (nzhead_not_zero _ _ E).
Qed.

Lemma canonical_to_uint n : canonical (N.to_uint n) = true.
Proof.
  assert (Hn : Decimal.unorm (N.to_uint n) = N.to_uint n).
  { rewrite <- (DecimalN.Unsigned.to_of (N.to_uint n)).
    now rewrite DecimalN.Unsigned.of_to. }
  destruct (N.to_uint n) as [|u| | | | | | | | | ] eqn:E; try reflexivity.
  - discriminate Hn.
  - rewrite DecimalFacts.unorm_D0 in Hn.
    now rewrite (unorm_zero_head _ _ Hn).
Qed.

Lemma parse_nat_emit n k :
  ends_number k ->
  parse_nat (emit_digits (N.to_uint n) k) = Parsed n k.
Proof.
  intros Hk. unfold parse_nat. rewrite read_digits_emit.
  - rewrite canonical_to_uint.
    replace (starts_fraction_or_exponent k) with false.
    + now rewrite DecimalN.Unsigned.of_to.
    + destruct k; [reflexivity|]. cbn. now destruct Hk as [_ ->].
  - destruct k; [exact I|]. apply Hk.
Qed.

Lemma to_uint_nonnil n : N.to_uint n <> Decimal.Nil.
Proof.
  destruct n; [discriminate|]. apply DecimalPos.Unsigned.to_uint_nonnil.
Qed.

Lemma parse_number_emit z k :
  ends_number k -> parse_number (emit_int z k) = Parsed z k.
Proof.
  intros Hk. unfold emit_int. destruct (Z.ltb_spec z 0) as [Hneg|Hpos].
  - cbn [parse_number]. replace (eqc "-" "-") with true by reflexivity.
    rewrite parse_nat_emit by exact Hk. cbn [JSON.bind]. f_equal. lia.
  - destruct (digit_emit_head (N.to_uint (Z.to_N z)) k (to_uint_nonnil _))
      as (c & r & E & _ & Hc).
    unfold parse_number. rewrite E, Hc, <- E.
    rewrite parse_nat_emit by exact Hk. cbn [JSON.bind]. f_equal. lia.
Qed.

(** *** Strings *)

Lemma parse_chars_emit_char c k :
  parse_chars (emit_char c k) = push c (parse_chars k).
Proof.
  destruct c as [[] [] [] [] [] [] [] []]; reflexivity.
Qed.

Lemma parse_chars_emit s k :
  parse_chars (emit_chars s (String dquote k)) = Parsed s k.
Proof.
  induction s as [|c s IH]; cbn [emit_chars].
  - reflexivity.
  - now rewrite parse_chars_emit_char, IH.
Qed.

(** *** Values *)

Lemma ends_number_elements l k : ends_number (emit_elements l k).
Proof. destruct l; cbn; auto. Qed.

Lemma ends_number_members l k : ends_number (emit_members l k).
Proof. destruct l as [|[key y] l]; cbn; auto. Qed.

Lemma number_start_facts c :
  is_number_start c = true ->
  is_ws c = false /\ eqc c "n" = false /\ eqc c "t" = false /\
  eqc c "f" = false /\ eqc c dquote = false /\ eqc c "[" = false /\
  eqc c "{" = false /\ eqc c "]" = false /\ eqc c "}" = false.
Proof.
  destruct c as [[] [] [] [] [] [] [] []]; cbn; intros H;
    try discriminate H; repeat split.
Qed.

Lemma emit_int_head n k :
  exists c r, emit_int n k = String c r /\ is_number_start c = true.
Proof.
  unfold emit_int. destruct (n <? 0).
  - eexists _, _. split; reflexivity.
  - destruct (digit_emit_head (N.to_uint (Z.to_N n)) k (to_uint_nonnil _))
      as (c & r & -> & [d Hd] & _).
    exists c, r. split; [reflexivity|]. unfold is_number_start.
    rewrite Hd. apply orb_true_r.
Qed.

(** The text of a value starts with a character that is neither
    whitespace nor a closing bracket. *)
Lemma emit_head v k :
  exists c r, emit v k = String c r /\
              is_ws c = false /\ eqc c "]" = false /\ eqc c "}" = false.
Proof.
  destruct v as [ | [] | n | s | [|x l] | [|[key x] l] ];
    try (eexists _, _; split; [reflexivity|]; repeat split).
  destruct (emit_int_head n k) as (c & r & E & Hc).
  exists c, r. split; [exact E|]. apply number_start_facts in Hc. tauto.
Qed.

Lemma skip_ws_emit v k : skip_ws (emit v k) = emit v k.
Proof.
  destruct (emit_head v k) as (c & r & -> & Hws & _).
  cbn [skip_ws]. now rewrite Hws.
Qed.

Lemma accept_bracket_emit v k : accept "]" (emit v k) = None.
Proof.
  unfold accept. rewrite skip_ws_emit.
  destruct (emit_head v k) as (c & r & -> & _ & -> & _). reflexivity.
Qed.

(** Decides the comparisons of known characters in the goal. *)
Ltac known_chars :=
  cbv beta iota;
  repeat match goal with
         | |- context [eqc ?a ?b] =>
             let v := eval vm_compute in (eqc a b) in
             match v with
             | true => change (eqc a b) with true
             | false => change (eqc a b) with false
             end
         end;
  cbv beta iota.

Lemma accept_brace_quoted key k : accept "}" (emit_quoted key k) = None.
Proof. reflexivity. Qed.

Lemma parse_member_emit pv key x k :
  pv (emit x k) = Parsed x k ->
  parse_member pv (emit_quoted key (String ":" (emit x k))) = Parsed (key, x) k.
Proof.
  intros Hpv. unfold parse_member, emit_quoted.
  change (skip_ws (String dquote ?r)) with (String dquote r).
  known_chars.
  rewrite parse_chars_emit. cbn [JSON.bind].
  change (skip_ws (String ":" ?r)) with (String ":" r).
  known_chars.
  now rewrite Hpv.
Qed.

Lemma parse_elements_emit k rest :
  Forall reads_back rest ->
  forall fuel acc, (elements_size rest <= fuel)%nat ->
    parse_elements fuel acc (emit_elements rest k) = Parsed (JArr (rev acc ++ rest)) k.
Proof.
  induction 1 as [|y l Hy Hl IH]; intros [|fuel] acc Hfuel; cbn in Hfuel; try lia.
  - cbn. now rewrite app_nil_r.
  - cbn [emit_elements parse_elements].
    change (skip_ws (String "," ?r)) with (String "," r).
    known_chars.
    rewrite Hy by (lia || apply ends_number_elements). cbn [JSON.bind].
    rewrite IH by lia. cbn [rev]. now rewrite <- app_assoc.
Qed.

Lemma parse_members_emit k rest :
  Forall (fun m => reads_back (snd m)) rest ->
  forall fuel acc, (members_size rest <= fuel)%nat ->
    parse_members fuel acc (emit_members rest k) = Parsed (JObj (rev acc ++ rest)) k.
Proof.
  induction 1 as [|[key y] l Hy Hl IH]; intros [|fuel] acc Hfuel; cbn in Hfuel; try lia.
  - cbn. now rewrite app_nil_r.
  - cbn [snd] in Hy. cbn [emit_members parse_members].
    change (skip_ws (String "," ?r)) with (String "," r).
    known_chars.
    rewrite parse_member_emit
      by (apply Hy; [lia | apply ends_number_members]).
    cbn [JSON.bind]. rewrite IH by lia. cbn [rev]. now rewrite <- app_assoc.
Qed.

Lemma size_positive v : (1 <= size v)%nat.
Proof.
  destruct v as [ | b | n | s | [|x l] | [|[key x] l] ]; cbn; lia.
Qed.

Lemma parse_value_emit v : reads_back v.
Proof.
  induction v as [ | b | n | s | items IH | members IH ] using json_induction;
    intros fuel k Hfuel Hk;
    (destruct fuel as [|fuel];
     [match type of Hfuel with (size ?w <= _)%nat =>
        pose proof (size_positive w); lia end|]).
  - reflexivity.
  - destruct b; reflexivity.
  - cbn [parse_value]. rewrite (skip_ws_emit (JNum n)). cbn [emit].
    destruct (emit_int_head n k) as (c & r & E & Hc).
    rewrite E. destruct (number_start_facts c Hc)
      as (_ & -> & -> & -> & -> & -> & -> & _).
    rewrite Hc, <- E, parse_number_emit by exact Hk. reflexivity.
  - cbn [parse_value emit]. unfold emit_quoted.
    change (skip_ws (String dquote ?r)) with (String dquote r).
    known_chars.
    now rewrite parse_chars_emit.
  - destruct items as [|x rest]; [reflexivity|].
    rewrite emit_array. rewrite size_array in Hfuel.
    inversion IH as [|? ? Hx Hrest]; subst.
    cbn [parse_value]. change (skip_ws (String "[" ?r)) with (String "[" r).
    known_chars.
    rewrite accept_bracket_emit.
    rewrite Hx by (lia || apply ends_number_elements). cbn [JSON.bind].
    now rewrite parse_elements_emit by (assumption || lia).
  - destruct members as [|[key x] rest]; [reflexivity|].
    rewrite emit_object. rewrite size_object in Hfuel.
    inversion IH as [|? ? Hx Hrest]; subst. cbn [snd] in Hx.
    cbn [parse_value]. change (skip_ws (String "{" ?r)) with (String "{" r).
    known_chars.
    rewrite accept_brace_quoted.
    rewrite parse_member_emit
      by (apply Hx; [lia | apply ends_number_members]).
    cbn [JSON.bind].
    now rewrite parse_members_emit by (assumption || lia).
Qed.

(** *** The fuel of [parse] suffices *)

Lemma emit_digits_length u k :
  String.length (emit_digits u k) = (Decimal.nb_digits u + String.length k)%nat.
Proof. induction u; cbn; congruence. Qed.

Lemma emit_int_length n k :
  (1 + String.length k <= String.length (emit_int n k))%nat.
Proof.
  destruct (emit_int_head n k) as (c & r & E & _).
  assert (H : (String.length k <= String.length r)%nat).
  { revert E. unfold emit_int. destruct (n <? 0); intros E.
    - injection E as _ <-. rewrite emit_digits_length. lia.
    - apply (f_equal String.length) in E. rewrite emit_digits_length in E.
      cbn in E.
      assert (Decimal.nb_digits (N.to_uint (Z.to_N n)) <> 0)%nat.
      { intros H0. apply DecimalFacts.nb_digits_0 in H0.
        exact (to_uint_nonnil _ H0). }
      lia. }
  rewrite E. cbn. lia.
Qed.

Lemma emit_char_length c k :
  (String.length k < String.length (emit_char c k))%nat.
Proof.
  unfold emit_char.
  repeat match goal with
         | |- context [if ?b then _ else _] => destruct b
         end; cbn; lia.
Qed.

Lemma emit_chars_length s k :
  (String.length k <= String.length (emit_chars s k))%nat.
Proof.
  induction s as [|c s IH]; cbn [emit_chars]; [lia|].
  pose proof (emit_char_length c (emit_chars s k)). lia.
Qed.

Lemma emit_quoted_length s k :
  (2 + String.length k <= String.length (emit_quoted s k))%nat.
Proof.
  unfold emit_quoted. cbn [String.length].
  pose proof (emit_chars_length s (String dquote k)) as H.
  cbn [String.length] in H. lia.
Qed.

Lemma emit_elements_length k rest :
  Forall fits rest ->
  (elements_size rest + String.length k <= String.length (emit_elements rest k))%nat.
Proof.
  induction 1 as [|y l Hy Hl IH]; cbn [emit_elements elements_size String.length].
  - lia.
  - specialize (Hy (emit_elements l k)). lia.
Qed.

Lemma emit_members_length k rest :
  Forall (fun m => fits (snd m)) rest ->
  (members_size rest + String.length k <= String.length (emit_members rest k))%nat.
Proof.
  induction 1 as [|[key y] l Hy Hl IH]; cbn [emit_members members_size String.length].
  - lia.
  - cbn [snd] in Hy. specialize (Hy (emit_members l k)).
    pose proof (emit_quoted_length key (String ":" (emit y (emit_members l k)))) as Hq.
    cbn [String.length] in Hq. lia.
Qed.

Lemma emit_length v : fits v.
Proof.
  induction v as [ | b | n | s | items IH | members IH ] using json_induction;
    intros k.
  - cbv [size emit String.append]. cbn [String.length]. lia.
  - destruct b; cbv [size emit String.append]; cbn [String.length]; lia.
  - pose proof (emit_int_length n k). cbn [size emit]. lia.
  - pose proof (emit_quoted_length s k). cbn [size emit]. lia.
  - destruct items as [|x rest];
      [cbv [size emit String.append]; cbn [String.length]; lia|].
    rewrite emit_array, size_array. inversion IH as [|? ? Hx Hrest]; subst.
    pose proof (emit_elements_length k rest Hrest).
    specialize (Hx (emit_elements rest k)). cbn [String.length]. lia.
  - destruct members as [|[key x] rest];
      [cbv [size emit String.append]; cbn [String.length]; lia|].
    rewrite emit_object, size_object. inversion IH as [|? ? Hx Hrest]; subst.
    cbn [snd] in Hx.
    pose proof (emit_members_length k rest Hrest).
    specialize (Hx (emit_members rest k)).
    pose proof (emit_quoted_length key (String ":" (emit x (emit_members rest k)))) as Hq.
    cbn [String.length] in *. lia.
Qed.

(** [JSON.parse(JSON.stringify(v))] is [v]. *)
Lemma parse_stringify v : JSON.parse (JSON.stringify v) = Value v.
Proof.
  unfold JSON.parse, JSON.stringify.
  rewrite parse_value_emit; [reflexivity| |exact I].
  pose proof (emit_length v EmptyString). cbn [String.length] in *. lia.
Qed.

(** *** [parse] never runs out of fuel *)

Lemma shrinks_keeps {A} s (res : result A) : shrinks s res -> keeps s res.
Proof. destruct res; cbn; auto; lia. Qed.

Lemma shrinks_bind {A B} s (m : result A) (f : A -> string -> result B) :
  shrinks s m ->
  (forall a r, (String.length r < String.length s)%nat -> keeps r (f a r)) ->
  shrinks s (JSON.bind m f).
Proof.
  destruct m as [a r| | |]; cbn; auto. intros Hr Hf.
  specialize (Hf a r Hr). destruct (f a r); cbn in *; auto; lia.
Qed.

Lemma shrinks_longer {A} s s' (res : result A) :
  (String.length s <= String.length s')%nat -> shrinks s res -> shrinks s' res.
Proof. destruct res; cbn; auto; lia. Qed.

Lemma keeps_shorter {A} c s (res : result A) :
  keeps s res -> shrinks (String c s) res.
Proof. destruct res; cbn; auto; lia. Qed.

Lemma skip_ws_length s : (String.length (skip_ws s) <= String.length s)%nat.
Proof.
  induction s as [|c s IH]; cbn [skip_ws]; [lia|].
  destruct (is_ws c); cbn [String.length] in *; lia.
Qed.

Lemma accept_length c s r :
  accept c s = Some r -> (String.length r < String.length s)%nat.
Proof.
  unfold accept. pose proof (skip_ws_length s) as Hs.
  destruct (skip_ws s) as [|d r']; [discriminate|].
  destruct (eqc d c); [|discriminate]. intros [= <-].
  cbn [String.length] in Hs. lia.
Qed.

Lemma expect_keeps {A} lit (a : A) s : keeps s (expect lit a s).
Proof.
  revert s. induction lit as [|c lit IH]; intros s; cbn [expect].
  - cbn. lia.
  - destruct s as [|d r]; [exact I|]. destruct (eqc c d); [|exact I].
    specialize (IH r). destruct (expect lit a r); cbn in *; auto; lia.
Qed.

Lemma read_digits_length s :
  (String.length (snd (read_digits s)) + Decimal.nb_digits (fst (read_digits s))
   = String.length s)%nat.
Proof.
  induction s as [|c s IH]; cbn [read_digits]; [reflexivity|].
  destruct (digit c) as [d|] eqn:Hd; [|cbn; lia].
  destruct (read_digits s) as [u rest]. cbn [fst snd String.length] in *.
  assert (Hnb : Decimal.nb_digits (d u) = S (Decimal.nb_digits u)).
  { revert Hd. unfold digit.
    repeat match goal with
           | |- context [if ?b then _ else _] => destruct b
           end; intros [= <-] || discriminate; reflexivity. }
  lia.
Qed.

Lemma parse_nat_shrinks s : shrinks s (parse_nat s).
Proof.
  unfold parse_nat. pose proof (read_digits_length s) as Hlen.
  destruct (read_digits s) as [u rest]. cbn [fst snd] in Hlen.
  destruct (canonical u) eqn:Hu; [|exact I].
  destruct (starts_fraction_or_exponent rest); [exact I|]. cbn.
  destruct u; [discriminate Hu|..]; cbn [Decimal.nb_digits] in Hlen; lia.
Qed.

Lemma parse_number_shrinks s : shrinks s (parse_number s).
Proof.
  unfold parse_number. destruct s as [|c r]; [exact I|].
  destruct (eqc c "-").
  - apply shrinks_bind.
    + apply (shrinks_longer r); [cbn; lia | apply parse_nat_shrinks].
    + intros n rest _. cbn. lia.
  - apply shrinks_bind; [apply parse_nat_shrinks|].
    intros n rest _. cbn. lia.
Qed.

Lemma push_shrinks c s s' res :
  (String.length s <= String.length s')%nat ->
  shrinks s res -> shrinks s' (push c res).
Proof. destruct res; cbn; auto; lia. Qed.

Lemma parse_chars_shrinks_upto n :
  forall s, (String.length s <= n)%nat -> shrinks s (parse_chars s).
Proof.
  induction n as [|n IH]; intros [|c r] Hn; cbn [String.length] in Hn;
    try lia; try exact I.
  cbn [parse_chars]. destruct (eqc c dquote); [cbn; lia|].
  destruct (eqc c bslash).
  - destruct r as [|e r']; [exact I|]. cbn [String.length] in Hn.
    destruct (eqc e "u").
    + destruct r' as [|h1 [|h2 [|h3 [|h4 r'']]]]; try exact I.
      cbn [String.length] in Hn.
      destruct (hex_value h1), (hex_value h2), (hex_value h3), (hex_value h4);
        try exact I.
      match goal with |- context [if ?b then _ else _] => destruct b end;
        [|exact I].
      apply (push_shrinks _ r''); [cbn; lia | apply IH; lia].
    + destruct (simple_escape e); [|exact I].
      apply (push_shrinks _ r'); [cbn; lia | apply IH; lia].
  - destruct (code c <? 32)%N; [exact I|].
    apply (push_shrinks _ r); [cbn; lia | apply IH; lia].
Qed.

Lemma parse_chars_shrinks s : shrinks s (parse_chars s).
Proof. apply (parse_chars_shrinks_upto (String.length s)). lia. Qed.

Lemma parse_member_shrinks pv s :
  (forall x, (String.length x < String.length s)%nat -> shrinks x (pv x)) ->
  shrinks s (parse_member pv s).
Proof.
  intros Hpv. unfold parse_member. pose proof (skip_ws_length s) as Hs.
  destruct (skip_ws s) as [|c r]; [exact I|]. cbn [String.length] in Hs.
  destruct (eqc c dquote); [|exact I].
  apply shrinks_bind.
  - apply (shrinks_longer r); [lia | apply parse_chars_shrinks].
  - intros key r1 Hr1. pose proof (skip_ws_length r1) as Hs1.
    destruct (skip_ws r1) as [|c1 r2]; [exact I|]. cbn [String.length] in Hs1.
    destruct (eqc c1 ":"); [|exact I].
    apply shrinks_keeps, shrinks_bind.
    + apply (shrinks_longer r2); [lia | apply Hpv; lia].
    + intros v r3 _. cbn. lia.
Qed.

Lemma parse_shrinks fuel :
  (forall s, (String.length s < fuel)%nat -> shrinks s (parse_value fuel s)) /\
  (forall acc s, (String.length s < fuel)%nat ->
                 shrinks s (parse_elements fuel acc s)) /\
  (forall acc s, (String.length s < fuel)%nat ->
                 shrinks s (parse_members fuel acc s)).
Proof.
  induction fuel as [|fuel (IHv & IHe & IHm)]; [repeat split; intros; lia|].
  assert (Hmember : forall r s, (String.length r < String.length s)%nat ->
                      (String.length s < S fuel)%nat ->
                      shrinks r (parse_member (parse_value fuel) r)).
  { intros r s Hr Hs. apply parse_member_shrinks. intros x Hx. apply IHv. lia. }
  repeat split.
  - intros s Hs. cbn [parse_value]. pose proof (skip_ws_length s) as Hws.
    destruct (skip_ws s) as [|c r]; [exact I|]. cbn [String.length] in Hws.
    destruct (eqc c "n");
      [apply (shrinks_longer (String c r)); [cbn; lia|];
       apply keeps_shorter, expect_keeps|].
    destruct (eqc c "t");
      [apply (shrinks_longer (String c r)); [cbn; lia|];
       apply keeps_shorter, expect_keeps|].
    destruct (eqc c "f");
      [apply (shrinks_longer (String c r)); [cbn; lia|];
       apply keeps_shorter, expect_keeps|].
    destruct (eqc c dquote).
    { apply (shrinks_longer r); [lia|]. apply shrinks_bind.
      - apply parse_chars_shrinks.
      - intros str rest _. cbn. lia. }
    destruct (eqc c "[").
    { destruct (accept "]" r) as [r'|] eqn:Hclose.
      - apply accept_length in Hclose. cbn. lia.
      - apply (shrinks_longer r); [lia|]. apply shrinks_bind.
        + apply IHv. lia.
        + intros v r' Hr'. apply shrinks_keeps, IHe. lia. }
    destruct (eqc c "{").
    { destruct (accept "}" r) as [r'|] eqn:Hclose.
      - apply accept_length in Hclose. cbn. lia.
      - apply (shrinks_longer r); [lia|]. apply shrinks_bind.
        + apply (Hmember r s); lia.
        + intros m r' Hr'. apply shrinks_keeps, IHm. lia. }
    destruct (is_number_start c); [|exact I].
    apply (shrinks_longer (String c r)); [cbn; lia|]. apply shrinks_bind.
    + apply parse_number_shrinks.
    + intros n rest _. cbn. lia.
  - intros acc s Hs. cbn [parse_elements]. pose proof (skip_ws_length s) as Hws.
    destruct (skip_ws s) as [|c r]; [exact I|]. cbn [String.length] in Hws.
    destruct (eqc c ",").
    + apply (shrinks_longer r); [lia|]. apply shrinks_bind.
      * apply IHv. lia.
      * intros v r' Hr'. apply shrinks_keeps, IHe. lia.
    + destruct (eqc c "]"); [cbn; lia | exact I].
  - intros acc s Hs. cbn [parse_members]. pose proof (skip_ws_length s) as Hws.
    destruct (skip_ws s) as [|c r]; [exact I|]. cbn [String.length] in Hws.
    destruct (eqc c ",").
    + apply (shrinks_longer r); [lia|]. apply shrinks_bind.
      * apply (Hmember r s); lia.
      * intros m r' Hr'. apply shrinks_keeps, IHm. lia.
    + destruct (eqc c "}"); [cbn; lia | exact I].
Qed.

(** The fuel [parse] hands to [parse_value] is never used up: the
    answer [OutsideModel] comes from an unsupported construct alone. *)
Lemma parse_never_out_of_fuel text :
  parse_value (S (String.length text)) text <> OutOfFuel.
Proof.
  destruct (parse_shrinks (S (String.length text))) as [H _].
  specialize (H text (Nat.lt_succ_diag_r _)). intros E. now rewrite E in H.
Qed.

End JSONFacts.

(** ** The page monad: what a call leaves alone *)

Section Frame.
Context {B : Type} (f : page -> B).

Lemma preserves_ret {A} (a : A) : preserves f (ret a).
Proof. intros p. reflexivity. Qed.

Lemma preserves_throw {A} e : preserves f (@throw A e).
Proof. intros p. reflexivity. Qed.

Lemma preserves_not_modelled {A} : preserves f (@not_modelled A).
Proof. intros p. reflexivity. Qed.

Lemma preserves_bind {A C} (m : M A) (k : A -> M C) :
  preserves f m -> (forall a, preserves f (k a)) -> preserves f (bind m k).
Proof.
  intros Hm Hk p. unfold bind. specialize (Hm p).
  destruct (m p) as [[a| e |] p']; cbn in *; [|assumption..].
  now rewrite Hk.
Qed.

Lemma preserves_try_catch {A} (m : M A) h :
  preserves f m -> (forall e, preserves f (h e)) -> preserves f (try_catch m h).
Proof.
  intros Hm Hh p. unfold try_catch. specialize (Hm p).
  destruct (m p) as [[a| e |] p']; cbn in *; [assumption| |assumption].
  now rewrite Hh.
Qed.

Lemma preserves_getItem key : preserves f (getItem key).
Proof. intros p. reflexivity. Qed.

Lemma preserves_querySelector sel : preserves f (querySelector sel).
Proof. intros p. reflexivity. Qed.

Lemma preserves_of_option {A} e (o : option A) : preserves f (of_option e o).
Proof. destruct o; intros p; reflexivity. Qed.

Lemma preserves_JSON_parse s : preserves f (JSON_parse s).
Proof. unfold JSON_parse. destruct (JSON.parse s); intros p; reflexivity. Qed.

Lemma preserves_property data name : preserves f (property data name).
Proof. destruct data; intros p; reflexivity. Qed.

Lemma preserves_greater_than now x : preserves f (greater_than now x).
Proof.
  unfold greater_than. destruct (JS.number_gt now x); intros p; reflexivity.
Qed.

Lemma preserves_text r : preserves f (text r).
Proof. unfold text. destruct (content r); intros p; reflexivity. Qed.

End Frame.

Lemma storage_set_innerHTML sel markup :
  preserves localStorage (set_innerHTML sel markup).
Proof.
  intros p. unfold set_innerHTML. now destruct (document p !! sel).
Qed.

Lemma trace_set_innerHTML sel markup : preserves trace (set_innerHTML sel markup).
Proof.
  intros p. unfold set_innerHTML. now destruct (document p !! sel).
Qed.

Lemma storage_emit_event e : preserves localStorage (emit_event e).
Proof. intros p. reflexivity. Qed.

Lemma document_emit_event e : preserves document (emit_event e).
Proof. intros p. reflexivity. Qed.

Lemma document_setItem key value : preserves document (setItem key value).
Proof. intros p. reflexivity. Qed.

Lemma document_removeItem key : preserves document (removeItem key).
Proof. intros p. reflexivity. Qed.

Create HintDb frame.
#[local] Hint Resolve preserves_ret preserves_throw preserves_not_modelled
  preserves_getItem preserves_querySelector preserves_of_option
  preserves_JSON_parse preserves_property preserves_greater_than
  preserves_text storage_set_innerHTML trace_set_innerHTML
  storage_emit_event document_emit_event document_setItem
  document_removeItem : frame.

(** Splits a monadic program along its binds and case distinctions and
    closes the leaves with the [frame] hints. *)
Ltac frame :=
  repeat first
    [ progress eauto with frame
    | apply preserves_bind; [|intros ?]
    | apply preserves_try_catch; [|intros ?]
    | match goal with
      | |- preserves _ (match ?x with _ => _ end) => destruct x
      | |- preserves _ (if ?b then _ else _) => destruct b
      end ].

Lemma storage_isLoggedIn : preserves localStorage isLoggedIn.
Proof. unfold isLoggedIn. frame. Qed.

Lemma storage_getUserData : preserves localStorage getUserData.
Proof. unfold getUserData. frame. Qed.

Lemma storage_updateAuthUI : preserves localStorage updateAuthUI.
Proof.
  pose proof storage_isLoggedIn. pose proof storage_getUserData.
  unfold updateAuthUI. frame.
Qed.

Lemma trace_updateAuthUI : preserves trace updateAuthUI.
Proof.
  unfold updateAuthUI, isLoggedIn, getUserData. frame.
Qed.

(** [updateAuthUI] is the assignment of [auth_markup] to the container,
    when there is one. *)
Lemma updateAuthUI_unfold p :
  updateAuthUI p =
  match document p !! authSelector with
  | None => (Return tt, p)
  | Some _ =>
      match auth_markup (localStorage p) with
      | Return markup =>
          (Return tt, with_document (insert authSelector markup) p)
      | Throw e => (Throw e, p)
      | NotModelled => (NotModelled, p)
      end
  end.
Proof.
  unfold updateAuthUI, auth_markup, flag_is_true, stored_user, display_name.
  unfold bind at 1. unfold querySelector at 1.
  destruct (document p !! authSelector) as [old|] eqn:Hc; [|reflexivity].
  unfold bind at 1. unfold isLoggedIn, bind, getItem, ret.
  destruct (match localStorage p !! storageKey CONFIG with
            | Some v => String.eqb v "true"
            | None => false
            end).
  - unfold getUserData, bind, getItem, JSON_parse.
    destruct (localStorage p !! userDataKey CONFIG) as [[|c stored]|];
      [| destruct (JSON.parse (String c stored)) |];
      cbn [ret throw not_modelled]; try reflexivity;
      match goal with
      | |- context [of_option _ ?o] => destruct o
      end; cbn [of_option ret throw]; try reflexivity;
      unfold set_innerHTML; now rewrite Hc.
  - unfold set_innerHTML. now rewrite Hc.
Qed.

(** ** Auth rendering *)

(** C10: with no element matching the auth-container selector,
    [updateAuthUI] returns normally and leaves the whole page (storage,
    markup and trace) as it was, whatever the login flag and the user
    record hold. *)
Theorem updateAuthUI_without_container p :
  document p !! authSelector = None -> updateAuthUI p = (Return tt, p).
Proof. intros H. rewrite updateAuthUI_unfold. now rewrite H. Qed.

Lemma updateAuthUI_without_container_witness :
  updateAuthUI page_without_container = (Return tt, page_without_container).
Proof. apply updateAuthUI_without_container. reflexivity. Defined.

Lemma with_document_insert_twice sel markup p :
  with_document (insert sel markup) (with_document (insert sel markup) p) =
  with_document (insert sel markup) p.
Proof.
  destruct p as [st doc tr]. unfold with_document. cbn. f_equal.
  apply insert_insert_eq.
Qed.

(** C9: [updateAuthUI] is idempotent. From any page, a second call right
    after the first ends the same way and leaves the page exactly as the
    first call left it; when the first call renders (a container exists
    and the markup for the stored state is [markup]), the container holds
    [markup] after the first call and after the second. *)
Theorem updateAuthUI_idempotent p :
  let first := updateAuthUI p in
  let second := updateAuthUI (snd first) in
  second = first /\
  (forall markup,
     auth_markup (localStorage p) = Return markup ->
     is_Some (document p !! authSelector) ->
     document (snd first) !! authSelector = Some markup /\
     document (snd second) !! authSelector = Some markup).
Proof.
  cbv zeta.
  assert (Hsame : updateAuthUI (snd (updateAuthUI p)) = updateAuthUI p).
  { rewrite (updateAuthUI_unfold p).
    destruct (document p !! authSelector) as [old|] eqn:Hc.
    - destruct (auth_markup (localStorage p)) as [markup| e |] eqn:Hm; cbn [snd].
      + rewrite updateAuthUI_unfold. cbn [with_document document localStorage].
        rewrite lookup_insert_eq, Hm.
        now rewrite (with_document_insert_twice authSelector markup p).
      + rewrite updateAuthUI_unfold. now rewrite Hc, Hm.
      + rewrite updateAuthUI_unfold. now rewrite Hc, Hm.
    - cbn [snd]. rewrite updateAuthUI_unfold. now rewrite Hc. }
  split; [exact Hsame|].
  intros markup Hm [old Hc]. rewrite Hsame. split; [|idtac];
    rewrite updateAuthUI_unfold, Hc, Hm; cbn; apply lookup_insert_eq.
Qed.

(** C3, as the code has it: when the login flag is ['true'], an auth
    container exists, and the stored user record is a non-empty string
    that is not JSON, [updateAuthUI] throws the [SyntaxError] of
    [JSON.parse]; nothing catches it and the page is left as it was. *)
Theorem updateAuthUI_malformed_record p stored :
  localStorage p !! storageKey CONFIG = Some "true" ->
  localStorage p !! userDataKey CONFIG = Some stored ->
  stored <> EmptyString ->
  JSON.parse stored = NotJSON ->
  is_Some (document p !! authSelector) ->
  updateAuthUI p = (Throw SyntaxError, p).
Proof.
  intros Hflag Hdata Hne Hparse [old Hc].
  rewrite updateAuthUI_unfold, Hc.
  unfold auth_markup, flag_is_true, stored_user. rewrite Hflag, Hdata.
  destruct stored as [|c r]; [congruence|]. now rewrite Hparse.
Qed.

Lemma updateAuthUI_malformed_record_witness :
  updateAuthUI page_with_broken_record = (Throw SyntaxError, page_with_broken_record).
Proof.
  apply (updateAuthUI_malformed_record page_with_broken_record "{oops");
    first [ reflexivity | discriminate | (eexists; reflexivity) ].
Defined.

(** C3 as stated fails twice over: a record that is present but empty is
    not JSON, yet it is never handed to [JSON.parse] (the empty string is
    falsy) and the welcome block is rendered; and with no auth container
    the call returns before it reads storage. *)
Lemma updateAuthUI_unparseable_without_error :
  (localStorage page_with_empty_record !! userDataKey CONFIG = Some EmptyString /\
   JSON.parse EmptyString = NotJSON /\
   flag_is_true (localStorage page_with_empty_record) = true /\
   fst (updateAuthUI page_with_empty_record) = Return tt /\
   document (snd (updateAuthUI page_with_empty_record)) !! authSelector =
     Some (welcomeMarkup "User")) /\
  (localStorage page_without_container !! userDataKey CONFIG = Some "{oops" /\
   JSON.parse "{oops" = NotJSON /\
   flag_is_true (localStorage page_without_container) = true /\
   updateAuthUI page_without_container = (Return tt, page_without_container)).
Proof. repeat split; vm_compute; reflexivity. Qed.

(** ** Login and logout *)

Lemma login_storage userData loginTime p :
  localStorage (snd (login userData loginTime p)) =
  <[userDataKey CONFIG := stored_record userData loginTime]>
    (<[storageKey CONFIG := "true"]> (localStorage p)).
Proof.
  change (login userData loginTime p) with
    (updateAuthUI
       (with_event (Dispatched "user:login" (default (JObj []) userData))
          (with_storage (insert (userDataKey CONFIG) (stored_record userData loginTime))
             (with_storage (insert (storageKey CONFIG) "true") p)))).
  now rewrite storage_updateAuthUI.
Qed.

Lemma logout_storage p :
  localStorage (snd (logout p)) =
  delete (userDataKey CONFIG) (delete (storageKey CONFIG) (localStorage p)).
Proof.
  change (logout p) with
    ((updateAuthUI;; set_location_href "/")
       (with_event (Dispatched "user:logout" JNull)
          (with_storage (delete (userDataKey CONFIG))
             (with_storage (delete (storageKey CONFIG)) p)))).
  assert (H : preserves localStorage (updateAuthUI;; set_location_href "/")).
  { pose proof storage_updateAuthUI. unfold set_location_href. frame. }
  now rewrite H.
Qed.

(** C4: from a page where both auth keys are absent, [login] followed by
    [logout] leaves both keys absent again, and storage as a whole is the
    storage from before the login, whatever [userData] was (also when the
    rendering inside [login] throws). *)
Theorem login_logout_restores_storage userData loginTime p :
  localStorage p !! storageKey CONFIG = None ->
  localStorage p !! userDataKey CONFIG = None ->
  let after := snd (logout (snd (login userData loginTime p))) in
  localStorage after !! storageKey CONFIG = None /\
  localStorage after !! userDataKey CONFIG = None /\
  localStorage after = localStorage p.
Proof.
  intros Hflag Hdata after. subst after.
  rewrite logout_storage, login_storage.
  assert (Hne : storageKey CONFIG <> userDataKey CONFIG) by discriminate.
  assert (Heq : delete (userDataKey CONFIG)
                  (delete (storageKey CONFIG)
                     (<[userDataKey CONFIG := stored_record userData loginTime]>
                        (<[storageKey CONFIG := "true"]> (localStorage p)))) =
                localStorage p).
  { apply map_eq. intros key.
    destruct (decide (key = userDataKey CONFIG)) as [->|H1].
    - now rewrite lookup_delete_eq, Hdata.
    - rewrite lookup_delete_ne by congruence.
      destruct (decide (key = storageKey CONFIG)) as [->|H2].
      + now rewrite lookup_delete_eq, Hflag.
      + rewrite lookup_delete_ne by congruence.
        rewrite !lookup_insert_ne by congruence. reflexivity. }
  rewrite Heq. auto.
Qed.

Lemma login_logout_restores_storage_witness :
  let after :=
    snd (logout (snd (login (Some (JObj [("email", JStr "a@b.com")]))
                            "2024-05-01T10:00:00.000Z" fresh_page))) in
  localStorage after !! storageKey CONFIG = None /\
  localStorage after !! userDataKey CONFIG = None /\
  localStorage after = localStorage fresh_page.
Proof.
  apply (login_logout_restores_storage
           (Some (JObj [("email", JStr "a@b.com")]))
           "2024-05-01T10:00:00.000Z" fresh_page); reflexivity.
Defined.

(** [Full.updateAuthUI] is the assignment of [auth_markup] to the
    container, when there is one. *)
Lemma full_updateAuthUI_unfold reparse p :
  Full.updateAuthUI reparse p =
  match document p !! authSelector with
  | None => (Return tt, p)
  | Some _ =>
      match auth_markup (localStorage p) with
      | Return markup =>
          (Return tt,
           with_event (MarkupSet authSelector markup)
             (with_document
                (fun d => <[authSelector := markup]> (reparse authSelector markup d)) p))
      | Throw e => (Throw e, p)
      | NotModelled => (NotModelled, p)
      end
  end.
Proof.
  unfold Full.updateAuthUI, auth_markup, flag_is_true, stored_user, display_name.
  unfold bind at 1. unfold querySelector at 1.
  destruct (document p !! authSelector) as [old|] eqn:Hc; [|reflexivity].
  unfold bind at 1. unfold isLoggedIn, bind, getItem, ret.
  destruct (match localStorage p !! storageKey CONFIG with
            | Some v => String.eqb v "true"
            | None => false
            end).
  - unfold getUserData, bind, getItem, JSON_parse.
    destruct (localStorage p !! userDataKey CONFIG) as [[|c stored]|];
      [| destruct (JSON.parse (String c stored)) |];
      cbn [ret throw not_modelled]; try reflexivity;
      match goal with
      | |- context [of_option _ ?o] => destruct o
      end; cbn [of_option ret throw]; try reflexivity;
      unfold Full.set_innerHTML; now rewrite Hc.
  - unfold Full.set_innerHTML. now rewrite Hc.
Qed.

Lemma storage_full_updateAuthUI reparse :
  preserves localStorage (Full.updateAuthUI reparse).
Proof.
  intros p. rewrite full_updateAuthUI_unfold.
  destruct (document p !! authSelector); [|reflexivity].
  now destruct (auth_markup (localStorage p)).
Qed.

(** [Full.login] step by step: the first write, the serialisation, the
    second write, and then the event and the rendering. *)
Lemma full_login_run accepts reparse userData loginTime p :
  Full.login accepts reparse userData loginTime p =
  let flag := storageKey CONFIG in
  let data := userDataKey CONFIG in
  if accepts (localStorage p) flag "true" then
    let p1 := with_event (StorageSet flag "true")
                (with_storage (insert flag "true") p) in
    match default (Full.Data (JObj [])) userData with
    | Full.Unserialisable => (Throw TypeError, p1)
    | Full.Data v =>
        let record := stored_record (Some v) loginTime in
        if accepts (localStorage p1) data record then
          Full.updateAuthUI reparse
            (with_event (Dispatched "user:login" v)
               (with_event (StorageSet data record)
                  (with_storage (insert data record) p1)))
        else (Throw QuotaExceededError, p1)
    end
  else (Throw QuotaExceededError, p).
Proof.
  cbv zeta. unfold Full.login. cbv zeta. unfold bind at 1. unfold Full.setItem at 1.
  destruct (accepts (localStorage p) (storageKey CONFIG) "true"); [|reflexivity].
  destruct (default (Full.Data (JObj [])) userData) as [v|]; [|reflexivity].
  unfold bind at 1. cbn [Full.stringify_record ret].
  unfold bind at 1. unfold Full.setItem at 1.
  change (JSON.stringify
            (JObj (JS.define_member "loginTime" (JStr loginTime) (JS.spread v))))
    with (stored_record (Some v) loginTime).
  destruct (accepts _ (userDataKey CONFIG) (stored_record (Some v) loginTime));
    reflexivity.
Qed.

Lemma flag_after_removal storage :
  flag_is_true (delete (userDataKey CONFIG) (delete (storageKey CONFIG) storage))
  = false.
Proof.
  unfold flag_is_true. rewrite lookup_delete_ne by discriminate.
  now rewrite lookup_delete_eq.
Qed.

Lemma full_logout_storage reparse p :
  fst (Full.logout reparse p) = Return tt /\
  localStorage (snd (Full.logout reparse p)) =
    delete (userDataKey CONFIG) (delete (storageKey CONFIG) (localStorage p)).
Proof.
  unfold Full.logout, bind, Full.removeItem, dispatchEvent, set_location_href,
    emit_event.
  rewrite full_updateAuthUI_unfold.
  cbn [document localStorage with_event with_storage].
  unfold auth_markup. rewrite flag_after_removal.
  destruct (document p !! authSelector) as [old|]; split; reflexivity.
Qed.

(** In a browser that refuses no write and with elements that are not
    nested in one another, the calls of [Full] end as those of the page
    do and leave the same storage and the same markup. *)
Lemma full_agrees_with_page v loginTime p :
  let same {A} (full plain : completion A * page) :=
    fst full = fst plain /\
    localStorage (snd full) = localStorage (snd plain) /\
    document (snd full) = document (snd plain) in
  same (Full.updateAuthUI Full.untouched p) (updateAuthUI p) /\
  same (Full.login Full.unlimited Full.untouched (Some (Full.Data v)) loginTime p)
       (login (Some v) loginTime p) /\
  same (Full.logout Full.untouched p) (logout p).
Proof.
  cbv zeta. split; [|split].
  - rewrite full_updateAuthUI_unfold, updateAuthUI_unfold.
    destruct (document p !! authSelector); [|repeat split].
    destruct (auth_markup (localStorage p)); repeat split.
  - rewrite full_login_run. cbv zeta. unfold Full.unlimited.
    change (default (Full.Data (JObj [])) (Some (Full.Data v))) with (Full.Data v).
    cbv iota beta.
    change (login (Some v) loginTime p) with
      (updateAuthUI
         (with_event (Dispatched "user:login" v)
            (with_storage (insert (userDataKey CONFIG) (stored_record (Some v) loginTime))
               (with_storage (insert (storageKey CONFIG) "true") p)))).
    rewrite full_updateAuthUI_unfold, updateAuthUI_unfold.
    cbn [document localStorage with_event with_storage].
    destruct (document p !! authSelector); [|repeat split].
    match goal with
    | |- context [auth_markup ?storage] => destruct (auth_markup storage)
    end; repeat split.
  - unfold Full.logout, logout, bind, Full.removeItem, removeItem, dispatchEvent,
      set_location_href, emit_event.
    rewrite full_updateAuthUI_unfold, updateAuthUI_unfold.
    cbn [document localStorage with_event with_storage].
    destruct (document p !! authSelector); [|repeat split].
    match goal with
    | |- context [auth_markup ?storage] => destruct (auth_markup storage)
    end; repeat split.
Qed.

(** C5, as the code has it: [logout] removes both auth keys, and a
    [login] that returns has written both. A [login] that throws has
    stopped at the step that failed: storage is as it was when the first
    write was refused; only the flag has been written when
    [JSON.stringify] refused the data or the storage area refused the
    second write; both keys have been written when the exception came
    later. So storage is synchronised after [logout] and after a [login]
    that returns. *)
Theorem auth_keys_written_together accepts reparse userData loginTime p :
  let flag := storageKey CONFIG in
  let data := userDataKey CONFIG in
  let outcome := fst (Full.login accepts reparse userData loginTime p) in
  let logged_in := localStorage (snd (Full.login accepts reparse userData loginTime p)) in
  let logged_out := localStorage (snd (Full.logout reparse p)) in
  let both v := <[data := stored_record (Some v) loginTime]>
                  (<[flag := "true"]> (localStorage p)) in
  (fst (Full.logout reparse p) = Return tt /\
   logged_out !! flag = None /\ logged_out !! data = None /\
   synchronised logged_out) /\
  (outcome = Return tt ->
   (exists v, default (Full.Data (JObj [])) userData = Full.Data v /\
              logged_in = both v) /\
   synchronised logged_in) /\
  ((logged_in = localStorage p /\ outcome = Throw QuotaExceededError) \/
   (logged_in = <[flag := "true"]> (localStorage p) /\
    (outcome = Throw TypeError \/ outcome = Throw QuotaExceededError)) \/
   (exists v, default (Full.Data (JObj [])) userData = Full.Data v /\
              logged_in = both v)).
Proof.
  cbv zeta.
  assert (Hne : storageKey CONFIG <> userDataKey CONFIG) by discriminate.
  assert (Hsync : forall storage record,
            synchronised (<[userDataKey CONFIG := record]>
                            (<[storageKey CONFIG := "true"]> storage))).
  { intros storage record. unfold synchronised.
    rewrite lookup_insert_ne by congruence. rewrite !lookup_insert_eq.
    split; eauto. }
  split; [|].
  { destruct (full_logout_storage reparse p) as [Hret Hstorage].
    rewrite Hstorage, Hret.
    assert (Hflag : delete (userDataKey CONFIG)
                      (delete (storageKey CONFIG) (localStorage p))
                      !! storageKey CONFIG = None).
    { rewrite lookup_delete_ne by congruence. apply lookup_delete_eq. }
    unfold synchronised. rewrite Hflag, lookup_delete_eq.
    repeat split; intros [? ?]; discriminate. }
  rewrite full_login_run. cbv zeta.
  destruct (accepts (localStorage p) (storageKey CONFIG) "true");
    [|split; [discriminate | left; split; reflexivity]].
  destruct (default (Full.Data (JObj [])) userData) as [v|];
    [|split; [discriminate | right; left; split; [reflexivity | now left]]].
  destruct (accepts _ (userDataKey CONFIG) (stored_record (Some v) loginTime));
    [|split; [discriminate | right; left; split; [reflexivity | now right]]].
  match goal with
  | |- context [Full.updateAuthUI reparse ?q] =>
      pose proof (storage_full_updateAuthUI reparse q) as Hstorage
  end.
  cbn [localStorage with_event with_storage] in Hstorage. rewrite Hstorage.
  split.
  - intros _. split; [exists v; split; reflexivity | apply Hsync].
  - right. right. exists v. split; reflexivity.
Qed.

(** C5 as stated fails: from a storage with neither key, a [login]
    whose data [JSON.stringify] refuses, and a [login] for whose record
    the storage area has no room left, both throw after the first write,
    and leave the flag set with no record beside it. *)
Lemma login_leaves_the_flag_alone :
  let refused :=
    Full.login Full.unlimited Full.untouched (Some Full.Unserialisable)
      "2024-05-01T10:00:00.000Z" fresh_page in
  let full :=
    Full.login (Full.within 40) Full.untouched
      (Some (Full.Data (JObj [("email", JStr "a@b.com")])))
      "2024-05-01T10:00:00.000Z" fresh_page in
  synchronised (localStorage fresh_page) /\
  (fst refused = Throw TypeError /\
   localStorage (snd refused) !! storageKey CONFIG = Some "true" /\
   localStorage (snd refused) !! userDataKey CONFIG = None /\
   ~ synchronised (localStorage (snd refused))) /\
  (fst full = Throw QuotaExceededError /\
   localStorage (snd full) !! storageKey CONFIG = Some "true" /\
   localStorage (snd full) !! userDataKey CONFIG = None /\
   ~ synchronised (localStorage (snd full))).
Proof.
  cbv zeta. split; [|split].
  - unfold synchronised. split; intros [x Hx]; vm_compute in Hx; discriminate.
  - repeat split; try (vm_compute; reflexivity).
    unfold synchronised. intros [Hsome _].
    assert (Hdata : is_Some
              (localStorage
                 (snd (Full.login Full.unlimited Full.untouched
                         (Some Full.Unserialisable) "2024-05-01T10:00:00.000Z"
                         fresh_page)) !! userDataKey CONFIG))
      by (apply Hsome; vm_compute; eauto).
    destruct Hdata as [x Hx]. vm_compute in Hx. discriminate.
  - repeat split; try (vm_compute; reflexivity).
    unfold synchronised. intros [Hsome _].
    assert (Hdata : is_Some
              (localStorage
                 (snd (Full.login (Full.within 40) Full.untouched
                         (Some (Full.Data (JObj [("email", JStr "a@b.com")])))
                         "2024-05-01T10:00:00.000Z" fresh_page))
                 !! userDataKey CONFIG))
      by (apply Hsome; vm_compute; eauto).
    destruct Hdata as [x Hx]. vm_compute in Hx. discriminate.
Qed.

(** ** Expiring values *)

Lemma expiring_entry_fields value expiryTime :
  JS.get (expiring_entry value expiryTime) "expiry"
    = Some (JS.number_to_json expiryTime) /\
  JS.get (expiring_entry value expiryTime) "value" = value.
Proof. destruct value; split; reflexivity. Qed.

(** The comparison at the read, on what [JSON.stringify] wrote for the
    expiry time. *)
Lemma number_gt_stored now expiryTime :
  JS.number_gt now (Some (JS.number_to_json expiryTime)) = Some (expired expiryTime now).
Proof. destruct expiryTime; reflexivity. Qed.

(** What a write within the model stores. *)
Lemma setStorageWithExpiry_run key value minutes now expiryTime p :
  expiry_time (default (JS.Whole 60) minutes) now = Some expiryTime ->
  setStorageWithExpiry key value minutes now p =
  (Return tt,
   with_storage (insert key (JSON.stringify (expiring_entry value expiryTime))) p).
Proof. intros H. unfold setStorageWithExpiry. cbv zeta. now rewrite H. Qed.


(** A read at [now'] of the entry written at [now]: past the expiry
    time the key is removed and the result is [null], otherwise the value
    comes back and storage is left alone. *)
Lemma read_after_write key value minutes now expiryTime now' p :
  expiry_time (default (JS.Whole 60) minutes) now = Some expiryTime ->
  let written := snd (setStorageWithExpiry key value minutes now p) in
  getStorageWithExpiry key now' written =
  if expired expiryTime now'
  then (Return (Some JNull), with_storage (delete key) written)
  else (Return value, written).
Proof.
  intros Htime. cbv zeta.
  rewrite (setStorageWithExpiry_run _ _ _ _ _ _ Htime). cbn [snd].
  set (entry := expiring_entry value expiryTime).
  set (written := with_storage (insert key (JSON.stringify entry)) p).
  assert (Hitem : localStorage written !! key = Some (JSON.stringify entry))
    by apply lookup_insert_eq.
  destruct (JSONFacts.emit_head entry EmptyString) as (c & r & Htext & _).
  fold (JSON.stringify entry) in Htext.
  unfold getStorageWithExpiry. unfold bind at 1. unfold getItem.
  rewrite Hitem, Htext. unfold bind at 1. unfold JSON_parse.
  rewrite <- Htext, JSONFacts.parse_stringify. cbn [ret].
  destruct (expiring_entry_fields value expiryTime) as [Hexpiry Hvalue].
  fold entry in Hexpiry, Hvalue.
  assert (Hprop : forall name, property entry name = ret (JS.get entry name)).
  { intros name. subst entry. unfold expiring_entry. reflexivity. }
  rewrite !Hprop, Hexpiry, Hvalue.
  unfold bind, ret, greater_than. rewrite number_gt_stored.
  destruct (expired expiryTime now'); reflexivity.
Qed.





(** ** HTML escaping *)

Lemma append_cons c a b : String c a +:+ b = String c (a +:+ b).
Proof. reflexivity. Qed.

Lemma append_assoc a b c : (a +:+ b) +:+ c = a +:+ b +:+ c.
Proof.
  induction a as [|x a IH]; [reflexivity|].
  now rewrite !append_cons, IH.
Qed.

Lemma escapeHTML_text s : escapeHTML s = DOM.escape_text s.
Proof. destruct s; reflexivity. Qed.

Lemma escape_text_append a b :
  DOM.escape_text (a +:+ b) = DOM.escape_text a +:+ DOM.escape_text b.
Proof.
  induction a as [|x a IH]; [reflexivity|].
  rewrite append_cons. cbn [DOM.escape_text]. now rewrite IH, append_assoc.
Qed.

Lemma escapeHTML_occurrence c before after :
  escapeHTML (before +:+ String c after) =
  escapeHTML before +:+ DOM.escape_char c +:+ escapeHTML after.
Proof.
  rewrite !escapeHTML_text, escape_text_append. reflexivity.
Qed.

Lemma written_as_escape_char c : written_as c (DOM.escape_char c).
Proof. intros before after. apply escapeHTML_occurrence. Qed.

Lemma escape_char_no_angle c x :
  In x (list_ascii_of_string (DOM.escape_char c)) ->
  x <> "<"%char /\ x <> ">"%char.
Proof.
  destruct c as [[] [] [] [] [] [] [] []]; cbn;
    intros H; repeat (destruct H as [<-|H]; [split; discriminate|]);
    destruct H.
Qed.

Lemma list_ascii_append a b :
  list_ascii_of_string (a +:+ b) =
  (list_ascii_of_string a ++ list_ascii_of_string b)%list.
Proof.
  induction a as [|x a IH]; [reflexivity|].
  rewrite append_cons. cbn [list_ascii_of_string]. now rewrite IH.
Qed.

(** C6, as the code has it: [escapeHTML("<b>x</b>")] is
    [&lt;b&gt;x&lt;/b&gt;]; every occurrence of [<], [>] and [&] (and of
    U+00A0) in the input is replaced by its character entity, so no [<]
    or [>] is left in the output; the two quote characters are copied
    unchanged, as the serialisation of a text node does. *)
Theorem escapeHTML_escapes_markup :
  escapeHTML "<b>x</b>" = "&lt;b&gt;x&lt;/b&gt;" /\
  written_as "<" "&lt;" /\ written_as ">" "&gt;" /\ written_as "&" "&amp;" /\
  written_as nbsp "&nbsp;" /\
  copies dquote /\ copies squote /\
  (forall s x, In x (list_ascii_of_string (escapeHTML s)) ->
               x <> "<"%char /\ x <> ">"%char).
Proof.
  split; [reflexivity|].
  split; [exact (written_as_escape_char "<")|].
  split; [exact (written_as_escape_char ">")|].
  split; [exact (written_as_escape_char "&")|].
  split; [exact (written_as_escape_char nbsp)|].
  split; [exact (written_as_escape_char dquote)|].
  split; [exact (written_as_escape_char squote)|].
  intros s x. rewrite escapeHTML_text.
  induction s as [|c s IH]; cbn [DOM.escape_text]; [intros []|].
  rewrite list_ascii_append, in_app_iff.
  intros [H|H]; [exact (escape_char_no_angle c x H) | exact (IH H)].
Qed.

(** C6 as stated fails for the quotes: neither is replaced by an
    entity, [escapeHTML] returns a string of quotes as it is. *)
Lemma escapeHTML_leaves_quotes :
  escapeHTML dq = dq /\ escapeHTML (str1 squote) = str1 squote /\
  ~ escapes dquote /\ ~ escapes squote.
Proof.
  split; [reflexivity|]. split; [reflexivity|].
  split; intros H;
    destruct (H EmptyString EmptyString) as (e & [name ->] & He);
    vm_compute in He; discriminate He.
Qed.

(** ** Template loading *)

Lemma bind_assoc {A B C} (m : M A) (k : A -> M B) (h : B -> M C) p :
  bind (bind m k) h p = bind m (fun a => bind (k a) h) p.
Proof. unfold bind. destruct (m p) as [[a| e |] p']; reflexivity. Qed.

Lemma loadTemplates_blocks network p :
  loadTemplates network p =
  try_catch (header_block network;; footer_block network)
    (fun error => console_error "Error loading templates:" (Caught error)) p.
Proof.
  unfold loadTemplates, try_catch, header_block. now rewrite bind_assoc.
Qed.

Lemma header_block_run network p :
  header_block network p =
  let q := settled (template_url Header) p in
  match network (template_url Header) with
  | Rejects => (Throw FetchError, q)
  | Responds st c =>
      if ok {| status := st; content := c |} then
        match c with
        | BodyFails => (Throw FetchError, q)
        | BodyText t =>
            match document p !! headerSelector CONFIG with
            | Some _ =>
                (Return tt,
                 with_event HeaderListenersAttached
                   (with_document (insert (headerSelector CONFIG) t) q))
            | None => (Throw TypeError, q)
            end
        end
      else
        (Return tt,
         with_event (ConsoleError "Failed to load header template:" (Status st)) q)
  end.
Proof.
  unfold header_block, bind, fetch, emit_event, bind, template_url.
  destruct (network (templatePath CONFIG +:+ headerFile CONFIG)) as [|st c];
    [reflexivity|].
  cbn [ret]. destruct (ok {| status := st; content := c |}); [|reflexivity].
  destruct c as [t|]; [|reflexivity].
  unfold text, set_innerHTML. cbn.
  match goal with
  | |- context [document p !! ?k] => destruct (document p !! k)
  end; reflexivity.
Qed.

Lemma footer_block_run network p :
  footer_block network p =
  let q := settled (template_url Footer) p in
  match network (template_url Footer) with
  | Rejects => (Throw FetchError, q)
  | Responds st c =>
      if ok {| status := st; content := c |} then
        match c with
        | BodyFails => (Throw FetchError, q)
        | BodyText t =>
            match document p !! footerSelector CONFIG with
            | Some _ =>
                (Return tt, with_document (insert (footerSelector CONFIG) t) q)
            | None => (Throw TypeError, q)
            end
        end
      else
        (Return tt,
         with_event (ConsoleError "Failed to load footer template:" (Status st)) q)
  end.
Proof.
  unfold footer_block, bind, fetch, emit_event, bind, template_url.
  destruct (network (templatePath CONFIG +:+ footerFile CONFIG)) as [|st c];
    [reflexivity|].
  cbn [ret]. destruct (ok {| status := st; content := c |}); [|reflexivity].
  destruct c as [t|]; [|reflexivity].
  unfold text, set_innerHTML. cbn.
  match goal with
  | |- context [document p !! ?k] => destruct (document p !! k)
  end; reflexivity.
Qed.

Lemma header_block_failed network :
  fetch_failed (network (template_url Header)) ->
  preserves document (header_block network).
Proof.
  intros Hfail p. rewrite header_block_run. cbv zeta.
  destruct (network (template_url Header)) as [|st c]; [reflexivity|].
  destruct Hfail as [-> | ->]; [reflexivity|].
  destruct (ok _); reflexivity.
Qed.

Lemma footer_block_failed network :
  fetch_failed (network (template_url Footer)) ->
  preserves document (footer_block network).
Proof.
  intros Hfail p. rewrite footer_block_run. cbv zeta.
  destruct (network (template_url Footer)) as [|st c]; [reflexivity|].
  destruct Hfail as [-> | ->]; [reflexivity|].
  destruct (ok _); reflexivity.
Qed.

Lemma header_block_keeps_footer network :
  preserves (fun p => document p !! footerSelector CONFIG) (header_block network).
Proof.
  intros p. rewrite header_block_run. cbv zeta.
  destruct (network (template_url Header)) as [|st c]; [reflexivity|].
  destruct (ok _); [|reflexivity]. destruct c as [t|]; [|reflexivity].
  destruct (document p !! headerSelector CONFIG); [|reflexivity].
  cbn. now rewrite lookup_insert_ne by discriminate.
Qed.

Lemma footer_block_keeps_header network :
  preserves (fun p => document p !! headerSelector CONFIG) (footer_block network).
Proof.
  intros p. rewrite footer_block_run. cbv zeta.
  destruct (network (template_url Footer)) as [|st c]; [reflexivity|].
  destruct (ok _); [|reflexivity]. destruct c as [t|]; [|reflexivity].
  destruct (document p !! footerSelector CONFIG); [|reflexivity].
  cbn. now rewrite lookup_insert_ne by discriminate.
Qed.

Lemma preserves_lookup {A} (m : M A) sel :
  preserves document m -> preserves (fun p => document p !! sel) m.
Proof. intros H p. now rewrite H. Qed.

(** [loadTemplates] never throws: what its [try] block throws, its
    [catch] logs. *)
Lemma loadTemplates_returns network p :
  fst (loadTemplates network p) = Return tt.
Proof.
  rewrite loadTemplates_blocks. unfold try_catch, bind.
  rewrite header_block_run. cbv zeta.
  destruct (network (template_url Header)) as [|st c]; [reflexivity|].
  destruct (ok _);
    [destruct c; [destruct (document p !! _)|]|]; try reflexivity;
    rewrite footer_block_run; cbv zeta;
    (destruct (network (template_url Footer)) as [|st' c']; [reflexivity|]);
    (destruct (ok _); [destruct c'; [|reflexivity]|reflexivity]);
    match goal with
    | |- context [document ?q !! ?k] => destruct (document q !! k)
    end; reflexivity.
Qed.

(** C2: [loadTemplates] returns, and a template whose fetch failed
    (rejected promise, non-success status, unreadable body) then has its
    container with the content it had before the call; a container is
    rewritten only after a success response. *)
Theorem loadTemplates_failed_fetch_keeps_container network t p :
  fetch_failed (network (template_url t)) ->
  fst (loadTemplates network p) = Return tt /\
  document (snd (loadTemplates network p)) !! template_selector t =
  document p !! template_selector t.
Proof.
  intros Hfail. split; [apply loadTemplates_returns|].
  rewrite loadTemplates_blocks.
  revert p. change (preserves (fun p => document p !! template_selector t)
                      (try_catch (header_block network;; footer_block network)
                         (fun error => console_error "Error loading templates:"
                                         (Caught error)))).
  apply preserves_try_catch; [apply preserves_bind; [|intros _]|intros e].
  - destruct t; [apply preserves_lookup, header_block_failed, Hfail
                | apply header_block_keeps_footer].
  - destruct t; [apply footer_block_keeps_header
                | apply preserves_lookup, footer_block_failed, Hfail].
  - apply preserves_lookup, document_emit_event.
Qed.

Lemma loadTemplates_failed_fetch_keeps_container_witness :
  fst (loadTemplates network_header_missing fresh_page) = Return tt /\
  document (snd (loadTemplates network_header_missing fresh_page)) !! "#app-header" =
  Some "old header".
Proof.
  apply (loadTemplates_failed_fetch_keeps_container
           network_header_missing Header fresh_page).
  left. reflexivity.
Defined.

Lemma new_events_app p q l : trace q = trace p ++ l -> new_events p q = l.
Proof.
  intros H. unfold new_events. rewrite H. apply drop_app_length.
Qed.







(** ** Regular expressions: what the matcher accepts *)

Lemma append_empty_r s : s +:+ EmptyString = s.
Proof.
  induction s as [|c s IH]; [reflexivity|].
  change (String c s +:+ EmptyString) with (String c (s +:+ EmptyString)).
  now rewrite IH.
Qed.

Lemma match_end s : RegExp.match_here [] s = true <-> s = EmptyString.
Proof. destruct s; cbn; split; congruence. Qed.

Lemma match_once a p s :
  RegExp.match_here ((a, RegExp.Once) :: p) s = true <->
  exists c y, s = String c y /\ RegExp.accepts a c = true /\
              RegExp.match_here p y = true.
Proof.
  destruct s as [|c y]; cbn [RegExp.match_here].
  - split; [discriminate | intros (c & y & H & _); discriminate H].
  - rewrite andb_true_iff. split.
    + intros [Ha Hp]. eauto.
    + intros (c' & y' & [= <- <-] & Ha & Hp). auto.
Qed.

Lemma match_more_step a p c s :
  RegExp.match_here ((a, RegExp.OneOrMore) :: p) (String c s) =
  RegExp.accepts a c &&
  (RegExp.match_here p s || RegExp.match_here ((a, RegExp.OneOrMore) :: p) s).
Proof. reflexivity. Qed.

Lemma match_more a p s :
  RegExp.match_here ((a, RegExp.OneOrMore) :: p) s = true <->
  exists x y, s = x +:+ y /\ x <> EmptyString /\ all_accepted a x /\
              RegExp.match_here p y = true.
Proof.
  induction s as [|c s IH].
  - split; [discriminate|].
    intros (x & y & H & Hx & _). destruct x; [congruence | discriminate H].
  - rewrite match_more_step, andb_true_iff, orb_true_iff, IH. split.
    + intros [Ha [Hp | (x & y & -> & Hx & Hall & Hp)]].
      * exists (str1 c), s. repeat split; [discriminate| |exact Hp].
        intros ch [<-|[]]. exact Ha.
      * exists (String c x), y. repeat split; [discriminate| |exact Hp].
        intros ch [<-|Hin]; [exact Ha | exact (Hall ch Hin)].
    + intros (x & y & Hs & Hx & Hall & Hp).
      destruct x as [|c' x]; [congruence|]. injection Hs as <- ->.
      split; [apply Hall; now left|].
      destruct x as [|c'' x]; [left; exact Hp|right].
      exists (String c'' x), y. repeat split; [discriminate| |exact Hp].
      intros ch Hin. apply Hall. now right.
Qed.

Lemma accepts_part ch :
  RegExp.accepts (RegExp.Class true [RegExp.Whitespace; RegExp.Single "@"%char]) ch
    = true <->
  is_js_whitespace ch = false /\ ch <> "@"%char.
Proof.
  cbn. unfold eqc. rewrite orb_false_r.
  destruct (is_js_whitespace ch); cbn; [split; [discriminate | intros [H _]; discriminate H]|].
  destruct (Ascii.eqb_spec ch "@"); cbn; split; try discriminate; intuition congruence.
Qed.

Lemma all_accepted_part x :
  x <> EmptyString /\
  all_accepted (RegExp.Class true [RegExp.Whitespace; RegExp.Single "@"%char]) x <->
  plain x.
Proof.
  unfold plain, all_accepted. split; intros [Hx H]; (split; [exact Hx|]);
    intros ch Hin; apply accepts_part, H, Hin.
Qed.

(** The strings [isValidEmail] accepts are those of the form
    [local@domain.tld] where each of the three parts is non-empty and has
    neither whitespace nor [@]. *)
Lemma isValidEmail_shape s :
  isValidEmail s = true <->
  exists a b c, s = a +:+ "@" +:+ b +:+ "." +:+ c /\ plain a /\ plain b /\ plain c.
Proof.
  unfold isValidEmail, RegExp.test, emailRegex. cbv zeta. split.
  - intros H.
    apply match_more in H as (a & r1 & -> & Ha & Hall_a & H).
    apply match_once in H as (c1 & r2 & -> & Hc1 & H).
    apply match_more in H as (b & r3 & -> & Hb & Hall_b & H).
    apply match_once in H as (c2 & r4 & -> & Hc2 & H).
    apply match_more in H as (c & r5 & -> & Hc & Hall_c & H).
    apply match_end in H as ->.
    apply Ascii.eqb_eq in Hc1 as ->. apply Ascii.eqb_eq in Hc2 as ->.
    exists a, b, c. split.
    + now rewrite append_empty_r.
    + split; [|split]; apply all_accepted_part; split; assumption.
  - intros (a & b & c & -> & Ha & Hb & Hc).
    apply all_accepted_part in Ha as [Ha Hall_a].
    apply all_accepted_part in Hb as [Hb Hall_b].
    apply all_accepted_part in Hc as [Hc Hall_c].
    apply match_more. exists a, ("@" +:+ b +:+ "." +:+ c).
    repeat split; [exact Ha | exact Hall_a|].
    apply match_once. exists "@"%char, (b +:+ "." +:+ c).
    repeat split. apply match_more. exists b, ("." +:+ c).
    repeat split; [exact Hb | exact Hall_b|].
    apply match_once. exists "."%char, c. repeat split.
    apply match_more. exists c, EmptyString.
    repeat split; [|exact Hc | exact Hall_c].
    now rewrite append_empty_r.
Qed.

(** ** Email validation *)

(** C8: [isValidEmail] accepts [a@b.co] and [user@example.com], and
    rejects [a@b], [@b.co], [a b@c.com], [user@], [@example.com] and
    [user example.com]. *)
Theorem isValidEmail_examples :
  isValidEmail "a@b.co" = true /\
  isValidEmail "user@example.com" = true /\
  isValidEmail "a@b" = false /\
  isValidEmail "@b.co" = false /\
  isValidEmail "a b@c.com" = false /\
  isValidEmail "user@" = false /\
  isValidEmail "@example.com" = false /\
  isValidEmail "user example.com" = false.
Proof. repeat split; vm_compute; reflexivity. Qed.

(** ** Scenarios of the specification, evaluated *)

(** [JSON.parse] on a text with whitespace, nesting and an escape, and
    on texts that are not JSON. *)
Example parse_samples :
  JSON.parse ("{ " +:+ dq +:+ "a" +:+ dq +:+ " : [1, -20, true, null, " +:+ dq +:+
              "x\n" +:+ dq +:+ "] }") =
    Value (JObj [("a", JArr [JNum 1; JNum (-20); JBool true; JNull;
                             JStr (String "x" nl)])]) /\
  JSON.parse "[1,]" = NotJSON /\
  JSON.parse "01" = NotJSON /\
  JSON.parse "{oops" = NotJSON /\
  JSON.parse "nul" = NotJSON /\
  JSON.parse "1.5" = OutsideModel.
Proof. repeat split; vm_compute; reflexivity. Qed.

(** [login({email: "a@b.com"})]: storage holds the flag and a record
    with the email and the timestamp, and the container shows the
    welcome block for [a@b.com]. *)
Example login_scenario :
  let p := snd (login (Some (JObj [("email", JStr "a@b.com")]))
                      "2024-05-01T10:00:00.000Z" fresh_page) in
  localStorage p !! "user_logged_in" = Some "true" /\
  (JSON.parse <$> localStorage p !! "user_data") =
    Some (Value (JObj [("email", JStr "a@b.com");
                       ("loginTime", JStr "2024-05-01T10:00:00.000Z")])) /\
  document p !! ".auth-container" = Some (welcomeMarkup "a@b.com") /\
  trace p = [Dispatched "user:login" (JObj [("email", JStr "a@b.com")])].
Proof. repeat split; vm_compute; reflexivity. Qed.

(** An expiring value set for 60 minutes: an immediate read returns it,
    a read after the hour returns [null] and removes the key. *)
Example expiring_value_scenario :
  let written := snd (setStorageWithExpiry "x" (Some (JObj [("a", JNum 1)]))
                        (Some (JS.Whole 60)) 1000 fresh_page) in
  fst (getStorageWithExpiry "x" 1000 written) = Return (Some (JObj [("a", JNum 1)])) /\
  fst (getStorageWithExpiry "x" 3601001 written) = Return (Some JNull) /\
  localStorage (snd (getStorageWithExpiry "x" 3601001 written)) !! "x" = None.
Proof. repeat split; vm_compute; reflexivity. Qed.

(** Stored names are escaped before they reach the markup. *)
Example stored_markup_is_escaped :
  auth_markup (list_to_map [("user_logged_in", "true");
                            ("user_data", "{" +:+ dq +:+ "email" +:+ dq +:+ ":" +:+
                                          dq +:+ "<img>" +:+ dq +:+ "}")]) =
  Return (welcomeMarkup "&lt;img&gt;").
Proof. vm_compute. reflexivity. Qed.

(** * Further properties of the script *)

(** ** Expiring values: reads of any stored text *)

(** [getStorageWithExpiry] by cases on what the key holds. *)
Lemma getStorageWithExpiry_run key now p :
  getStorageWithExpiry key now p =
  match localStorage p !! key with
  | Some (String c r) =>
      match JSON.parse (String c r) with
      | NotJSON => (Throw SyntaxError, p)
      | OutsideModel => (NotModelled, p)
      | Value JNull => (Throw TypeError, p)
      | Value data =>
          match JS.number_gt now (JS.get data "expiry") with
          | None => (NotModelled, p)
          | Some true => (Return (Some JNull), with_storage (delete key) p)
          | Some false => (Return (JS.get data "value"), p)
          end
      end
  | _ => (Return (Some JNull), p)
  end.
Proof.
  unfold getStorageWithExpiry. unfold bind at 1. unfold getItem.
  destruct (localStorage p !! key) as [[|c r]|]; try reflexivity.
  unfold bind at 1. unfold JSON_parse.
  destruct (JSON.parse (String c r)) as [data| |]; try reflexivity.
  destruct data; try reflexivity;
    unfold bind, property, greater_than, ret; cbn [JS.get];
    match goal with
    | |- context [JS.number_gt now ?x] => destruct (JS.number_gt now x) as [[]|]
    end; reflexivity.
Qed.

(** A read of a key that holds the text of an expiring entry. *)
Lemma read_entry key value expiryTime now p :
  localStorage p !! key = Some (JSON.stringify (expiring_entry value expiryTime)) ->
  getStorageWithExpiry key now p =
  if expired expiryTime now
  then (Return (Some JNull), with_storage (delete key) p)
  else (Return value, p).
Proof.
  intros Hitem. rewrite getStorageWithExpiry_run, Hitem.
  destruct (JSONFacts.emit_head (expiring_entry value expiryTime) EmptyString)
    as (c & r & Htext & _).
  fold (JSON.stringify (expiring_entry value expiryTime)) in Htext.
  rewrite Htext at 1. rewrite <- Htext, JSONFacts.parse_stringify.
  destruct (expiring_entry_fields value expiryTime) as [Hexpiry Hvalue].
  assert (Hobj : exists ms, expiring_entry value expiryTime = JObj ms)
    by (unfold expiring_entry; eauto).
  destruct Hobj as [ms Hms]. rewrite Hms in *. rewrite Hexpiry, Hvalue.
  rewrite number_gt_stored. destruct (expired expiryTime now); reflexivity.
Qed.

(** X1: a value stored with [setStorageWithExpiry] whose expiry time is
    a whole number the arithmetic gives without rounding, read no later
    than that time, comes back as it was stored ([undefined] for a value
    that was [undefined]), and the read leaves the page alone. *)
Theorem expiring_value_round_trip key value minutes now expiry now' p :
  expiry_time (default (JS.Whole 60) minutes) now = Some (JS.Whole expiry) ->
  now' <= expiry ->
  let written := snd (setStorageWithExpiry key value minutes now p) in
  getStorageWithExpiry key now' written = (Return value, written).
Proof.
  intros Htime Hlive. cbv zeta. rewrite (read_after_write _ _ _ _ _ _ _ Htime).
  cbn [expired]. destruct (Z.ltb_spec expiry now'); [lia|]. reflexivity.
Qed.

Lemma expiring_value_round_trip_witness :
  let written := snd (setStorageWithExpiry "x" (Some (JArr [JStr "a"; JNull]))
                        None 1000 fresh_page) in
  getStorageWithExpiry "x" 3601000 written =
  (Return (Some (JArr [JStr "a"; JNull])), written).
Proof.
  apply (expiring_value_round_trip "x" (Some (JArr [JStr "a"; JNull])) None
           1000 3601000 3601000 fresh_page); [reflexivity | discriminate].
Defined.

(** X2: [getStorageWithExpiry] never writes a value. Whatever the key
    holds and however the call ends, every key of storage holds what it
    held before, except that the key read may have been removed; the
    document and the trace are left alone. *)
Theorem getStorageWithExpiry_only_removes key now p :
  let after := snd (getStorageWithExpiry key now p) in
  (forall k, localStorage after !! k = localStorage p !! k \/
             (k = key /\ localStorage after !! k = None)) /\
  document after = document p /\ trace after = trace p.
Proof.
  cbv zeta. rewrite getStorageWithExpiry_run.
  destruct (localStorage p !! key) as [[|c r]|]; cbn [snd]; auto.
  destruct (JSON.parse (String c r)) as [data| |]; cbn [snd]; auto.
  assert (Hcases :
    let res := match JS.number_gt now (JS.get data "expiry") with
               | None => (@NotModelled (option json), p)
               | Some true => (Return (Some JNull), with_storage (delete key) p)
               | Some false => (Return (JS.get data "value"), p)
               end in
    (forall k, localStorage (snd res) !! k = localStorage p !! k \/
               (k = key /\ localStorage (snd res) !! k = None)) /\
    document (snd res) = document p /\ trace (snd res) = trace p).
  { cbv zeta. destruct (JS.number_gt now (JS.get data "expiry")) as [[]|];
      cbn [snd]; auto.
    split; [|auto]. intros k. cbn [localStorage with_storage].
    destruct (decide (k = key)) as [->|Hne].
    - right. split; [reflexivity | apply lookup_delete_eq].
    - left. now apply lookup_delete_ne. }
  destruct data; cbn [snd]; auto; exact Hcases.
Qed.

(** X3: an entry with no [expiry] member never expires. When the key
    holds the text of a value other than [null] that has no [expiry], a
    read at any time returns its [value] member and keeps the key. *)
Theorem entry_without_expiry_never_expires key stored data now p :
  localStorage p !! key = Some stored ->
  stored <> EmptyString ->
  JSON.parse stored = Value data ->
  data <> JNull ->
  JS.get data "expiry" = None ->
  getStorageWithExpiry key now p = (Return (JS.get data "value"), p).
Proof.
  intros Hitem Hne Hparse Hdata Hexpiry.
  rewrite getStorageWithExpiry_run, Hitem.
  destruct stored as [|c r]; [congruence|]. rewrite Hparse, Hexpiry.
  destruct data; try reflexivity. congruence.
Qed.

Lemma entry_without_expiry_never_expires_witness :
  getStorageWithExpiry "visits" 99999999999 page_with_plain_entries =
  (Return None, page_with_plain_entries).
Proof.
  apply (entry_without_expiry_never_expires "visits" "5" (JNum 5)
           99999999999 page_with_plain_entries); first [reflexivity | discriminate].
Defined.

(** X4: a corrupt entry is never cleaned up. When the key holds a
    non-empty text that is not JSON, the read throws the [SyntaxError] of
    [JSON.parse]; when it holds the text of [null], the read throws a
    [TypeError] on [data.expiry]; either way the key keeps its text, so
    every later read throws again. *)
Theorem corrupt_entry_throws_and_stays key stored now p :
  localStorage p !! key = Some stored ->
  stored <> EmptyString ->
  JSON.parse stored = NotJSON \/ JSON.parse stored = Value JNull ->
  getStorageWithExpiry key now p =
  (Throw (match JSON.parse stored with
          | Value _ => TypeError
          | _ => SyntaxError
          end), p).
Proof.
  intros Hitem Hne Hbad. rewrite getStorageWithExpiry_run, Hitem.
  destruct stored as [|c r]; [congruence|].
  destruct Hbad as [-> | ->]; reflexivity.
Qed.

Lemma corrupt_entry_throws_and_stays_witness :
  getStorageWithExpiry "broken" 1000 page_with_plain_entries =
    (Throw SyntaxError, page_with_plain_entries) /\
  getStorageWithExpiry "nothing" 1000 page_with_plain_entries =
    (Throw TypeError, page_with_plain_entries).
Proof.
  split.
  - apply (corrupt_entry_throws_and_stays "broken" "{oops" 1000
             page_with_plain_entries); first [reflexivity | discriminate | (left; reflexivity)].
  - apply (corrupt_entry_throws_and_stays "nothing" "null" 1000
             page_with_plain_entries); first [reflexivity | discriminate | (right; reflexivity)].
Defined.

(** X5: entries under different keys are independent. A value stored
    under one key, with an expiry time within the model, is read as if
    nothing else had been stored, whatever was stored under another key
    in between: it comes back while the clock is not past the expiry
    time, and afterwards the read returns [null] and removes that key
    only. *)
Theorem expiring_values_are_independent
    key value minutes now expiryTime other value' minutes' now' read_at p :
  key <> other ->
  expiry_time (default (JS.Whole 60) minutes) now = Some expiryTime ->
  let first := snd (setStorageWithExpiry key value minutes now p) in
  let both := snd (setStorageWithExpiry other value' minutes' now' first) in
  getStorageWithExpiry key read_at both =
  if expired expiryTime read_at
  then (Return (Some JNull), with_storage (delete key) both)
  else (Return value, both).
Proof.
  intros Hne Htime. cbv zeta. apply read_entry.
  rewrite (setStorageWithExpiry_run _ _ _ _ _ _ Htime). cbn [snd].
  unfold setStorageWithExpiry at 1. cbv zeta.
  destruct (expiry_time (default (JS.Whole 60) minutes') now') as [expiryTime'|];
    cbn [snd not_modelled setItem localStorage with_storage].
  - rewrite lookup_insert_ne by congruence. apply lookup_insert_eq.
  - apply lookup_insert_eq.
Qed.

Lemma expiring_values_are_independent_witness :
  let first :=
    snd (setStorageWithExpiry "a" (Some (JNum 1)) (Some (JS.Whole 1)) 0 fresh_page) in
  let both :=
    snd (setStorageWithExpiry "b" (Some (JNum 2)) (Some JS.PosInfinity) 0 first) in
  getStorageWithExpiry "a" 60000 both = (Return (Some (JNum 1)), both).
Proof.
  apply (expiring_values_are_independent "a" (Some (JNum 1)) (Some (JS.Whole 1)) 0
           (JS.Whole 60000) "b" (Some (JNum 2)) (Some JS.PosInfinity) 0 60000
           fresh_page); [discriminate | reflexivity].
Defined.

(** X30: an entry meant never to expire is lost at once. With
    [expiryMinutes] plus infinity or NaN the expiry time is not finite,
    [JSON.stringify] stores it as [null], and the first read after the
    epoch returns [null] and removes the key. *)
Theorem non_finite_expiry_is_lost key value minutes now now' p :
  minutes = JS.PosInfinity \/ minutes = JS.NaN ->
  JS.exact now = true ->
  0 < now' ->
  let written := snd (setStorageWithExpiry key value (Some minutes) now p) in
  localStorage written !! key =
    Some (JSON.stringify
            (JObj (match value with
                   | Some v => [("value", v)]
                   | None => []
                   end ++ [("expiry", JNull)]))) /\
  getStorageWithExpiry key now' written =
    (Return (Some JNull), with_storage (delete key) written).
Proof.
  intros Hminutes Hnow Hepoch. cbv zeta.
  assert (Htime : exists expiryTime,
            expiry_time (default (JS.Whole 60) (Some minutes)) now = Some expiryTime /\
            JS.number_to_json expiryTime = JNull /\
            expired expiryTime now' = true).
  { change (default (JS.Whole 60) (Some minutes)) with minutes.
    destruct Hminutes as [-> | ->]; unfold expiry_time.
    - change (JS.times JS.PosInfinity (JS.Whole 60)) with (Some JS.PosInfinity).
      change (JS.times JS.PosInfinity (JS.Whole 1000)) with (Some JS.PosInfinity).
      cbn [JS.plus]. rewrite Hnow.
      exists JS.PosInfinity. repeat split. now apply Z.ltb_lt.
    - exists JS.NaN. repeat split. now apply Z.ltb_lt. }
  destruct Htime as (expiryTime & Htime & Hjson & Hexpired).
  rewrite (read_after_write _ _ _ _ _ _ _ Htime), Hexpired.
  rewrite (setStorageWithExpiry_run _ _ _ _ _ _ Htime). cbn [snd localStorage with_storage].
  split; [|reflexivity].
  rewrite lookup_insert_eq. unfold expiring_entry. now rewrite Hjson.
Qed.

Lemma non_finite_expiry_is_lost_witness :
  let written :=
    snd (setStorageWithExpiry "x" (Some (JStr "kept")) (Some JS.PosInfinity)
           1700000000000 fresh_page) in
  getStorageWithExpiry "x" 1700000000000 written =
    (Return (Some JNull), with_storage (delete "x") written).
Proof.
  refine (proj2 (non_finite_expiry_is_lost "x" (Some (JStr "kept")) JS.PosInfinity
                   1700000000000 1700000000000 fresh_page _ _ _));
    first [now left | reflexivity].
Defined.

(** ** Object members *)





(** ** Reading the login state *)






(** ** Logging out, and rendering while logged out *)

(** X7: [logout] always completes, and navigates last. From any page
    (also one whose stored record is corrupt) it returns without
    throwing; what it does, in this order, is: remove the flag, remove
    the record, dispatch [user:logout], put the login link in the auth
    container when there is one, navigate to the site root. *)
Theorem logout_always_completes reparse p :
  Full.logout reparse p =
  (Return tt,
   {| localStorage :=
        delete (userDataKey CONFIG) (delete (storageKey CONFIG) (localStorage p));
      document :=
        match document p !! authSelector with
        | Some _ =>
            <[authSelector := loginMarkup]>
              (reparse authSelector loginMarkup (document p))
        | None => document p
        end;
      trace :=
        trace p ++
        [StorageRemoved (storageKey CONFIG); StorageRemoved (userDataKey CONFIG);
         Dispatched "user:logout" JNull] ++
        match document p !! authSelector with
        | Some _ => [MarkupSet authSelector loginMarkup]
        | None => []
        end ++ [Navigated "/"] |}).
Proof.
  unfold Full.logout, bind, Full.removeItem, dispatchEvent, set_location_href,
    emit_event.
  rewrite full_updateAuthUI_unfold.
  cbn [document localStorage with_event with_storage].
  unfold auth_markup. rewrite flag_after_removal.
  destruct (document p !! authSelector) as [old|];
    unfold with_event, with_document, with_storage; cbn;
    rewrite <- !app_assoc; reflexivity.
Qed.

(** X8: only the exact flag ['true'] counts as logged in. With any other
    flag, or none, [updateAuthUI] shows the login link when an auth
    container exists, and never reads the stored record: a corrupt record
    does no harm while logged out. *)
Theorem logged_out_ignores_record p :
  localStorage p !! storageKey CONFIG <> Some "true" ->
  is_Some (document p !! authSelector) ->
  updateAuthUI p = (Return tt, with_document (insert authSelector loginMarkup) p).
Proof.
  intros Hflag [old Hc]. rewrite updateAuthUI_unfold, Hc.
  unfold auth_markup, flag_is_true.
  destruct (localStorage p !! storageKey CONFIG) as [v|]; [|reflexivity].
  destruct (String.eqb_spec v "true") as [->|Hv]; [congruence | reflexivity].
Qed.

Lemma logged_out_ignores_record_witness :
  updateAuthUI page_with_plain_entries =
  (Return tt, with_document (insert authSelector loginMarkup) page_with_plain_entries).
Proof.
  apply logged_out_ignores_record; [discriminate | eexists; reflexivity].
Defined.

(** X9: [login], [logout] and [updateAuthUI] leave every storage key
    other than the two auth keys as it was. *)
Theorem auth_actions_keep_other_keys key userData loginTime p :
  key <> storageKey CONFIG ->
  key <> userDataKey CONFIG ->
  localStorage (snd (login userData loginTime p)) !! key = localStorage p !! key /\
  localStorage (snd (logout p)) !! key = localStorage p !! key /\
  localStorage (snd (updateAuthUI p)) !! key = localStorage p !! key.
Proof.
  intros Hflag Hdata.
  rewrite login_storage, logout_storage, storage_updateAuthUI.
  rewrite !lookup_insert_ne, !lookup_delete_ne by congruence. auto.
Qed.

Lemma auth_actions_keep_other_keys_witness :
  localStorage (snd (login None "2024-05-01T10:00:00.000Z" fresh_page)) !! "theme"
    = Some "dark" /\
  localStorage (snd (logout fresh_page)) !! "theme" = Some "dark" /\
  localStorage (snd (updateAuthUI fresh_page)) !! "theme" = Some "dark".
Proof.
  apply (auth_actions_keep_other_keys "theme" None "2024-05-01T10:00:00.000Z"
           fresh_page); discriminate.
Defined.

(** ** Rendering after a login *)





Lemma escapeHTML_has_no_angle s x :
  In x (list_ascii_of_string (escapeHTML s)) -> x <> "<"%char /\ x <> ">"%char.
Proof.
  rewrite escapeHTML_text.
  induction s as [|c s IH]; cbn [DOM.escape_text]; [intros []|].
  rewrite list_ascii_append, in_app_iff.
  intros [H|H]; [exact (escape_char_no_angle c x H) | exact (IH H)].
Qed.

(** X11: what storage holds reaches the page as text only. Whenever
    [updateAuthUI] renders into an auth container, the container holds
    either the fixed login link or the fixed welcome block around an
    escaped name, and that name contains neither [<] nor [>], whatever
    the stored record is. *)
Theorem rendered_name_is_escaped p :
  is_Some (document p !! authSelector) ->
  fst (updateAuthUI p) = Return tt ->
  document (snd (updateAuthUI p)) !! authSelector = Some loginMarkup \/
  exists name,
    document (snd (updateAuthUI p)) !! authSelector =
      Some (welcomeMarkup (escapeHTML name)) /\
    forall x, In x (list_ascii_of_string (escapeHTML name)) ->
              x <> "<"%char /\ x <> ">"%char.
Proof.
  intros [old Hc]. rewrite updateAuthUI_unfold, Hc.
  unfold auth_markup. destruct (flag_is_true (localStorage p)).
  - destruct (stored_user (localStorage p)) as [userData| e |];
      [|discriminate..].
    destruct (display_name userData) as [name|]; [|discriminate].
    intros _. right. exists name. split.
    + cbn. apply lookup_insert_eq.
    + apply escapeHTML_has_no_angle.
  - intros _. left. cbn. apply lookup_insert_eq.
Qed.

Lemma rendered_name_is_escaped_witness :
  let p := page_of [("user_logged_in", "true");
                    ("user_data", JSON.stringify (JObj [("username", JStr "<script>")]))]
                   [(".auth-container", "")] in
  document (snd (updateAuthUI p)) !! authSelector = Some loginMarkup \/
  exists name,
    document (snd (updateAuthUI p)) !! authSelector =
      Some (welcomeMarkup (escapeHTML name)) /\
    forall x, In x (list_ascii_of_string (escapeHTML name)) ->
              x <> "<"%char /\ x <> ">"%char.
Proof.
  apply rendered_name_is_escaped; [eexists; reflexivity | reflexivity].
Defined.

(** ** HTML escaping: composition and what is left unchanged *)

Lemma escape_char_cases c :
  (c = "&"%char /\ DOM.escape_char c = "&amp;") \/
  (c = nbsp /\ DOM.escape_char c = "&nbsp;") \/
  (c = "<"%char /\ DOM.escape_char c = "&lt;") \/
  (c = ">"%char /\ DOM.escape_char c = "&gt;") \/
  (needs_escape c = false /\ DOM.escape_char c = str1 c).
Proof.
  unfold DOM.escape_char, needs_escape, eqc.
  destruct (Ascii.eqb_spec c "&"); [auto|].
  destruct (Ascii.eqb_spec c nbsp); [auto|].
  destruct (Ascii.eqb_spec c "<"); [auto 6|].
  destruct (Ascii.eqb_spec c ">"); [auto 6|].
  auto 7.
Qed.

Lemma escape_text_length s :
  (String.length s <= String.length (DOM.escape_text s))%nat.
Proof.
  induction s as [|c s IH]; [reflexivity|]. cbn [DOM.escape_text].
  destruct (escape_char_cases c) as [[_ ->]|[[_ ->]|[[_ ->]|[[_ ->]|[_ ->]]]]];
    cbv [String.append str1]; cbn [String.length]; lia.
Qed.

Lemma escape_text_injective a b :
  DOM.escape_text a = DOM.escape_text b -> a = b.
Proof.
  revert b. induction a as [|c a IH]; intros [|d b]; cbn [DOM.escape_text].
  - reflexivity.
  - destruct (escape_char_cases d) as [[_ ->]|[[_ ->]|[[_ ->]|[[_ ->]|[_ ->]]]]];
      discriminate.
  - destruct (escape_char_cases c) as [[_ ->]|[[_ ->]|[[_ ->]|[[_ ->]|[_ ->]]]]];
      discriminate.
  - destruct (escape_char_cases c) as [[-> ->]|[[-> ->]|[[-> ->]|[[-> ->]|[Hc ->]]]]];
      destruct (escape_char_cases d) as [[-> ->]|[[-> ->]|[[-> ->]|[[-> ->]|[Hd ->]]]]];
      cbv [String.append str1]; intros H;
      try discriminate H;
      try (injection H as H; f_equal; apply IH; exact H);
      try (injection H as <- H; discriminate Hd);
      try (injection H as -> H; discriminate Hc).
    injection H as <- H. f_equal. apply IH. exact H.
Qed.

(** X12: [escapeHTML] distributes over concatenation and loses nothing:
    the escaped form of [a + b] is the escaped form of [a] followed by
    that of [b], and two texts with the same escaped form are the same
    text. *)
Theorem escapeHTML_composes_and_is_injective :
  (forall a b, escapeHTML (a +:+ b) = escapeHTML a +:+ escapeHTML b) /\
  (forall a b, escapeHTML a = escapeHTML b -> a = b).
Proof.
  split; intros a b; rewrite !escapeHTML_text.
  - apply escape_text_append.
  - apply escape_text_injective.
Qed.

(** X13: [escapeHTML] returns its argument unchanged exactly when the
    argument contains none of [&], [<], [>] and U+00A0. *)
Theorem escapeHTML_fixes_plain_text s :
  escapeHTML s = s <->
  forall c, In c (list_ascii_of_string s) -> needs_escape c = false.
Proof.
  rewrite escapeHTML_text. induction s as [|c s IH]; cbn [DOM.escape_text].
  - split; [intros _ c [] | reflexivity].
  - pose proof (escape_text_length s) as Hlen.
    destruct (escape_char_cases c) as [[-> ->]|[[-> ->]|[[-> ->]|[[-> ->]|[Hc ->]]]]];
      cbv [String.append str1]; cbn [list_ascii_of_string].
    + split; [intros [= H]|intros H; now specialize (H "&"%char (or_introl eq_refl))].
      apply (f_equal String.length) in H. cbn [String.length] in H. lia.
    + split; [intros [= H]|intros H; now specialize (H nbsp (or_introl eq_refl))].
    + split; [intros [= H]|intros H; now specialize (H "<"%char (or_introl eq_refl))].
    + split; [intros [= H]|intros H; now specialize (H ">"%char (or_introl eq_refl))].
    + split.
      * intros [= H] x [<-|Hx]; [exact Hc | now apply IH].
      * intros H. f_equal. apply IH. intros x Hx. apply H. now right.
Qed.

(** ** Template loading: the success path and what is left alone *)

Lemma lookup_set_innerHTML_other sel sel' markup :
  sel <> sel' -> preserves (fun p => document p !! sel') (set_innerHTML sel markup).
Proof.
  intros Hne p. unfold set_innerHTML.
  destruct (document p !! sel); [|reflexivity].
  cbn. now rewrite lookup_insert_ne.
Qed.

Lemma lookup_emit_event sel e : preserves (fun p => document p !! sel) (emit_event e).
Proof. intros p. reflexivity. Qed.

Lemma storage_loadTemplates network : preserves localStorage (loadTemplates network).
Proof.
  unfold loadTemplates, fetch, attachHeaderEventListeners, console_error. frame.
Qed.

Lemma lookup_loadTemplates_other network selector :
  selector <> headerSelector CONFIG -> selector <> footerSelector CONFIG ->
  preserves (fun p => document p !! selector) (loadTemplates network).
Proof.
  intros Hh Hf.
  pose proof (lookup_emit_event selector) as Hev.
  pose proof (fun m => lookup_set_innerHTML_other (headerSelector CONFIG) selector m
                         (not_eq_sym Hh)) as Hset_h.
  pose proof (fun m => lookup_set_innerHTML_other (footerSelector CONFIG) selector m
                         (not_eq_sym Hf)) as Hset_f.
  unfold loadTemplates, fetch, attachHeaderEventListeners, console_error. frame.
Qed.

(** *** What a call adds to the trace, and whether it ends *)

Lemma adds_only_silent {A} allowed (m : M A) :
  preserves trace m -> adds_only allowed m.
Proof.
  intros H p. exists []. rewrite app_nil_r. split; [apply H | reflexivity].
Qed.

Lemma adds_only_bind {A B} allowed (m : M A) (k : A -> M B) :
  adds_only allowed m -> (forall a, adds_only allowed (k a)) ->
  adds_only allowed (bind m k).
Proof.
  intros Hm Hk p. destruct (Hm p) as (l1 & H1 & D1). unfold bind.
  destruct (m p) as [[a|e|] p']; cbn [snd] in *; try (exists l1; now split).
  destruct (Hk a p') as (l2 & H2 & D2). exists (l1 ++ l2). split.
  - now rewrite H2, H1, app_assoc.
  - now rewrite forallb_app, D1, D2.
Qed.

Lemma adds_only_try_catch {A} allowed (m : M A) h :
  adds_only allowed m -> (forall e, adds_only allowed (h e)) ->
  adds_only allowed (try_catch m h).
Proof.
  intros Hm Hh p. destruct (Hm p) as (l1 & H1 & D1). unfold try_catch.
  destruct (m p) as [[a|e|] p']; cbn [snd] in *; try (exists l1; now split).
  destruct (Hh e p') as (l2 & H2 & D2). exists (l1 ++ l2). split.
  - now rewrite H2, H1, app_assoc.
  - now rewrite forallb_app, D1, D2.
Qed.

Lemma adds_only_emit_event allowed e :
  allowed e = true -> adds_only allowed (emit_event e).
Proof. intros He p. exists [e]. cbn. now rewrite He. Qed.

Lemma adds_only_full_set_innerHTML allowed reparse sel markup :
  allowed (MarkupSet sel markup) = true ->
  adds_only allowed (Full.set_innerHTML reparse sel markup).
Proof.
  intros He p. unfold Full.set_innerHTML.
  destruct (document p !! sel).
  - exists [MarkupSet sel markup]. cbn. now rewrite He.
  - exists []. now rewrite app_nil_r.
Qed.

(** Splits a call along its binds and case distinctions and closes the
    leaves: a recorded event is of the allowed kind, any other call
    leaves the trace alone. *)
Ltac effects :=
  repeat first
    [ apply adds_only_emit_event; reflexivity
    | apply adds_only_full_set_innerHTML; reflexivity
    | apply adds_only_silent; solve [frame]
    | apply adds_only_bind; [|intros ?]
    | apply adds_only_try_catch; [|intros ?]
    | match goal with
      | |- adds_only _ (match ?x with _ => _ end) => destruct x
      | |- adds_only _ (if ?b then _ else _) => destruct b
      end ].

Lemma completes_ret {A} (a : A) : completes (ret a).
Proof. intros p. discriminate. Qed.

Lemma completes_throw {A} e : completes (@throw A e).
Proof. intros p. discriminate. Qed.

Lemma completes_bind {A B} (m : M A) (k : A -> M B) :
  completes m -> (forall a, completes (k a)) -> completes (bind m k).
Proof.
  intros Hm Hk p. specialize (Hm p). unfold bind.
  destruct (m p) as [[a|e|] p']; cbn [fst] in *;
    [apply Hk | discriminate | contradiction].
Qed.

Lemma completes_emit_event e : completes (emit_event e).
Proof. intros p. discriminate. Qed.

Lemma completes_querySelector sel : completes (querySelector sel).
Proof. intros p. discriminate. Qed.

Lemma completes_text r : completes (text r).
Proof. unfold text. intros p. destruct (content r); discriminate. Qed.

Lemma completes_full_set_innerHTML reparse sel markup :
  completes (Full.set_innerHTML reparse sel markup).
Proof.
  intros p. unfold Full.set_innerHTML. destruct (document p !! sel); discriminate.
Qed.

(** A [try] whose body ends within the model and whose [catch] only
    logs returns. *)
Lemma try_catch_returns (body : M unit) h :
  completes body -> (forall e p, fst (h e p) = Return tt) ->
  forall p, fst (try_catch body h p) = Return tt.
Proof.
  intros Hbody Hh p. specialize (Hbody p). unfold try_catch.
  destruct (body p) as [[[]|e|] p']; cbn [fst] in *;
    [reflexivity | apply Hh | contradiction].
Qed.

(** *** The template loader and the browser's parser *)

Lemma storage_full_set_innerHTML reparse sel markup :
  preserves localStorage (Full.set_innerHTML reparse sel markup).
Proof.
  intros p. unfold Full.set_innerHTML. now destruct (document p !! sel).
Qed.

Lemma full_loadTemplates_storage reparse network :
  preserves localStorage (Full.loadTemplates reparse network).
Proof.
  pose proof (storage_full_set_innerHTML reparse) as Hset.
  unfold Full.loadTemplates, Full.attachHeaderEventListeners, Full.listen, fetch,
    console_error.
  frame.
Qed.

Lemma full_loadTemplates_effects reparse network :
  adds_only Full.template_effect (Full.loadTemplates reparse network).
Proof.
  unfold Full.loadTemplates, Full.attachHeaderEventListeners, Full.listen, fetch,
    console_error.
  effects.
Qed.

(** [Full.loadTemplates] never throws: what its [try] block throws, its
    [catch] logs. *)
Lemma full_loadTemplates_returns reparse network p :
  fst (Full.loadTemplates reparse network p) = Return tt.
Proof.
  unfold Full.loadTemplates. apply try_catch_returns; [|reflexivity].
  unfold Full.attachHeaderEventListeners, Full.listen, fetch, console_error.
  repeat first
    [ apply completes_ret
    | apply completes_throw
    | apply completes_emit_event
    | apply completes_querySelector
    | apply completes_text
    | apply completes_full_set_innerHTML
    | apply completes_bind; [|intros ?]
    | match goal with
      | |- completes (match ?x with _ => _ end) => destruct x
      | |- completes (if ?b then _ else _) => destruct b
      end ].
Qed.

Lemma full_listen_run selector p :
  Full.listen selector p =
  (Return tt,
   match document p !! selector with
   | Some _ => with_event (ListenerAdded selector) p
   | None => p
   end).
Proof.
  unfold Full.listen, bind, querySelector.
  now destruct (document p !! selector).
Qed.

(** The listeners are added on the document as it is at the call. *)
Lemma full_attach_run p :
  Full.attachHeaderEventListeners p =
  (Return tt,
   {| localStorage := localStorage p;
      document := document p;
      trace := trace p ++ Full.listeners (document p) ++ [HeaderListenersAttached] |}).
Proof.
  unfold Full.listeners. cbn [flat_map].
  destruct (document p !! ".login-btn") eqn:E1,
           (document p !! ".logout-btn") eqn:E2,
           (document p !! ".menu-toggle") eqn:E3;
    unfold Full.attachHeaderEventListeners, bind;
    rewrite full_listen_run, E1; rewrite full_listen_run;
    cbn [document with_event]; rewrite E2; rewrite full_listen_run;
    cbn [document with_event]; rewrite E3;
    unfold emit_event, with_event; cbn; rewrite <- ?app_assoc; reflexivity.
Qed.

(** X14: the success path of the template loader, step by step. When
    both templates are fetched with a success status and a readable
    body, the header container exists and the footer container exists
    once the header is in, [loadTemplates] returns, and what it has done,
    in this order, is: request the header, assign its text to the header
    container, add a [click] listener on each of the login button, the
    logout button and the menu toggle that the document has after that
    assignment, request the footer, assign its text to the footer
    container. Nothing is logged and storage is untouched. *)
Theorem loadTemplates_injects_fetched_templates reparse network p st th st' tf :
  let header := headerSelector CONFIG in
  let footer := footerSelector CONFIG in
  let with_header := <[header := th]> (reparse header th (document p)) in
  network (template_url Header) = Responds st (BodyText th) ->
  ok {| status := st; content := BodyText th |} = true ->
  network (template_url Footer) = Responds st' (BodyText tf) ->
  ok {| status := st'; content := BodyText tf |} = true ->
  is_Some (document p !! header) ->
  is_Some (with_header !! footer) ->
  Full.loadTemplates reparse network p =
  (Return tt,
   {| localStorage := localStorage p;
      document := <[footer := tf]> (reparse footer tf with_header);
      trace := trace p ++
               [FetchStarted (template_url Header); FetchSettled (template_url Header);
                MarkupSet header th] ++
               Full.listeners with_header ++
               [HeaderListenersAttached;
                FetchStarted (template_url Footer); FetchSettled (template_url Footer);
                MarkupSet footer tf] |}).
Proof.
  cbv zeta. intros Hh Hokh Hf Hokf [oldh Hch] [oldf Hcf].
  unfold Full.loadTemplates, try_catch.
  unfold bind at 1. unfold fetch at 1, bind, emit_event.
  change (templatePath CONFIG +:+ headerFile CONFIG) with (template_url Header).
  change (templatePath CONFIG +:+ footerFile CONFIG) with (template_url Footer).
  rewrite Hh. cbn [ret]. rewrite Hokh. cbn [text content ret].
  unfold Full.set_innerHTML at 1. cbn [document with_event]. rewrite Hch.
  rewrite full_attach_run. cbn [document localStorage trace with_event with_document].
  unfold fetch, bind, emit_event. rewrite Hf. cbn [ret]. rewrite Hokf.
  cbn [text content ret].
  unfold Full.set_innerHTML. cbn [document with_event]. rewrite Hcf.
  unfold with_event, with_document. cbn [localStorage document trace].
  rewrite <- !app_assoc. reflexivity.
Qed.

Lemma loadTemplates_injects_fetched_templates_witness :
  trace (snd (Full.loadTemplates Full.header_brings_auth network_up
                (page_of [] [("#app-header", ""); ("#app-footer", "");
                             (".menu-toggle", "")]))) =
  [FetchStarted (template_url Header); FetchSettled (template_url Header);
   MarkupSet "#app-header" "new header";
   ListenerAdded ".menu-toggle";
   HeaderListenersAttached;
   FetchStarted (template_url Footer); FetchSettled (template_url Footer);
   MarkupSet "#app-footer" "new footer"].
Proof.
  rewrite (loadTemplates_injects_fetched_templates Full.header_brings_auth network_up
             (page_of [] [("#app-header", ""); ("#app-footer", "");
                          (".menu-toggle", "")])
             200 "new header" 200 "new footer");
    first [reflexivity | (eexists; reflexivity)].
Defined.

Lemma template_effects_dispatch_nothing added :
  forallb Full.template_effect added = true -> existsb is_dispatch added = false.
Proof.
  induction added as [|e added IH]; [reflexivity|]. cbn [forallb existsb].
  intros H. apply andb_true_iff in H as [He H]. rewrite (IH H).
  destruct e; try reflexivity. discriminate He.
Qed.

(** X15: the template loader writes markup to the header and footer
    containers and writes nothing else. Whatever the network answers and
    whatever the injected markup brings, storage is as it was, and what
    the call has added to the trace are requests, console output,
    listeners and assignments of markup to those two containers: no
    write to storage, no assignment to another element, no event
    dispatched, no navigation. *)
Theorem loadTemplates_writes_only_its_containers reparse network p :
  let after := snd (Full.loadTemplates reparse network p) in
  fst (Full.loadTemplates reparse network p) = Return tt /\
  localStorage after = localStorage p /\
  forallb Full.template_effect (new_events p after) = true.
Proof.
  cbv zeta. split; [apply full_loadTemplates_returns|].
  split; [apply full_loadTemplates_storage|].
  destruct (full_loadTemplates_effects reparse network p) as (added & Htrace & Hok).
  now rewrite (new_events_app _ _ _ Htrace).
Qed.

(** ** Button loading state *)

(** X16: a loading cycle gives the label back, with two exceptions the
    code makes. [setButtonLoading(button)] disables the button and shows
    [Loading...]; [resetButtonLoading] after it enables the button
    (whether or not it was enabled before) and restores the label, except
    that an empty label comes back as [Submit]. *)
Theorem button_loading_cycle button :
  let loading := setButtonLoading button None in
  let restored := resetButtonLoading loading in
  disabled loading = true /\ textContent loading = "Loading..." /\
  disabled restored = false /\
  textContent restored =
    (if String.eqb (textContent button) EmptyString then "Submit"
     else textContent button).
Proof.
  destruct button as [d label saved]. destruct label; repeat split.
Qed.

(** X17: the saved label is overwritten by every loading call and kept
    by every reset. A second [setButtonLoading(button)] before the reset
    saves [Loading...] as the label to restore, so the reset shows
    [Loading...]; a button that was never loading is reset to [Submit];
    and a reset after a reset changes nothing. *)
Theorem button_saved_label_is_not_guarded button :
  textContent (resetButtonLoading (setButtonLoading (setButtonLoading button None) None))
    = "Loading..." /\
  (dataset_originalText button = None ->
   textContent (resetButtonLoading button) = "Submit") /\
  resetButtonLoading (resetButtonLoading button) = resetButtonLoading button.
Proof.
  destruct button as [d label [[|c s]|]]; repeat split; discriminate.
Qed.

(** ** Lazy loading *)

Lemma deferred_from_spec l : forall k i,
  i ∈ deferred_from k l <->
  exists img, (k <= i)%nat /\ l !! (i - k)%nat = Some img /\ is_deferred img = true.
Proof.
  induction l as [|x l IH]; intros k i; cbn [deferred_from].
  - split; [intros H; inversion H | intros (img & _ & H & _); discriminate H].
  - assert (Htail : i ∈ deferred_from (S k) l <->
              exists img, (k < i)%nat /\ (x :: l) !! (i - k)%nat = Some img /\
                          is_deferred img = true).
    { rewrite IH. split; intros (img & Hk & Hl & Hd); exists img;
        (split; [lia|]); (split; [|exact Hd]).
      - replace (i - k)%nat with (S (i - S k)) by lia. exact Hl.
      - replace (i - k)%nat with (S (i - S k)) in Hl by lia. exact Hl. }
    destruct (is_deferred x) eqn:Hx.
    + rewrite elem_of_cons, Htail. split.
      * intros [->|(img & Hk & Hl & Hd)].
        -- exists x. rewrite Nat.sub_diag. auto.
        -- exists img. split; [lia|]. auto.
      * intros (img & Hk & Hl & Hd).
        destruct (decide (i = k)) as [->|Hne]; [now left|].
        right. exists img. split; [lia|]. auto.
    + rewrite Htail. split.
      * intros (img & Hk & Hl & Hd). exists img. split; [lia|]. auto.
      * intros (img & Hk & Hl & Hd). exists img. split; [|auto].
        destruct (decide (i = k)) as [->|Hne]; [|lia].
        rewrite Nat.sub_diag in Hl. injection Hl as <-. congruence.
Qed.

Lemma deferred_images_spec g i :
  i ∈ deferred_images g <->
  exists img, images g !! i = Some img /\ is_deferred img = true.
Proof.
  unfold deferred_images. rewrite deferred_from_spec. rewrite Nat.sub_0_r.
  split.
  - intros (img & _ & H). exists img. exact H.
  - intros (img & H). exists img. split; [lia | exact H].
Qed.

(** X18: without [IntersectionObserver], [setupLazyLoading] resolves
    every deferred image at once: an image with a [data-src] gets it as
    its [src] and loses the attribute, an image without one is left as it
    is, so no image is deferred afterwards; no observer is created, and
    running the setup again changes nothing. *)
Theorem lazy_fallback_resolves_every_image g :
  let g' := setupLazyLoading false g in
  (forall i img source,
     images g !! i = Some img -> data_src img = Some source ->
     images g' !! i = Some {| src := Some source; data_src := None |}) /\
  (forall i img,
     images g !! i = Some img -> data_src img = None ->
     images g' !! i = Some img) /\
  deferred_images g' = [] /\
  observers g' = observers g /\
  setupLazyLoading false g' = g'.
Proof.
  cbv zeta. cbn [setupLazyLoading images observers].
  assert (Hres : forall img, (if is_deferred img then resolve img else img) = resolve img).
  { intros img. unfold is_deferred, resolve. now destruct (data_src img). }
  assert (Hnone : forall l k,
            deferred_from k (map (fun img => if is_deferred img then resolve img else img) l)
            = []).
  { induction l as [|x l IH]; intros k; [reflexivity|].
    cbn [map deferred_from]. rewrite Hres.
    replace (is_deferred (resolve x)) with false; [apply IH|].
    unfold is_deferred, resolve.
    destruct (data_src x) eqn:E; cbn; rewrite ?E; reflexivity. }
  repeat split.
  - intros i img source Hi Hs. rewrite list_lookup_fmap, Hi. cbn.
    rewrite Hres. unfold resolve. now rewrite Hs.
  - intros i img Hi Hs. rewrite list_lookup_fmap, Hi. cbn.
    rewrite Hres. unfold resolve. now rewrite Hs.
  - apply Hnone.
  - f_equal. rewrite <- list_fmap_compose. apply list_fmap_ext.
    intros i x _. cbn. rewrite !Hres. unfold resolve.
    destruct (data_src x) eqn:E; cbn; [reflexivity | now rewrite E].
Qed.

(** One entry of the callback, at the image number [j]. *)
Lemma handle_entry_lookup o g entry j :
  images (handle_entry o g entry) !! j =
  match images g !! j with
  | Some img =>
      if bool_decide (entry = (j, true)) && has_source img
      then Some (resolve img) else Some img
  | None => None
  end.
Proof.
  destruct entry as [target [|]]; cbn [handle_entry images].
  - destruct (decide (target = j)) as [->|Hne].
    + rewrite bool_decide_eq_true_2 by reflexivity. cbn [andb].
      destruct (images g !! j) as [img|] eqn:Hj; [|exact Hj].
      unfold has_source. destruct (data_src img) as [[|c s]|]; try exact Hj.
      apply list_lookup_insert_eq. now apply lookup_lt_Some in Hj.
    + rewrite bool_decide_eq_false_2 by congruence. cbn [andb].
      assert (Hsame : forall l, <[target := l]> (images g) !! j = images g !! j)
        by (intros l; now apply list_lookup_insert_ne).
      destruct (images g !! target) as [img|];
        [destruct (data_src img) as [[|c s]|]|]; rewrite ?Hsame;
        now destruct (images g !! j).
  - rewrite bool_decide_eq_false_2 by congruence. now destruct (images g !! j).
Qed.

Lemma resolve_has_no_source img : has_source (resolve img) = false.
Proof. unfold has_source, resolve. now destruct (data_src img) eqn:E; cbn; rewrite ?E. Qed.

Lemma handle_entry_keeps_no_source o g entry j :
  no_source_at g j -> no_source_at (handle_entry o g entry) j.
Proof.
  intros Hj img. rewrite handle_entry_lookup.
  destruct (images g !! j) as [old|] eqn:E; [|discriminate].
  rewrite (Hj old E), andb_false_r. intros [= <-]. now apply Hj.
Qed.

Lemma handle_entry_settles_target o g target :
  no_source_at (handle_entry o g (target, true)) target.
Proof.
  intros img. rewrite handle_entry_lookup.
  destruct (images g !! target) as [old|]; [|discriminate].
  rewrite bool_decide_eq_true_2 by reflexivity. cbn [andb].
  destruct (has_source old) eqn:E; intros [= <-];
    [apply resolve_has_no_source | exact E].
Qed.

Lemma on_intersection_cons o e entries g :
  on_intersection o (e :: entries) g = on_intersection o entries (handle_entry o g e).
Proof. reflexivity. Qed.

Lemma on_intersection_keeps_no_source o entries : forall g j,
  no_source_at g j -> no_source_at (on_intersection o entries g) j.
Proof.
  induction entries as [|e entries IH]; intros g j Hj; [exact Hj|].
  rewrite on_intersection_cons. apply IH, handle_entry_keeps_no_source, Hj.
Qed.

Lemma on_intersection_settles_targets o entries : forall g target,
  (target, true) ∈ entries -> no_source_at (on_intersection o entries g) target.
Proof.
  induction entries as [|e entries IH]; intros g target Hin; [inversion Hin|].
  rewrite on_intersection_cons. apply elem_of_cons in Hin as [<-|Hin].
  - apply on_intersection_keeps_no_source, handle_entry_settles_target.
  - now apply IH.
Qed.

Lemma handle_entry_observers o g entry o' :
  o' <> o -> observers (handle_entry o g entry) !! o' = observers g !! o'.
Proof.
  intros Hne. destruct entry as [target [|]]; [|reflexivity].
  cbn [handle_entry observers]. now apply list_lookup_alter_ne.
Qed.

(** X19: the callback of an observer touches only what it was told
    about. After [on_intersection] for any list of entries, an image that
    is not the target of an intersecting entry is as it was; an image
    whose [data-src] is absent or empty is as it was even when it
    intersects (it is only unobserved); the targets of every other
    observer are as they were; and every target of an intersecting entry
    has no source left to load. *)
Theorem intersection_callback_touches_only_its_targets o entries g :
  let g' := on_intersection o entries g in
  (forall j, (j, true) ∉ entries -> images g' !! j = images g !! j) /\
  (forall j img, images g !! j = Some img -> has_source img = false ->
                 images g' !! j = Some img) /\
  (forall o', o' <> o -> observers g' !! o' = observers g !! o') /\
  (forall j, (j, true) ∈ entries -> no_source_at g' j).
Proof.
  cbv zeta. repeat split.
  - revert g. induction entries as [|e entries IH]; intros g j Hj; [reflexivity|].
    apply not_elem_of_cons in Hj as [Hne Hj].
    rewrite on_intersection_cons.
    rewrite IH by exact Hj. rewrite handle_entry_lookup.
    rewrite bool_decide_eq_false_2 by congruence.
    now destruct (images g !! j).
  - revert g. induction entries as [|e entries IH]; intros g j img Hj Hs; [exact Hj|].
    rewrite on_intersection_cons.
    apply IH; [|exact Hs]. rewrite handle_entry_lookup, Hj, Hs.
    now rewrite andb_false_r.
  - revert g. induction entries as [|e entries IH]; intros g o' Hne; [reflexivity|].
    rewrite on_intersection_cons.
    rewrite IH by exact Hne. now apply handle_entry_observers.
  - intros j Hj. now apply on_intersection_settles_targets.
Qed.

Lemma on_intersection_nothing_to_load o entries : forall g,
  (forall target, (target, true) ∈ entries -> no_source_at g target) ->
  images (on_intersection o entries g) = images g.
Proof.
  induction entries as [|e entries IH]; intros g Hall; [reflexivity|].
  rewrite on_intersection_cons.
  assert (Hstep : images (handle_entry o g e) = images g).
  { apply list_eq. intros j. rewrite handle_entry_lookup.
    destruct (images g !! j) as [img|] eqn:Hj; [|reflexivity].
    destruct (decide (e = (j, true))) as [->|Hne].
    - rewrite (Hall j (list_elem_of_here _ _) img Hj). now rewrite andb_false_r.
    - now rewrite bool_decide_eq_false_2 by exact Hne. }
  rewrite IH; [exact Hstep|].
  intros target Hin. apply handle_entry_keeps_no_source, Hall. now right.
Qed.

(** X20: several observers on the same images do no harm. Every run of
    [setupLazyLoading] creates an observer of its own, so one
    intersection may be reported to several of them; the callback of a
    second observer for the same entries finds nothing left to load and
    changes no image. *)
Theorem second_observer_changes_no_image o o' entries g :
  images (on_intersection o' entries (on_intersection o entries g)) =
  images (on_intersection o entries g).
Proof.
  apply on_intersection_nothing_to_load.
  intros target Hin. now apply on_intersection_settles_targets.
Qed.

(** X21: an image is loaded once, by the observer that was set up for it.
    After [setupLazyLoading] with [IntersectionObserver] available no
    image has changed and the new observer watches exactly the images
    with a [data-src]; when one of them, with a non-empty [data-src],
    intersects, it gets that value as its [src] and loses the attribute,
    every other image is as it was, the observer no longer watches it,
    and a later [setupLazyLoading] does not select it again. *)
Theorem visible_image_is_loaded_once g i img source :
  images g !! i = Some img -> data_src img = Some source -> source <> EmptyString ->
  let o := length (observers g) in
  let observed := setupLazyLoading true g in
  let loaded := on_intersection o [(i, true)] observed in
  images observed = images g /\
  observers observed !! o = Some (list_to_set (deferred_images g)) /\
  i ∈ deferred_images g /\
  images loaded !! i = Some {| src := Some source; data_src := None |} /\
  (forall j, j <> i -> images loaded !! j = images g !! j) /\
  observers loaded !! o = Some (list_to_set (deferred_images g) ∖ {[i]}) /\
  i ∉ deferred_images loaded.
Proof.
  intros Hi Hsrc Hne. cbv zeta.
  assert (Hobs : (observers g ++ [list_to_set (deferred_images g)]) !! length (observers g)
                 = Some (list_to_set (deferred_images g) : gset nat))
    by apply list_lookup_middle, eq_refl.
  assert (Hloaded : forall j,
            images (on_intersection (length (observers g)) [(i, true)]
                      (setupLazyLoading true g)) !! j =
            if bool_decide (j = i) then Some {| src := Some source; data_src := None |}
            else images g !! j).
  { intros j. unfold on_intersection. cbn [fold_left].
    rewrite handle_entry_lookup. cbn [setupLazyLoading images].
    destruct (decide (j = i)) as [->|Hji].
    - rewrite Hi, !bool_decide_eq_true_2 by reflexivity.
      unfold has_source, resolve. rewrite Hsrc.
      destruct source; [contradiction|reflexivity].
    - rewrite !bool_decide_eq_false_2 by congruence.
      now destruct (images g !! j). }
  repeat split.
  - exact Hobs.
  - apply deferred_images_spec. exists img. split; [exact Hi|].
    unfold is_deferred. now rewrite Hsrc.
  - rewrite Hloaded. now rewrite bool_decide_eq_true_2.
  - intros j Hji. rewrite Hloaded. now rewrite bool_decide_eq_false_2.
  - unfold on_intersection. cbn [fold_left handle_entry setupLazyLoading observers].
    rewrite list_lookup_alter_eq, Hobs. reflexivity.
  - rewrite deferred_images_spec. intros (img' & Himg' & Hd).
    rewrite Hloaded, bool_decide_eq_true_2 in Himg' by reflexivity.
    injection Himg' as <-. discriminate Hd.
Qed.

Lemma visible_image_is_loaded_once_witness :
  let g := {| images := [ {| src := None; data_src := Some "a.png" |};
                          {| src := Some "logo.png"; data_src := None |} ];
              observers := [] |} in
  images (on_intersection 0 [(0%nat, true)] (setupLazyLoading true g)) !! 0%nat =
    Some {| src := Some "a.png"; data_src := None |}.
Proof.
  cbv zeta.
  refine (proj1 (proj2 (proj2 (proj2
    (visible_image_is_loaded_once
       {| images := [ {| src := None; data_src := Some "a.png" |};
                      {| src := Some "logo.png"; data_src := None |} ];
          observers := [] |}
       0%nat {| src := None; data_src := Some "a.png" |} "a.png"
       eq_refl eq_refl _))))).
  discriminate.
Defined.

(** ** Start-up *)

(** The handler is [loadTemplates] and [setupLazyLoading], then
    [updateAuthUI], and what follows depends on how that call ends. *)
Lemma onDOMContentLoaded_run network supported a :
  onDOMContentLoaded network supported a =
  let p1 := snd (loadTemplates network (app_page a)) in
  let g1 := setupLazyLoading supported (app_gallery a) in
  match updateAuthUI p1 with
  | (Return _, p2) =>
      (Return tt,
       {| app_page := with_event (Dispatched "app:ready" JNull) p2;
          app_gallery := g1;
          mutation_observers := S (mutation_observers a) |})
  | (Throw e, p2) =>
      (Return tt,
       {| app_page := with_event (ConsoleError "Error initializing app:" (Caught e)) p2;
          app_gallery := g1;
          mutation_observers := mutation_observers a |})
  | (NotModelled, p2) =>
      (NotModelled,
       {| app_page := p2; app_gallery := g1;
          mutation_observers := mutation_observers a |})
  end.
Proof.
  cbv zeta. unfold onDOMContentLoaded, catching, and_then, on_page at 1 2.
  pose proof (loadTemplates_returns network (app_page a)) as Hret.
  destruct (loadTemplates network (app_page a)) as [r p1]. cbn [fst snd] in *.
  subst r. cbn [on_gallery app_page app_gallery mutation_observers].
  destruct (updateAuthUI p1) as [[[]|e|] p2]; reflexivity.
Qed.

(** The rendering at start-up sees the storage and the auth container of
    the page the handler started from. *)
Lemma updateAuthUI_after_loadTemplates network p :
  let p1 := snd (loadTemplates network p) in
  updateAuthUI p1 =
  match document p !! authSelector with
  | None => (Return tt, p1)
  | Some _ =>
      match auth_markup (localStorage p) with
      | Return markup => (Return tt, with_document (insert authSelector markup) p1)
      | Throw e => (Throw e, p1)
      | NotModelled => (NotModelled, p1)
      end
  end.
Proof.
  cbv zeta. rewrite updateAuthUI_unfold.
  rewrite (lookup_loadTemplates_other network authSelector) by discriminate.
  now rewrite storage_loadTemplates.
Qed.

(** The handler of [Full] is its [loadTemplates] and [setupLazyLoading],
    then its [updateAuthUI] on the page as the templates left it, and
    what follows depends on how that call ends. *)
Lemma journalled_startup_run reparse network supported a :
  Full.onDOMContentLoaded reparse network supported a =
  let loaded := snd (Full.loadTemplates reparse network (app_page a)) in
  let g1 := setupLazyLoading supported (app_gallery a) in
  match Full.updateAuthUI reparse loaded with
  | (Return _, p2) =>
      (Return tt,
       {| app_page := with_event (Dispatched "app:ready" JNull) p2;
          app_gallery := g1;
          mutation_observers := S (mutation_observers a) |})
  | (Throw e, p2) =>
      (Return tt,
       {| app_page := with_event (ConsoleError "Error initializing app:" (Caught e)) p2;
          app_gallery := g1;
          mutation_observers := mutation_observers a |})
  | (NotModelled, p2) =>
      (NotModelled,
       {| app_page := p2; app_gallery := g1;
          mutation_observers := mutation_observers a |})
  end.
Proof.
  cbv zeta. unfold Full.onDOMContentLoaded, catching, and_then, on_page at 1 2.
  pose proof (full_loadTemplates_returns reparse network (app_page a)) as Hret.
  destruct (Full.loadTemplates reparse network (app_page a)) as [r p1].
  cbn [fst snd] in *. subst r.
  cbn [on_gallery app_page app_gallery mutation_observers].
  destruct (Full.updateAuthUI reparse p1) as [[[]|e|] p2]; reflexivity.
Qed.

(** X22: the page is announced ready whenever the rendering of the auth
    state returns, whatever became of the templates. Take the page as
    the template loader leaves it, with whatever the injected header and
    footer have brought or removed. When that page has no auth
    container, or the stored state renders to some markup, the
    [DOMContentLoaded] handler returns normally for every answer of the
    network; [app:ready] is the last thing it does and the only event it
    dispatches; one [MutationObserver] has been started; lazy loading
    has been set up; storage is as it was; and the auth container, when
    that page has one, holds the rendered markup. *)
Theorem startup_signals_readiness reparse network supported a :
  let loaded := snd (Full.loadTemplates reparse network (app_page a)) in
  let after := snd (Full.onDOMContentLoaded reparse network supported a) in
  document loaded !! authSelector = None \/
    (exists markup, auth_markup (localStorage (app_page a)) = Return markup) ->
  fst (Full.onDOMContentLoaded reparse network supported a) = Return tt /\
  (exists earlier,
     new_events (app_page a) (app_page after) =
       earlier ++ [Dispatched "app:ready" JNull] /\
     existsb is_dispatch earlier = false) /\
  mutation_observers after = S (mutation_observers a) /\
  app_gallery after = setupLazyLoading supported (app_gallery a) /\
  localStorage (app_page after) = localStorage (app_page a) /\
  (forall markup,
     is_Some (document loaded !! authSelector) ->
     auth_markup (localStorage (app_page a)) = Return markup ->
     document (app_page after) !! authSelector = Some markup).
Proof.
  cbv zeta. intros Hrenders. rewrite journalled_startup_run. cbv zeta.
  rewrite full_updateAuthUI_unfold.
  destruct (full_loadTemplates_effects reparse network (app_page a))
    as (earlier & Htrace & Heffects).
  pose proof (template_effects_dispatch_nothing _ Heffects) as Hnone.
  pose proof (full_loadTemplates_storage reparse network (app_page a)) as Hstorage.
  cbv beta in Hstorage. rewrite Hstorage.
  set (loaded := snd (Full.loadTemplates reparse network (app_page a))) in *.
  destruct (document loaded !! authSelector) as [old|] eqn:Hc.
  - destruct Hrenders as [Hnone'|[markup Hmarkup]]; [discriminate|].
    rewrite Hmarkup. cbn [fst snd app_page app_gallery mutation_observers].
    split; [reflexivity|]. split.
    { exists (earlier ++ [MarkupSet authSelector markup]). split.
      - apply new_events_app. cbn. rewrite Htrace. now rewrite <- !app_assoc.
      - now rewrite existsb_app, Hnone. }
    split; [reflexivity|]. split; [reflexivity|]. split; [exact Hstorage|].
    intros markup' _ [= <-]. cbn. apply lookup_insert_eq.
  - cbn [fst snd app_page app_gallery mutation_observers].
    split; [reflexivity|]. split.
    { exists earlier. split; [|exact Hnone].
      apply new_events_app. cbn. rewrite Htrace. now rewrite <- app_assoc. }
    split; [reflexivity|]. split; [reflexivity|]. split; [exact Hstorage|].
    intros markup' [x Hx]. discriminate Hx.
Qed.

Lemma startup_signals_readiness_witness :
  exists earlier,
    new_events page_with_auth_in_header
      (app_page
         (snd (Full.onDOMContentLoaded Full.header_drops_auth network_up true
                 {| app_page := page_with_auth_in_header;
                    app_gallery := {| images := []; observers := [] |};
                    mutation_observers := 0 |})))
    = earlier ++ [Dispatched "app:ready" JNull] /\
    existsb is_dispatch earlier = false.
Proof.
  refine (proj1 (proj2
    (startup_signals_readiness Full.header_drops_auth network_up true
       {| app_page := page_with_auth_in_header;
          app_gallery := {| images := []; observers := [] |};
          mutation_observers := 0 |} _))).
  left. reflexivity.
Defined.

(** X23: a stored record that makes the rendering throw stops the
    start-up half-way, silently. Take the page as the template loader
    leaves it. When that page has an auth container and the stored state
    makes [updateAuthUI] throw, the handler still returns normally: the
    exception is logged as the last thing it does, nothing is dispatched
    (so [app:ready] never is), no [MutationObserver] is started, while
    lazy loading has been set up before; storage is as it was, and the
    document is as the template loader left it. *)
Theorem startup_stops_when_rendering_throws reparse network supported a e :
  let loaded := snd (Full.loadTemplates reparse network (app_page a)) in
  let after := snd (Full.onDOMContentLoaded reparse network supported a) in
  is_Some (document loaded !! authSelector) ->
  auth_markup (localStorage (app_page a)) = Throw e ->
  fst (Full.onDOMContentLoaded reparse network supported a) = Return tt /\
  (exists earlier,
     new_events (app_page a) (app_page after) =
       earlier ++ [ConsoleError "Error initializing app:" (Caught e)] /\
     existsb is_dispatch earlier = false) /\
  mutation_observers after = mutation_observers a /\
  app_gallery after = setupLazyLoading supported (app_gallery a) /\
  localStorage (app_page after) = localStorage (app_page a) /\
  document (app_page after) = document loaded.
Proof.
  cbv zeta. intros [old Hc] Hthrow. rewrite journalled_startup_run. cbv zeta.
  rewrite full_updateAuthUI_unfold.
  destruct (full_loadTemplates_effects reparse network (app_page a))
    as (earlier & Htrace & Heffects).
  pose proof (template_effects_dispatch_nothing _ Heffects) as Hnone.
  pose proof (full_loadTemplates_storage reparse network (app_page a)) as Hstorage.
  cbv beta in Hstorage. rewrite Hstorage, Hc, Hthrow.
  cbn [fst snd app_page app_gallery mutation_observers].
  split; [reflexivity|]. split.
  { exists earlier. split; [|exact Hnone].
    apply new_events_app. cbn. rewrite Htrace. now rewrite <- app_assoc. }
  split; [reflexivity|]. split; [reflexivity|]. split; [exact Hstorage|].
  reflexivity.
Qed.

Lemma startup_stops_when_rendering_throws_witness :
  mutation_observers
    (snd (Full.onDOMContentLoaded Full.header_brings_auth network_up true
            {| app_page := page_without_container;
               app_gallery := {| images := []; observers := [] |};
               mutation_observers := 0 |})) = 0%nat.
Proof.
  refine (proj1 (proj2 (proj2
    (startup_stops_when_rendering_throws Full.header_brings_auth network_up true
       {| app_page := page_without_container;
          app_gallery := {| images := []; observers := [] |};
          mutation_observers := 0 |} SyntaxError _ _)))).
  - eexists. vm_compute. reflexivity.
  - reflexivity.
Defined.

(** X24: the [DOMContentLoaded] handler never throws. For every page,
    every answer of the network and with or without
    [IntersectionObserver], it returns normally, except where the
    rendering of the stored state is outside the model; in every case
    lazy loading has been set up and storage is as it was. *)
Theorem startup_never_throws network supported a :
  let after := snd (onDOMContentLoaded network supported a) in
  fst (onDOMContentLoaded network supported a) =
    match document (app_page a) !! authSelector,
          auth_markup (localStorage (app_page a)) with
    | Some _, NotModelled => NotModelled
    | _, _ => Return tt
    end /\
  app_gallery after = setupLazyLoading supported (app_gallery a) /\
  localStorage (app_page after) = localStorage (app_page a).
Proof.
  cbv zeta. rewrite onDOMContentLoaded_run. cbv zeta.
  rewrite updateAuthUI_after_loadTemplates. cbv zeta.
  pose proof (storage_loadTemplates network (app_page a)) as Hstorage.
  destruct (document (app_page a) !! authSelector) as [old|];
    [destruct (auth_markup (localStorage (app_page a))) as [markup|e|]|];
    cbn [fst snd app_page app_gallery]; repeat split; exact Hstorage.
Qed.

(** X25: with [IntersectionObserver] available, the callback of the
    [MutationObserver] never touches an image and never reuses an
    observer: after [n] mutations there are [n] more observers, none of
    the earlier ones is disconnected, and each of the new ones watches
    every image that has a [data-src]. *)
Theorem every_mutation_adds_an_observer n g :
  let g' := Nat.iter n (on_mutation true) g in
  images g' = images g /\
  observers g' = observers g ++ replicate n (list_to_set (deferred_images g)).
Proof.
  cbv zeta. induction n as [|n [IHi IHo]].
  - split; [reflexivity|]. cbn. now rewrite app_nil_r.
  - change (Nat.iter (S n) (on_mutation true) g)
      with (setupLazyLoading true (Nat.iter n (on_mutation true) g)).
    set (h := Nat.iter n (on_mutation true) g) in *.
    cbn [setupLazyLoading images observers].
    split; [exact IHi|].
    rewrite IHo, replicate_S_end, app_assoc. unfold deferred_images.
    now rewrite IHi.
Qed.

(** ** Toasts *)

Lemma forallb_elem_of {A} (f : A -> bool) l :
  forallb f l = true <-> forall x, x ∈ l -> f x = true.
Proof.
  induction l as [|y l IH]; cbn [forallb].
  - split; [intros _ x Hx; inversion Hx | reflexivity].
  - rewrite andb_true_iff, IH. split.
    + intros [Hy Hl] x Hx. apply elem_of_cons in Hx as [->|Hx]; auto.
    + intros H. split; [apply H; left | intros x Hx; apply H; now right].
Qed.

Lemma existsb_elem_of {A} (f : A -> bool) l :
  existsb f l = true <-> exists x, x ∈ l /\ f x = true.
Proof.
  induction l as [|y l IH]; cbn [existsb].
  - split; [discriminate | intros (x & Hx & _); inversion Hx].
  - rewrite orb_true_iff, IH. split.
    + intros [Hy|(x & Hx & Hf)]; [exists y; split; [left|exact Hy]|].
      exists x. split; [now right | exact Hf].
    + intros (x & Hx & Hf). apply elem_of_cons in Hx as [->|Hx]; [now left|].
      right. now exists x.
Qed.

Lemma all_timed_spec s :
  Toast.all_timed s = true <->
  forall child, child ∈ Toast.document_body s ->
    exists timer, timer ∈ Toast.timers s /\ Toast.target (snd timer) = fst child.
Proof.
  unfold Toast.all_timed. rewrite forallb_elem_of.
  split; intros H child Hin; specialize (H child Hin).
  - apply existsb_elem_of in H as (timer & Ht & Hw).
    exists timer. split; [exact Ht | now apply Nat.eqb_eq in Hw].
  - destruct H as (timer & Ht & Hw). apply existsb_elem_of.
    exists timer. split; [exact Ht | now apply Nat.eqb_eq].
Qed.

Lemma head_fire k s : Toast.document_head (Toast.fire k s) = Toast.document_head s.
Proof.
  unfold Toast.fire. destruct (Toast.timers s !! k) as [[d [t|t]]|]; reflexivity.
Qed.

Lemma elsewhere_step s a :
  Toast.styles_elsewhere (Toast.step s a) = Toast.styles_elsewhere s.
Proof.
  destruct a as [message type duration|k]; [reflexivity|].
  cbn [Toast.step]. unfold Toast.fire.
  destruct (Toast.timers s !! k) as [[d [t|t]]|]; reflexivity.
Qed.

(** X26: the style block of the toasts is injected once. Whatever
    sequence of [showToast] calls and timers runs, the [style] elements
    of the head are those there were, followed by the toast style exactly
    when the document had no [style] element with a [data-toast]
    attribute, in the head or anywhere else, and [showToast] was called
    at all; the [style] elements outside the head are left alone, and no
    timer removes the block. *)
Theorem toast_style_is_injected_once actions s :
  Toast.document_head (Toast.run actions s) =
    (if Toast.has_toast_style s || negb (existsb Toast.is_show actions)
     then Toast.document_head s
     else Toast.document_head s ++ [Toast.toast_style]) /\
  Toast.styles_elsewhere (Toast.run actions s) = Toast.styles_elsewhere s.
Proof.
  revert s. induction actions as [|a actions IH]; intros s.
  - cbn. now rewrite orb_true_r.
  - change (Toast.run (a :: actions) s) with (Toast.run actions (Toast.step s a)).
    destruct (IH (Toast.step s a)) as [IHhead IHelse].
    rewrite IHhead, IHelse, elsewhere_step. split; [|reflexivity].
    destruct a as [message type duration|k];
      cbn [Toast.step existsb Toast.is_show orb negb].
    + rewrite orb_false_r.
      destruct (Toast.has_toast_style s) eqn:E.
      * assert (Hsame : Toast.has_toast_style (Toast.showToast message type duration s)
                        = true).
        { unfold Toast.showToast. rewrite E. unfold Toast.has_toast_style in *.
          cbn [Toast.document_head Toast.styles_elsewhere]. exact E. }
        rewrite Hsame. cbn [orb Toast.showToast Toast.document_head]. now rewrite E.
      * assert (Hnow : Toast.has_toast_style (Toast.showToast message type duration s)
                       = true).
        { unfold Toast.showToast. rewrite E.
          unfold Toast.has_toast_style.
          cbn [Toast.document_head Toast.styles_elsewhere].
          rewrite !existsb_app. cbn. now rewrite orb_true_r. }
        rewrite Hnow. cbn [orb Toast.showToast Toast.document_head]. now rewrite E.
    + assert (Hsame : Toast.has_toast_style (Toast.fire k s) = Toast.has_toast_style s).
      { unfold Toast.has_toast_style. rewrite head_fire.
        now rewrite <- (elsewhere_step s (Toast.Fire k)). }
      now rewrite Hsame, head_fire.
Qed.

(** A page that brings a [style] element with a [data-toast] attribute
    of its own, outside the head, gets no second style block. *)
Example toast_style_found_outside_the_head :
  Toast.document_head (Toast.showToast "Saved" None None Toast.themed_screen) =
  Toast.document_head Toast.themed_screen.
Proof. reflexivity. Qed.

Lemma map_other_toasts (f : Toast.toast_element -> Toast.toast_element) toast l :
  (forall child, child ∈ l -> fst child <> toast) ->
  map (fun child => if Nat.eqb (fst child) toast
                    then (fst child, f (snd child)) else child) l = l.
Proof.
  induction l as [|x l IH]; intros H; [reflexivity|]. cbn [map].
  rewrite IH by (intros child Hc; apply H; now right).
  destruct (Nat.eqb_spec (fst x) toast) as [Heq|_]; [|reflexivity].
  now destruct (H x (list_elem_of_here _ _)).
Qed.

Lemma filter_other_toasts toast (l : list (nat * Toast.toast_element)) :
  (forall child, child ∈ l -> fst child <> toast) ->
  List.filter (fun child => negb (Nat.eqb (fst child) toast)) l = l.
Proof.
  induction l as [|x l IH]; intros H; [reflexivity|]. cbn [List.filter].
  rewrite IH by (intros child Hc; apply H; now right).
  destruct (Nat.eqb_spec (fst x) toast) as [Heq|_]; [|reflexivity].
  now destruct (H x (list_elem_of_here _ _)).
Qed.

(** X27: a toast comes and goes without disturbing the others. On a
    screen whose toasts carry numbers handed out earlier, [showToast]
    appends the new toast after those on the screen and sets one timer,
    with the given duration or 3000 ms; when that timer runs the toast
    starts the reverse animation and a timer of 300 ms is set; when this
    one runs the toast is removed, and the toasts and timers are exactly
    those there were before the call. The style block stays. *)
Theorem toast_comes_and_goes message type duration s :
  Toast.numbered s = true ->
  let toast := Toast.created s in
  let element := Toast.new_toast message (default "info" type) in
  let k := length (Toast.timers s) in
  let shown := Toast.showToast message type duration s in
  let faded := Toast.fire k shown in
  let gone := Toast.fire k faded in
  Toast.document_body shown = Toast.document_body s ++ [(toast, element)] /\
  Toast.timers shown =
    Toast.timers s ++ [(default 3000 duration, Toast.FadeOut toast)] /\
  Toast.document_body faded =
    Toast.document_body s ++ [(toast, Toast.fading element)] /\
  Toast.timers faded = Toast.timers s ++ [(300, Toast.Detach toast)] /\
  Toast.document_body gone = Toast.document_body s /\
  Toast.timers gone = Toast.timers s /\
  Toast.document_head gone = Toast.document_head shown.
Proof.
  intros Hnum. cbv zeta.
  assert (Hother : forall child,
            child ∈ Toast.document_body s -> fst child <> Toast.created s).
  { intros child Hc. unfold Toast.numbered in Hnum.
    rewrite forallb_elem_of in Hnum. apply Hnum, Nat.ltb_lt in Hc. lia. }
  set (element := Toast.new_toast message (default "info" type)).
  assert (Hfaded :
    Toast.fire (length (Toast.timers s)) (Toast.showToast message type duration s) =
    {| Toast.document_head := Toast.document_head (Toast.showToast message type duration s);
       Toast.styles_elsewhere := Toast.styles_elsewhere s;
       Toast.document_body :=
         Toast.document_body s ++ [(Toast.created s, Toast.fading element)];
       Toast.timers := Toast.timers s ++ [(300, Toast.Detach (Toast.created s))];
       Toast.created := S (Toast.created s) |}).
  { unfold Toast.fire. cbn [Toast.showToast Toast.timers].
    rewrite list_lookup_middle by reflexivity.
    rewrite delete_middle, app_nil_r.
    cbn [Toast.run_callback Toast.document_head Toast.styles_elsewhere
         Toast.document_body Toast.timers Toast.created].
    change (Toast.document_body (Toast.showToast message type duration s))
      with (Toast.document_body s ++ [(Toast.created s, element)]).
    rewrite map_app, map_other_toasts by exact Hother.
    cbn [map fst snd]. now rewrite Nat.eqb_refl. }
  rewrite Hfaded.
  assert (Hgone :
    Toast.fire (length (Toast.timers s))
      {| Toast.document_head :=
           Toast.document_head (Toast.showToast message type duration s);
         Toast.styles_elsewhere := Toast.styles_elsewhere s;
         Toast.document_body :=
           Toast.document_body s ++ [(Toast.created s, Toast.fading element)];
         Toast.timers := Toast.timers s ++ [(300, Toast.Detach (Toast.created s))];
         Toast.created := S (Toast.created s) |} =
    {| Toast.document_head :=
         Toast.document_head (Toast.showToast message type duration s);
       Toast.styles_elsewhere := Toast.styles_elsewhere s;
       Toast.document_body := Toast.document_body s;
       Toast.timers := Toast.timers s;
       Toast.created := S (Toast.created s) |}).
  { unfold Toast.fire. cbn [Toast.timers].
    rewrite list_lookup_middle by reflexivity.
    rewrite delete_middle, app_nil_r.
    cbn [Toast.run_callback Toast.document_head Toast.styles_elsewhere
         Toast.document_body Toast.timers Toast.created].
    rewrite List.filter_app, filter_other_toasts by exact Hother.
    cbn [List.filter fst]. rewrite Nat.eqb_refl. cbn [negb].
    now rewrite app_nil_r. }
  rewrite Hgone. repeat split.
Qed.

Lemma toast_comes_and_goes_witness :
  Toast.document_body
    (Toast.fire 2 (Toast.fire 2 (Toast.showToast "Sent" None (Some 1500) Toast.busy_screen)))
  = Toast.document_body Toast.busy_screen.
Proof.
  refine (proj1 (proj2 (proj2 (proj2 (proj2
    (toast_comes_and_goes "Sent" None (Some 1500) Toast.busy_screen _)))))).
  reflexivity.
Defined.

Lemma elem_of_delete_other {A} (l : list A) k x y :
  x ∈ l -> l !! k = Some y -> x <> y -> x ∈ delete k l.
Proof.
  intros Hx Hk Hne. apply list_elem_of_lookup in Hx as [i Hi].
  destruct (lt_eq_lt_dec i k) as [[Hlt|Heq]|Hgt].
  - apply (list_elem_of_lookup_2 _ i). now rewrite list_lookup_delete_lt.
  - subst i. congruence.
  - apply (list_elem_of_lookup_2 _ (pred i)).
    rewrite list_lookup_delete_ge by lia.
    now replace (S (pred i)) with i by lia.
Qed.

Lemma all_timed_step s a :
  Toast.all_timed s = true -> Toast.all_timed (Toast.step s a) = true.
Proof.
  rewrite !all_timed_spec. intros H. destruct a as [message type duration|k];
    cbn [Toast.step].
  - cbn [Toast.showToast Toast.document_body Toast.timers].
    intros child Hc. apply elem_of_app in Hc as [Hc|Hc].
    + destruct (H child Hc) as (timer & Ht & Htarget).
      exists timer. split; [apply elem_of_app; now left | exact Htarget].
    + apply list_elem_of_singleton in Hc as ->.
      exists (default 3000 duration, Toast.FadeOut (Toast.created s)).
      split; [|reflexivity]. apply elem_of_app. right. apply list_elem_of_here.
  - unfold Toast.fire.
    destruct (Toast.timers s !! k) as [[d cb]|] eqn:Hk; [|exact H].
    destruct cb as [toast|toast];
      cbn [Toast.run_callback Toast.document_body Toast.timers].
    + intros child' Hc.
      assert (Hfrom : exists child,
                child ∈ Toast.document_body s /\ fst child' = fst child).
      { revert Hc. generalize (Toast.document_body s).
        induction l as [|x l IH]; cbn [map]; intros Hc; [inversion Hc|].
        apply elem_of_cons in Hc as [->|Hc].
        - exists x. split; [left|]. now destruct (Nat.eqb (fst x) toast).
        - destruct (IH Hc) as (child & Hin & Heq). exists child. split; [now right|exact Heq]. }
      destruct Hfrom as (child & Hin & ->).
      destruct (H child Hin) as (timer & Ht & Htarget).
      destruct (decide (fst child = toast)) as [Heq|Hne].
      * exists (300, Toast.Detach toast). split; [|now rewrite Heq].
        apply elem_of_app. right. apply list_elem_of_here.
      * exists timer. split; [|exact Htarget]. apply elem_of_app. left.
        apply (elem_of_delete_other _ _ _ _ Ht Hk).
        intros ->. now apply Hne.
    + intros child Hc.
      assert (Hkept : child ∈ Toast.document_body s /\ fst child <> toast).
      { revert Hc. generalize (Toast.document_body s).
        induction l as [|x l IH]; cbn [List.filter]; intros Hc; [inversion Hc|].
        destruct (Nat.eqb_spec (fst x) toast) as [Heq|Hne]; cbn [negb] in Hc.
        - destruct (IH Hc) as [Hin Hne]. split; [now right | exact Hne].
        - apply elem_of_cons in Hc as [->|Hc]; [split; [left | exact Hne]|].
          destruct (IH Hc) as [Hin Hne']. split; [now right | exact Hne']. }
      destruct Hkept as [Hin Hne].
      destruct (H child Hin) as (timer & Ht & Htarget).
      exists timer. split; [|exact Htarget].
      apply (elem_of_delete_other _ _ _ _ Ht Hk).
      intros ->. now apply Hne.
Qed.

(** X28: no toast outlives its timers. If every toast on the screen has
    a timer pending for it, this is still so after any sequence of
    [showToast] calls and timers, in whatever order the timers run; so
    once no timer is pending, no toast is left on the screen. *)
Theorem toasts_do_not_outlive_their_timers actions s :
  Toast.all_timed s = true ->
  Toast.all_timed (Toast.run actions s) = true /\
  (Toast.timers (Toast.run actions s) = [] ->
   Toast.document_body (Toast.run actions s) = []).
Proof.
  intros H.
  assert (Hrun : Toast.all_timed (Toast.run actions s) = true).
  { revert s H. induction actions as [|a actions IH]; intros s H; [exact H|].
    apply (IH (Toast.step s a)), all_timed_step, H. }
  split; [exact Hrun|]. intros Hnone.
  pose proof (proj1 (all_timed_spec _) Hrun) as Hspec. rewrite Hnone in Hspec.
  destruct (Toast.document_body (Toast.run actions s)) as [|child l]; [reflexivity|].
  destruct (Hspec child (list_elem_of_here _ _)) as (timer & Ht & _). inversion Ht.
Qed.

Lemma toasts_do_not_outlive_their_timers_witness :
  Toast.document_body
    (Toast.run [Toast.Show "Sent" None None; Toast.Fire 1; Toast.Fire 0;
                Toast.Fire 1; Toast.Fire 0; Toast.Fire 0]
       Toast.busy_screen) = [].
Proof.
  refine (proj2 (toasts_do_not_outlive_their_timers
                   [Toast.Show "Sent" None None; Toast.Fire 1; Toast.Fire 0;
                    Toast.Fire 1; Toast.Fire 0; Toast.Fire 0]
                   Toast.busy_screen _) _); reflexivity.
Defined.

(** ** Email validation, continued *)

Lemma occurrences_append c a b :
  occurrences c (a +:+ b) = (occurrences c a + occurrences c b)%nat.
Proof.
  induction a as [|x a IH]; [reflexivity|].
  rewrite append_cons. cbn [occurrences]. rewrite IH. lia.
Qed.

Lemma length_append a b :
  String.length (a +:+ b) = (String.length a + String.length b)%nat.
Proof.
  induction a as [|x a IH]; [reflexivity|].
  rewrite append_cons. cbn [String.length]. now rewrite IH.
Qed.

Lemma plain_has_no_at x : plain x -> occurrences "@" x = 0%nat.
Proof.
  intros [_ H]. induction x as [|d x IH]; [reflexivity|].
  cbn [occurrences]. rewrite IH by (intros ch Hch; apply H; now right).
  destruct (H d (or_introl eq_refl)) as [_ Hd].
  unfold eqc. now destruct (Ascii.eqb_spec d "@").
Qed.

Lemma plain_is_not_empty x : plain x -> (1 <= String.length x)%nat.
Proof. intros [Hx _]. destruct x; [contradiction | cbn; lia]. Qed.

(** X29: what every accepted address has. A string [isValidEmail]
    accepts contains exactly one [@], no whitespace character, and at
    least five characters. *)
Theorem valid_email_necessities s :
  isValidEmail s = true ->
  occurrences "@" s = 1%nat /\
  (forall ch, In ch (list_ascii_of_string s) -> is_js_whitespace ch = false) /\
  (5 <= String.length s)%nat.
Proof.
  intros H. apply isValidEmail_shape in H as (a & b & c & -> & Ha & Hb & Hc).
  split; [|split].
  - rewrite !occurrences_append.
    rewrite (plain_has_no_at a Ha), (plain_has_no_at b Hb), (plain_has_no_at c Hc).
    reflexivity.
  - intros ch. rewrite !list_ascii_append, !in_app_iff.
    intros [Hin|[Hin|[Hin|[Hin|Hin]]]];
      try (destruct Hin as [<-|[]]; reflexivity);
      [apply Ha | apply Hb | apply Hc]; exact Hin.
  - rewrite !length_append.
    pose proof (plain_is_not_empty a Ha). pose proof (plain_is_not_empty b Hb).
    pose proof (plain_is_not_empty c Hc). cbn [String.length]. lia.
Qed.

Lemma valid_email_necessities_witness :
  occurrences "@" "user@example.com" = 1%nat.
Proof.
  refine (proj1 (valid_email_necessities "user@example.com" _)). reflexivity.
Defined.
